(** * Expression bindings of beagle-web-core ([src/bindings.ts])

    A shallow embedding of the binding engine: the regular expressions the
    source matches with, the parameter automaton, the literal, operation and
    context-path evaluators, the string interpolator and the tree walk.

    - JavaScript strings are sequences of code units; they are modelled as
      lists of [ascii] characters.
    - Regular expressions are kept as syntax trees and run by a backtracking
      matcher that follows the priority rules of ECMAScript (alternatives
      left to right, greedy repetition, an iteration that consumes nothing is
      rejected).  Capture groups are read where the parts of a sequence end.
    - A value of the tree is [undefined], [null], a boolean, a number, a
      string, an array or an object; numbers are left abstract, and an object
      is the list of its entries in the order of its keys.
    - Code that may throw returns a [result]; code that also writes to the
      console returns the warnings with it.  Loops that the source does not
      bound are given a step budget, and are shown never to use it up. *)

From Stdlib Require Import Ascii String List Arith Bool Lia.
Import ListNotations.

Set Implicit Arguments.

(** ** Strings *)

Definition str := list ascii.

(** A string literal of the source. *)
Definition lit (s : string) : str := list_ascii_of_string s.

Definition chr_backslash : ascii := "\"%char.
Definition chr_quote : ascii := "'"%char.
Definition chr_dquote : ascii := "034"%char.

Fixpoint str_eqb (a b : str) : bool :=
  match a, b with
  | [], [] => true
  | x :: a', y :: b' => Ascii.eqb x y && str_eqb a' b'
  | _, _ => false
  end.

(** [String.prototype.startsWith]. *)
Fixpoint startsWith (s prefix : str) : bool :=
  match prefix, s with
  | [], _ => true
  | p :: prefix', c :: s' => Ascii.eqb c p && startsWith s' prefix'
  | _ :: _, [] => false
  end.

(** [String.prototype.endsWith]. *)
Definition endsWith (s suffix : str) : bool :=
  startsWith (rev s) (rev suffix).

(** [String.prototype.includes]. *)
Fixpoint includes (s needle : str) : bool :=
  startsWith s needle ||
  match s with
  | [] => false
  | _ :: s' => includes s' needle
  end.

(** White space and line terminators, as [String.prototype.trim] sees them
    among the code units below 256. *)
Definition is_space (c : ascii) : bool :=
  let n := nat_of_ascii c in
  ((9 <=? n) && (n <=? 13)) || (n =? 32) || (n =? 160).

Fixpoint trimStart (s : str) : str :=
  match s with
  | c :: s' => if is_space c then trimStart s' else s
  | [] => []
  end.

Definition trimEnd (s : str) : str := rev (trimStart (rev s)).

(** [String.prototype.trim]. *)
Definition trim (s : str) : str := trimEnd (trimStart s).

(** [s.substr(0, s.length - rest.length)]: what was consumed between [s] and
    its suffix [rest]. *)
Definition consumed (s rest : str) : str :=
  firstn (length s - length rest) s.

(** ** Regular expressions *)

Module Regex.

Inductive regex : Type :=
| Eps
| Bos                          (* ^ *)
| Eos                          (* $ *)
| Cls (p : ascii -> bool)      (* one character of a class *)
| Seq (a b : regex)
| Alt (a b : regex)
| Star (a : regex).

Definition Chr (c : ascii) : regex := Cls (Ascii.eqb c).
Definition Plus (a : regex) : regex := Seq a (Star a).
Definition Opt (a : regex) : regex := Alt a Eps.

Fixpoint Lit (s : str) : regex :=
  match s with
  | [] => Eps
  | c :: s' => Seq (Chr c) (Lit s')
  end.

(** Character classes of the source's patterns. *)
Definition is_digit (c : ascii) : bool :=
  let n := nat_of_ascii c in (48 <=? n) && (n <=? 57).

Definition is_word (c : ascii) : bool :=
  let n := nat_of_ascii c in
  ((48 <=? n) && (n <=? 57)) || ((65 <=? n) && (n <=? 90))
  || ((97 <=? n) && (n <=? 122)) || (n =? 95).

Definition is_line_terminator (c : ascii) : bool :=
  let n := nat_of_ascii c in (n =? 10) || (n =? 13).

Definition any_char (c : ascii) : bool := negb (is_line_terminator c).

Definition none_of (l : list ascii) (c : ascii) : bool :=
  negb (existsb (Ascii.eqb c) l).

Definition Dot : regex := Cls any_char.            (* .  *)
Definition Digit : regex := Cls is_digit.          (* \d *)
Definition Word : regex := Cls is_word.            (* \w *)

Section Matcher.
Variable A : Type.

(** Greedy repetition.  [fuel] bounds the number of iterations; every
    accepted iteration shortens the input, so [length s] is enough. *)
Fixpoint star (step : str -> (str -> option A) -> option A)
         (fuel : nat) (s : str) (k : str -> option A) : option A :=
  match fuel with
  | 0 => k s
  | S fuel' =>
      match step s (fun s' =>
                      if length s' <? length s then star step fuel' s' k
                      else None) with
      | Some x => Some x
      | None => k s
      end
  end.

(** [run n0 r s k]: match [r] at the start of [s], then continue with [k] on
    what is left; the first success in priority order wins.  [n0] is the
    length of the whole input, so that [^] can tell where it is. *)
Fixpoint run (n0 : nat) (r : regex) (s : str) (k : str -> option A)
  : option A :=
  match r with
  | Eps => k s
  | Bos => if length s =? n0 then k s else None
  | Eos => match s with [] => k [] | _ :: _ => None end
  | Cls p =>
      match s with
      | c :: s' => if p c then k s' else None
      | [] => None
      end
  | Seq a b => run n0 a s (fun s' => run n0 b s' k)
  | Alt a b =>
      match run n0 a s k with
      | Some x => Some x
      | None => run n0 b s k
      end
  | Star a => star (run n0 a) (length s) s k
  end.
End Matcher.

(** What is left of [s] after the first match of [r] at its start. *)
Definition exec_prefix (n0 : nat) (r : regex) (s : str) : option str :=
  run n0 r s (fun rest => Some rest).

(** [RegExp.prototype.test] for a pattern anchored with [^]. *)
Definition test (r : regex) (s : str) : bool :=
  match exec_prefix (length s) r s with
  | Some _ => true
  | None => false
  end.

(** Declarative matching: [Matches n0 r s rest] when [r] can consume [s] down
    to [rest]. *)
Inductive Matches (n0 : nat) : regex -> str -> str -> Prop :=
| M_Eps s : Matches n0 Eps s s
| M_Bos s : length s = n0 -> Matches n0 Bos s s
| M_Eos : Matches n0 Eos [] []
| M_Cls p c s : p c = true -> Matches n0 (Cls p) (c :: s) s
| M_Seq a b s s1 s2 :
    Matches n0 a s s1 -> Matches n0 b s1 s2 -> Matches n0 (Seq a b) s s2
| M_AltL a b s s1 : Matches n0 a s s1 -> Matches n0 (Alt a b) s s1
| M_AltR a b s s1 : Matches n0 b s s1 -> Matches n0 (Alt a b) s s1
| M_StarNil a s : Matches n0 (Star a) s s
| M_StarCons a s s1 s2 :
    Matches n0 a s s1 -> length s1 < length s ->
    Matches n0 (Star a) s1 s2 -> Matches n0 (Star a) s s2.

(** Patterns in which [^] does not occur. *)
Fixpoint anchor_free (r : regex) : bool :=
  match r with
  | Bos => false
  | Eps | Eos | Cls _ => true
  | Seq a b | Alt a b => anchor_free a && anchor_free b
  | Star a => anchor_free a
  end.

(** What follows a run of characters of a class. *)
Definition stops (p : ascii -> bool) (rest : str) : Prop :=
  match rest with
  | [] => True
  | c :: _ => p c = false
  end.

(** [String.prototype.replace] walks the input from left to right; each
    position yields a character copied as it is, or a match with its capture
    groups. *)
Inductive piece (G : Type) : Type :=
| Text (c : ascii)
| Hit (whole : str) (groups : G).

Arguments Text {G} c.

(** What a piece contributes when every match is replaced by one string. *)
Definition copy_or {G : Type} (replacement : str) (p : piece G) : str :=
  match p with
  | Text c => [c]
  | Hit _ _ => replacement
  end.

Section Replace.
Variable G : Type.

(** [exec n0 s]: the pattern tried where [s] starts, in an input of length
    [n0]; the capture groups and what is left after the match. *)
Variable exec : nat -> str -> option (G * str).

(** The [g] flag: without it only the first match is replaced. *)
Variable global : bool.

(** [skip] counts the characters still covered by the previous match; [live]
    tells whether the pattern is still tried.  After an empty match the next
    character is copied, as [lastIndex] is advanced by one. *)
Fixpoint scan (n0 skip : nat) (live : bool) (s : str) : list (piece G) :=
  match skip with
  | S skip' =>
      match s with
      | _ :: s' => scan n0 skip' live s'
      | [] => []
      end
  | 0 =>
      match (if live then exec n0 s else None) with
      | Some (groups, rest) =>
          let n := length s - length rest in
          Hit (firstn n s) groups ::
          match s with
          | c :: s' =>
              if n =? 0 then Text c :: scan n0 0 global s'
              else scan n0 (n - 1) global s'
          | [] => []
          end
      | None =>
          match s with
          | c :: s' => Text c :: scan n0 0 live s'
          | [] => []
          end
      end
  end.

Definition pieces (input : str) : list (piece G) :=
  scan (length input) 0 true input.

(** [input.replace(pattern, replacement)] for a replacement string without
    [$] patterns. *)
Definition replace_str (replacement : str) (input : str) : str :=
  flat_map (copy_or replacement) (pieces input).
End Replace.

(** A pattern without capture groups, as [scan] wants it. *)
Definition exec_of (r : regex) (n0 : nat) (s : str) : option (unit * str) :=
  match exec_prefix n0 r s with
  | Some rest => Some (tt, rest)
  | None => None
  end.

Definition replace (r : regex) (global : bool) (replacement input : str) : str :=
  replace_str (exec_of r) global replacement input.

End Regex.

Import Regex.

(** ** The patterns of [bindings.ts]

    In the comments a pattern is quoted with a blank between a star and a
    closing parenthesis, which the source does not have. *)

(** [(\\* )]: the backslashes before a binding. *)
Definition binding_slashes : regex := Star (Chr chr_backslash).

(** ['([^'\\]|\\.)*']: a quoted literal inside a binding. *)
Definition binding_quoted : regex :=
  Seq (Chr chr_quote)
      (Seq (Star (Alt (Cls (none_of [chr_quote; chr_backslash]))
                      (Seq (Chr chr_backslash) Dot)))
           (Chr chr_quote)).

(** [([^'\}]|('([^'\\]|\\.)*'))*]: the expression of a binding. *)
Definition binding_body : regex :=
  Star (Alt (Cls (none_of [chr_quote; "}"%char])) binding_quoted).

(** [bindingRegex = /(\\* )@\{(([^'\}]|('([^'\\]|\\.)*'))* )\}/g], tried where
    [s] starts.  The groups are read where each part of the sequence ends:
    group 1 (the backslashes), group 2 (the expression), then the rest. *)
Definition exec_bindingRegex (n0 : nat) (s : str) : option ((str * str) * str) :=
  run n0 binding_slashes s (fun s1 =>
  run n0 (Lit (lit "@{")) s1 (fun s2 =>
  run n0 binding_body s2 (fun s3 =>
  run n0 (Chr "}"%char) s3 (fun s4 =>
  Some ((consumed s s1, consumed s2 s3), s4))))).

(** [str.match(fullBindingRegex)] with
    [fullBindingRegex = /^@\{(([^'\}]|('([^'\\]|\\.)*'))* )\}$/]: group 1. *)
Definition match_fullBindingRegex (s : str) : option str :=
  let n0 := length s in
  run n0 Bos s (fun s0 =>
  run n0 (Lit (lit "@{")) s0 (fun s1 =>
  run n0 binding_body s1 (fun s2 =>
  run n0 (Chr "}"%char) s2 (fun s3 =>
  run n0 Eos s3 (fun _ =>
  Some (consumed s1 s2)))))).

(** [[\w\d_]]. *)
Definition is_ident_char (c : ascii) : bool :=
  is_word c || is_digit c || Ascii.eqb c "_"%char.

(** [(\[\d+\])*]. *)
Definition path_indexes : regex :=
  Star (Seq (Chr "["%char) (Seq (Plus Digit) (Chr "]"%char))).

(** [[\w\d_]+(\[\d+\])*]. *)
Definition path_segment : regex :=
  Seq (Plus (Cls is_ident_char)) path_indexes.

(** [/^[\w\d_]+(\[\d+\])*(\.([\w\d_]+(\[\d+\])* ))*$/]. *)
Definition path_regex : regex :=
  Seq Bos (Seq path_segment
               (Seq (Star (Seq (Chr "."%char) path_segment)) Eos)).

(** [path.match(/^([^\.\[\]]+)\.?(.* )/)]: groups 1 and 2. *)
Definition match_pathRegex (s : str) : option (str * str) :=
  let n0 := length s in
  run n0 Bos s (fun s0 =>
  run n0 (Plus (Cls (none_of ["."%char; "["%char; "]"%char]))) s0 (fun s1 =>
  run n0 (Opt (Chr "."%char)) s1 (fun s2 =>
  run n0 (Star Dot) s2 (fun s3 =>
  Some (consumed s0 s1, consumed s2 s3))))).

(** [operation.match(/^(\w[\w\d_]* )\((.* )\)$/)]: groups 1 and 2. *)
Definition match_operationRegex (s : str) : option (str * str) :=
  let n0 := length s in
  run n0 Bos s (fun s0 =>
  run n0 (Seq Word (Star (Cls is_ident_char))) s0 (fun s1 =>
  run n0 (Chr "("%char) s1 (fun s2 =>
  run n0 (Star Dot) s2 (fun s3 =>
  run n0 (Chr ")"%char) s3 (fun s4 =>
  run n0 Eos s4 (fun _ =>
  Some (consumed s0 s1, consumed s2 s3))))))).

(** [/^\d+(\.\d+)?$/]. *)
Definition number_regex : regex :=
  Seq Bos (Seq (Plus Digit)
               (Seq (Opt (Seq (Chr "."%char) (Plus Digit))) Eos)).

(** [/(^')|('$)/g]. *)
Definition outer_quotes_regex : regex :=
  Alt (Seq Bos (Chr chr_quote)) (Seq (Chr chr_quote) Eos).

(** [/\\'/g]. *)
Definition escaped_quote_regex : regex := Lit [chr_backslash; chr_quote].

(** [/,$/]. *)
Definition trailing_comma_regex : regex := Seq (Chr ","%char) Eos.

(** [/\\\\/g]. *)
Definition two_backslashes_regex : regex := Lit [chr_backslash; chr_backslash].

(** [/\\$/]. *)
Definition trailing_backslash_regex : regex := Seq (Chr chr_backslash) Eos.

(** ** The pushdown automaton

    [utils/Automaton] ([createDPA] and the [match] of the automaton it
    returns) is not among the sources.  The module follows the Automaton
    Definition of section 3 and the Pushdown Recognizer of section 4.1 of the
    specification. *)

Module Automaton.

(** Modelled from the spec: what a rule reads, a literal string or a pattern
    matched at the start of the remaining input; a rule that reads nothing
    is the unconditional fallback. *)
Inductive pattern : Type :=
| ReadStr (s : str)
| ReadRe (r : regex).

(** Modelled from the spec: what a rule pops, a symbol that must be on top of
    the stack, or the [Automaton.empty] marker, which asks for an empty stack
    and pops nothing. *)
Inductive pop_action : Type :=
| PopSymbol (symbol : str)
| PopEmpty.

(** Modelled from the spec: a transition rule. *)
Record transition (State : Type) : Type := {
  read : option pattern;
  push : option str;
  pop : option pop_action;
  next : State
}.

(** Modelled from the spec: the outcome of a run, the matched prefix or no
    match ([null] in the source); [OutOfFuel] is the step budget of the model
    used up. *)
Inductive outcome : Type :=
| Matched (prefix : str)
| NoMatch
| OutOfFuel.

Section DPA.
Variable State : Type.
Variable state_eqb : State -> State -> bool.
Variables initial final : State.
Variable transitions : State -> list (transition State).

(** Modelled from the spec: the pop condition of a rule.  A pop that does
    not find its marker makes the rule not apply. *)
Definition pop_ok (stack : list str) (p : option pop_action) : bool :=
  match p with
  | None => true
  | Some PopEmpty => match stack with [] => true | _ :: _ => false end
  | Some (PopSymbol symbol) =>
      match stack with
      | top :: _ => str_eqb top symbol
      | [] => false
      end
  end.

(** Modelled from the spec: the text a rule reads from the remaining input,
    when its pattern matches there. *)
Definition try_read (remaining : str) (p : option pattern) : option str :=
  match p with
  | None => Some []
  | Some (ReadStr s) => if startsWith remaining s then Some s else None
  | Some (ReadRe r) =>
      match exec_prefix (length remaining) r remaining with
      | Some rest => Some (consumed remaining rest)
      | None => None
      end
  end.

(** Modelled from the spec: the rules of a state are tried in declaration
    order; the first one whose pop condition holds and whose pattern matches
    is taken. *)
Fixpoint find_transition (stack : list str) (remaining : str)
         (rules : list (transition State))
  : option (transition State * str) :=
  match rules with
  | [] => None
  | t :: rules' =>
      if pop_ok stack (pop t) then
        match try_read remaining (read t) with
        | Some matched => Some (t, matched)
        | None => find_transition stack remaining rules'
        end
      else find_transition stack remaining rules'
  end.

(** Modelled from the spec: the stack after a rule, its marker popped and
    its symbol pushed. *)
Definition update_stack (stack : list str) (t : transition State) : list str :=
  let popped :=
    match pop t with
    | Some (PopSymbol _) => tl stack
    | _ => stack
    end in
  match push t with
  | Some symbol => symbol :: popped
  | None => popped
  end.

(** Modelled from the spec: the loop of [match].  [Some (Some rest)] when
    the final state is reached with [rest] unread, [Some None] when no rule
    applies, [None] when [fuel] steps were not enough. *)
Fixpoint steps (fuel : nat) (state : State) (stack : list str) (remaining : str)
  : option (option str) :=
  if state_eqb state final then Some (Some remaining)
  else
    match fuel with
    | 0 => None
    | S fuel' =>
        match find_transition stack remaining (transitions state) with
        | None => Some None
        | Some (t, matched) =>
            steps fuel' (next t) (update_stack stack t)
                  (skipn (length matched) remaining)
        end
    end.

(** Modelled from the spec: one turn of the loop of [match], from a state
    other than the final one. *)
Definition step (state : State) (stack : list str) (remaining : str)
  : option (State * list str * str) :=
  match find_transition stack remaining (transitions state) with
  | None => None
  | Some (t, matched) =>
      Some (next t, update_stack stack t, skipn (length matched) remaining)
  end.

(** Some turns of the loop lead from one configuration to another. *)
Inductive Reach : State * list str * str -> State * list str * str -> Prop :=
| reach_refl c : Reach c c
| reach_step state stack remaining c c' :
    state_eqb state final = false ->
    step state stack remaining = Some c ->
    Reach c c' ->
    Reach (state, stack, remaining) c'.

(** Modelled from the spec: [match] of the automaton, the prefix consumed
    when the final state is reached. *)
Definition dpa_match (fuel : nat) (input : str) : outcome :=
  match steps fuel initial [] input with
  | Some (Some rest) => Matched (consumed input rest)
  | Some None => NoMatch
  | None => OutOfFuel
  end.
End DPA.

End Automaton.

Import Automaton.

(** ** Values, errors and effects *)

(** A JavaScript value of the tree; [number] stands for the doubles. *)
#[warnings="-register-all"] Inductive jsval (number : Type) : Type :=
| VUndefined
| VNull
| VBool (b : bool)
| VNum (n : number)
| VStr (s : str)
| VArr (items : list (jsval number))
| VObj (entries : list (str * jsval number)).

Arguments VUndefined {number}.
Arguments VNull {number}.
Arguments VBool {number} b.
Arguments VNum {number} n.
Arguments VStr {number} s.
Arguments VArr {number} items.
Arguments VObj {number} entries.

(** [DataContext] of [types.ts]. *)
Record DataContext (number : Type) : Type := {
  id : str;
  value : jsval number
}.

(** What [typeof] answers. *)
Inductive js_type : Type :=
| TUndefined | TObject | TBoolean | TNumber | TString.

Definition typeof {number : Type} (v : jsval number) : js_type :=
  match v with
  | VUndefined => TUndefined
  | VNull => TObject
  | VBool _ => TBoolean
  | VNum _ => TNumber
  | VStr _ => TString
  | VArr _ => TObject
  | VObj _ => TObject
  end.

Definition is_undefined {number : Type} (v : jsval number) : bool :=
  match v with
  | VUndefined => true
  | _ => false
  end.

(** The errors of [errors.ts] and the [TypeError] of the language. *)
Inductive error : Type :=
| BeagleParseError (message : str)
| BeagleNotFoundError (message : str)
| TypeError (message : str).

(** A computation that returns, throws, or uses up a step budget of the
    model. *)
Inductive result (A : Type) : Type :=
| Ok (a : A)
| Err (e : error)
| OutOfSteps.

Arguments Ok {A} a.
Arguments Err {A} e.
Arguments OutOfSteps {A}.

Definition bindR {A B : Type} (m : result A) (f : A -> result B) : result B :=
  match m with
  | Ok a => f a
  | Err e => Err e
  | OutOfSteps => OutOfSteps
  end.

Notation "x <- m ;; k" := (bindR m (fun x => k))
  (at level 61, m at next level, right associativity).

(** [Array.prototype.map] with a callback that may throw. *)
Fixpoint mapR {A B : Type} (f : A -> result B) (l : list A) : result (list B) :=
  match l with
  | [] => Ok []
  | x :: l' => y <- f x ;; ys <- mapR f l' ;; Ok (y :: ys)
  end.

(** A computation that also writes warnings to the console. *)
Definition M (A : Type) : Type := (result A * list error)%type.

Definition retM {A : Type} (a : A) : M A := (Ok a, []).

Definition bindM {A B : Type} (m : M A) (f : A -> M B) : M B :=
  match m with
  | (Ok a, w) => let (r, w') := f a in (r, w ++ w')
  | (Err e, w) => (Err e, w)
  | (OutOfSteps, w) => (OutOfSteps, w)
  end.

Notation "x <~ m ;; k" := (bindM m (fun x => k))
  (at level 61, m at next level, right associativity).

Definition liftM {A : Type} (r : result A) : M A := (r, []).

Definition throwM {A : Type} (e : error) : M A := (Err e, []).

(** [console.warn(error)]. *)
Definition console_warn (e : error) : M unit := (Ok tt, [e]).

(** [try { m } catch (error) { handler error }]. *)
Definition try_catch {A : Type} (m : M A) (handler : error -> M A) : M A :=
  match m with
  | (Err e, w) => let (r, w') := handler e in (r, w ++ w')
  | other => other
  end.

(** [input.replace(pattern, callback)]: the callback is run on each match,
    from left to right. *)
Fixpoint replace_with {G : Type} (callback : str -> G -> M str)
         (ps : list (piece G)) : M str :=
  match ps with
  | [] => retM []
  | Text c :: ps' => rest <~ replace_with callback ps' ;; retM (c :: rest)
  | Hit whole groups :: ps' =>
      replacement <~ callback whole groups ;;
      rest <~ replace_with callback ps' ;;
      retM (replacement ++ rest)
  end.

(** ** What the bindings rely on *)

(** The language built-ins, [lodash/get], the operation registry of
    [operations.ts] and [getContextHierarchy] of [context.ts], none of which
    is among the sources, are taken as they come. *)
Class Runtime (number : Type) : Type := {
  parseFloat : str -> number;
  Number_toString : number -> str;
  Object_toString : jsval number -> str;
  JSON_stringify : jsval number -> str;
  lodash_get : jsval number -> str -> jsval number;
  operations : str -> option (list (jsval number) -> jsval number);
  getContextHierarchy :
    jsval number -> list (DataContext number) -> list (DataContext number)
}.

(** ** The parameter automaton of [parseParameters] *)

Inductive param_state : Type :=
| initial
| insideParameterList
| isParameterListOver
| final.

Definition param_state_eqb (a b : param_state) : bool :=
  match a, b with
  | initial, initial => true
  | insideParameterList, insideParameterList => true
  | isParameterListOver, isParameterListOver => true
  | final, final => true
  | _, _ => false
  end.

(** [/,|$/]. *)
Definition param_end_regex : regex := Alt (Chr ","%char) Eos.

(** [/'([^']|(\\.))*'/]. *)
Definition param_string_regex : regex :=
  Seq (Chr chr_quote)
      (Seq (Star (Alt (Cls (none_of [chr_quote]))
                      (Seq (Chr chr_backslash) Dot)))
           (Chr chr_quote)).

(** [/[^\)]/]. *)
Definition param_symbol_regex : regex := Cls (none_of [")"%char]).

Definition rule (read : option pattern) (push : option str)
           (pop : option pop_action) (next : param_state)
  : transition param_state :=
  {| read := read; push := push; pop := pop; next := next |}.

Definition param_transitions (state : param_state)
  : list (transition param_state) :=
  match state with
  | initial =>
      [ rule (Some (ReadRe param_end_regex)) None None final;
        rule (Some (ReadStr (lit "("))) (Some (lit "(")) None insideParameterList;
        rule (Some (ReadRe param_string_regex)) None None initial;
        rule (Some (ReadRe param_symbol_regex)) None None initial ]
  | insideParameterList =>
      [ rule (Some (ReadStr (lit "("))) (Some (lit "(")) None insideParameterList;
        rule (Some (ReadStr (lit ")"))) None (Some (PopSymbol (lit "(")))
             isParameterListOver;
        rule (Some (ReadRe param_string_regex)) None None insideParameterList;
        rule (Some (ReadRe Dot)) None None insideParameterList ]
  | isParameterListOver =>
      [ rule None None (Some PopEmpty) initial;
        rule None None None insideParameterList ]
  | final => []
  end.

(** [dpa.match(input)].  A step reads at least one character, except the
    two rules of [isParameterListOver] and the end of the input, so twice the
    length and two more steps are enough. *)
Definition param_match (input : str) : outcome :=
  dpa_match param_state_eqb initial final param_transitions
            (2 * length input + 2) input.

(** The steps a state may still need besides two for each character. *)
Definition param_weight (state : param_state) : nat :=
  match state with
  | initial => 1
  | insideParameterList => 1
  | isParameterListOver => 2
  | final => 0
  end.

Definition wrong_format_message (parameterString : str) : str :=
  lit "wrong format for parameters: " ++ parameterString.

(** The [while] loop of [parseParameters].  [!match] holds for [null] and for
    the empty string. *)
Fixpoint parseParameters_loop (parameterString : str) (fuel position : nat)
         (parameters : list str) : result (list str) :=
  if position <? length parameterString then
    match fuel with
    | 0 => OutOfSteps
    | S fuel' =>
        match param_match (skipn position parameterString) with
        | OutOfFuel => OutOfSteps
        | NoMatch | Matched [] =>
            Err (BeagleParseError (wrong_format_message parameterString))
        | Matched m =>
            parseParameters_loop parameterString fuel'
              (position + length m)
              (parameters ++ [trim (replace trailing_comma_regex false [] m)])
        end
    end
  else Ok parameters.

Definition parseParameters (parameterString : str) : result (list str) :=
  parseParameters_loop parameterString (length parameterString) 0 [].

Section Bindings.
Context {number : Type} {runtime : Runtime number}.

#[local] Abbreviation jsval := (jsval number).
#[local] Abbreviation DataContext := (DataContext number).

(** Modelled from the spec: [getContextInHierarchy] of [context.ts] is not
    among the sources.  The hierarchy goes from the outermost to the
    innermost scope and is searched from the innermost one (sections 3 and
    4.4). *)
Definition getContextInHierarchy (contextHierarchy : list DataContext)
           (contextId : str) : option DataContext :=
  find (fun context => str_eqb (id context) contextId) (rev contextHierarchy).

Definition invalid_path_message (path : str) : str :=
  lit "invalid path " ++ [chr_dquote] ++ path ++ [chr_dquote]
  ++ lit ". Please, make sure your variable names contain only letters, numbers and the symbol "
  ++ [chr_dquote] ++ lit "_" ++ [chr_dquote]
  ++ lit ". To access substructures use "
  ++ [chr_dquote] ++ lit "." ++ [chr_dquote]
  ++ lit " and to access array indexes use "
  ++ [chr_dquote] ++ lit "[index]" ++ [chr_dquote] ++ lit ".".

Definition getBindingValue (path : str) (contextHierarchy : list DataContext)
  : result jsval :=
  if negb (test path_regex path) then
    Err (BeagleParseError (invalid_path_message path))
  else
    match match_pathRegex path with
    | None => Ok VUndefined
    | Some (contextId, contextPath) =>
        match getContextInHierarchy contextHierarchy contextId with
        | None => Ok VUndefined
        | Some context =>
            Ok (match contextPath with
                | [] => value context
                | _ :: _ => lodash_get (value context) contextPath
                end)
        end
    end.

Definition getLiteralValue (literal : str) : jsval :=
  if str_eqb literal (lit "true") then VBool true
  else if str_eqb literal (lit "false") then VBool false
  else if str_eqb literal (lit "null") then VNull
  else if test number_regex literal then VNum (parseFloat literal)
  else if startsWith literal (lit "'") && endsWith literal (lit "'") then
    VStr (replace escaped_quote_regex true (lit "'")
            (replace outer_quotes_regex true [] literal))
  else VUndefined.

Definition invalid_operation_message (operation : str) : str :=
  lit "invalid operation in expression: " ++ operation.

Definition unknown_operation_message (operationName : str) : str :=
  lit "operation with name " ++ [chr_dquote] ++ operationName ++ [chr_dquote]
  ++ lit " doesn't exist.".

(** [getOperationValue], with the evaluator of its parameters left open. *)
Definition getOperationValue_with
           (evaluate : str -> list DataContext -> result jsval)
           (operation : str) (contextHierarchy : list DataContext)
  : result jsval :=
  match match_operationRegex operation with
  | None => Err (BeagleParseError (invalid_operation_message operation))
  | Some (operationName, paramString) =>
      match operations operationName with
      | None =>
          Err (BeagleNotFoundError (unknown_operation_message operationName))
      | Some fn =>
          params <- parseParameters paramString ;;
          resolvedParams <-
            mapR (fun param => evaluate param contextHierarchy) params ;;
          Ok (fn resolvedParams)
      end
  end.

(** [evaluateExpression]; [fuel] bounds the nesting of operation calls. *)
Fixpoint evaluateExpression_fuel (fuel : nat) (expression : str)
         (contextHierarchy : list DataContext) : result jsval :=
  match fuel with
  | 0 => OutOfSteps
  | S fuel' =>
      let literalValue := getLiteralValue expression in
      if negb (is_undefined literalValue) then Ok literalValue
      else
        let isOperation := includes expression (lit "(") in
        if isOperation then
          getOperationValue_with (evaluateExpression_fuel fuel')
                                 expression contextHierarchy
        else getBindingValue expression contextHierarchy
  end.

(** A parameter is shorter than the call it belongs to, so the length of the
    expression bounds the nesting. *)
Definition evaluateExpression (expression : str)
           (contextHierarchy : list DataContext) : result jsval :=
  evaluateExpression_fuel (S (length expression)) expression contextHierarchy.

Definition getOperationValue (operation : str)
           (contextHierarchy : list DataContext) : result jsval :=
  getOperationValue_with evaluateExpression operation contextHierarchy.

(** [String(v)], as a template literal does it. *)
Definition ToString (v : jsval) : str :=
  match v with
  | VUndefined => lit "undefined"
  | VNull => lit "null"
  | VBool true => lit "true"
  | VBool false => lit "false"
  | VNum n => Number_toString n
  | VStr s => s
  | VArr _ | VObj _ => Object_toString v
  end.

(** The callback of [str.replace(bindingRegex, ...)]. *)
Definition replaceBinding (contextHierarchy : list DataContext)
           (bindingStr : str) (groups : str * str) : M str :=
  let (slashes, path) := groups in
  let isBindingScaped := Nat.eqb (length slashes mod 2) 1 in
  let scapedSlashes :=
    replace two_backslashes_regex true [chr_backslash] slashes in
  if isBindingScaped then
    retM (replace trailing_backslash_regex false [] scapedSlashes
          ++ lit "@{" ++ path ++ lit "}")
  else
    bindingValue <~
      try_catch (liftM (evaluateExpression path contextHierarchy))
                (fun error => _ <~ console_warn error ;; retM VUndefined) ;;
    let asString :=
      match typeof bindingValue with
      | TObject => VStr (JSON_stringify bindingValue)
      | _ => bindingValue
      end in
    retM (if is_undefined bindingValue then bindingStr
          else scapedSlashes ++ ToString asString).

Definition replaceBindingsInString (s : str)
           (contextHierarchy : list DataContext) : M jsval :=
  match match_fullBindingRegex s with
  | Some expression =>
      try_catch
        (bindingValue <~ liftM (evaluateExpression expression contextHierarchy) ;;
         retM (if is_undefined bindingValue then VStr s else bindingValue))
        (fun error => _ <~ console_warn error ;; retM (VStr s))
  | None =>
      replaced <~ replace_with (replaceBinding contextHierarchy)
                               (pieces exec_bindingRegex true s) ;;
      retM (VStr replaced)
  end.

(** [const ignore = ['id', ' _beagleComponent_', 'context']]. *)
Definition ignore : list str :=
  [lit "id"; lit " _beagleComponent_"; lit "context"].

(** [Array.prototype.includes] on strings. *)
Definition list_includes (l : list str) (key : str) : bool :=
  existsb (str_eqb key) l.

(** The object spread with one more key: the key keeps its place when it is
    there already, and comes last otherwise. *)
Fixpoint obj_set (key : str) (v : jsval) (entries : list (str * jsval))
  : list (str * jsval) :=
  match entries with
  | [] => [(key, v)]
  | (k, old) :: entries' =>
      if str_eqb k key then (k, v) :: entries'
      else (k, old) :: obj_set key v entries'
  end.

Definition null_to_object_message : str :=
  lit "Cannot convert undefined or null to object".

(** [replaceBindings].  An object is a list of entries with distinct keys, in
    the order of [Object.keys]; [typeof null] is ['object'], and
    [Object.keys(null)] throws. *)
Fixpoint replaceBindings (data : jsval) (contextHierarchy : list DataContext)
  : M jsval :=
  match data with
  | VStr s => replaceBindingsInString s contextHierarchy
  | VArr items =>
      mapped <~
        (fix map_items (l : list jsval) : M (list jsval) :=
           match l with
           | [] => retM []
           | item :: l' =>
               item' <~ replaceBindings item contextHierarchy ;;
               rest <~ map_items l' ;;
               retM (item' :: rest)
           end) items ;;
      retM (VArr mapped)
  | VObj entries =>
      let hierarchy := getContextHierarchy data contextHierarchy in
      reduced <~
        (fix reduce (l : list (str * jsval)) (result : list (str * jsval))
           : M (list (str * jsval)) :=
           match l with
           | [] => retM result
           | (key, v) :: l' =>
               v' <~ (if list_includes ignore key then retM v
                      else replaceBindings v hierarchy) ;;
               reduce l' (obj_set key v' result)
           end) entries [] ;;
      retM (VObj reduced)
  | VNull =>
      let hierarchy := getContextHierarchy data contextHierarchy in
      throwM (TypeError null_to_object_message)
  | VUndefined | VBool _ | VNum _ => retM data
  end.

End Bindings.

(** ** Vocabulary of the statements *)

(** [n] backslashes. *)
Definition backslashes (n : nat) : str := repeat chr_backslash n.

(** The characters between the quotes of a literal inside a binding: any
    character but a quote or a backslash, or a backslash and the character
    it escapes. *)
Inductive QuotedChars : str -> Prop :=
| qc_nil : QuotedChars []
| qc_plain c s :
    none_of [chr_quote; chr_backslash] c = true ->
    QuotedChars s -> QuotedChars (c :: s)
| qc_escape c s :
    any_char c = true ->
    QuotedChars s -> QuotedChars (chr_backslash :: c :: s).

(** The expression of a binding token: quoted literals and characters other
    than a quote or a closing brace. *)
Inductive BindingBody : str -> Prop :=
| bb_nil : BindingBody []
| bb_plain c s :
    none_of [chr_quote; "}"%char] c = true ->
    BindingBody s -> BindingBody (c :: s)
| bb_quoted q s :
    QuotedChars q -> BindingBody s ->
    BindingBody (chr_quote :: q ++ chr_quote :: s).

(** Text in which no binding token can start. *)
Definition inert (c : ascii) : bool := none_of [chr_backslash; "@"%char] c.

(** The name of an operation: a word character, then identifier
    characters. *)
Definition is_operation_name (name : str) : bool :=
  match name with
  | c :: rest => is_word c && forallb is_ident_char rest
  | [] => false
  end.

(** The content of a quoted string with neither quote nor backslash. *)
Definition plain_quoted (q : str) : Prop :=
  forallb (none_of [chr_quote; chr_backslash]) q = true.

(** What stands between parentheses: characters other than parentheses,
    quotes and line terminators, quoted strings and nested groups. *)
Inductive Nested : str -> Prop :=
| ns_nil : Nested []
| ns_char c s :
    none_of ["("%char; ")"%char; chr_quote] c = true ->
    any_char c = true ->
    Nested s -> Nested (c :: s)
| ns_quoted q s :
    plain_quoted q -> Nested s ->
    Nested (chr_quote :: q ++ chr_quote :: s)
| ns_group g s :
    Nested g -> Nested s ->
    Nested ("("%char :: g ++ ")"%char :: s).

(** One parameter: characters other than commas, parentheses and quotes,
    quoted strings and groups in parentheses. *)
Inductive TopLevel : str -> Prop :=
| tl_nil : TopLevel []
| tl_char c s :
    none_of [","%char; "("%char; ")"%char; chr_quote] c = true ->
    TopLevel s -> TopLevel (c :: s)
| tl_quoted q s :
    plain_quoted q -> TopLevel s ->
    TopLevel (chr_quote :: q ++ chr_quote :: s)
| tl_group g s :
    Nested g -> TopLevel s ->
    TopLevel ("("%char :: g ++ ")"%char :: s).

(** Parameters written one after the other, a comma after each. *)
Definition comma_separated (ps : list str) : str :=
  concat (map (fun p => p ++ [","%char]) ps).

(** A run of one or more characters of a class. *)
Definition run_of (p : ascii -> bool) (s : str) : Prop :=
  s <> [] /\ forallb p s = true.

(** Indexes of a path: each an opening bracket, digits and a closing
    bracket. *)
Inductive Indexes : str -> Prop :=
| ix_nil : Indexes []
| ix_cons ds rest :
    run_of is_digit ds -> Indexes rest ->
    Indexes ("["%char :: ds ++ "]"%char :: rest).

(** The segments of a path after the first: each a dot, an identifier and
    its indexes. *)
Inductive Segments : str -> Prop :=
| sg_nil : Segments []
| sg_cons ident ixs rest :
    run_of is_ident_char ident -> Indexes ixs -> Segments rest ->
    Segments ("."%char :: ident ++ ixs ++ rest).

(** What may follow the indexes of a segment: nothing or a dot. *)
Definition path_stop (rest : str) : Prop :=
  match rest with
  | [] => True
  | c :: _ => c = "."%char
  end.

(** The grammar of a path: an identifier and its indexes, then segments. *)
Definition ValidPath (path : str) : Prop :=
  exists ident ixs rest,
    run_of is_ident_char ident /\ Indexes ixs /\ Segments rest
    /\ path = ident ++ ixs ++ rest.

(** An unsigned integer, or a decimal numeral with digits on both sides of
    the point. *)
Definition Numeral (s : str) : Prop :=
  exists ds,
    run_of is_digit ds
    /\ (s = ds \/ exists fs, run_of is_digit fs /\ s = ds ++ "."%char :: fs).

(** The context id a path starts with. *)
Fixpoint leading_identifier (path : str) : str :=
  match path with
  | c :: path' => if is_ident_char c then c :: leading_identifier path' else []
  | [] => []
  end.

(** Every backslash-quote pair replaced by a quote, from left to right. *)
Fixpoint unescape_quotes (s : str) : str :=
  match s with
  | [] => []
  | b :: s1 =>
      match s1 with
      | [] => [b]
      | q :: s2 =>
          if Ascii.eqb b chr_backslash && Ascii.eqb q chr_quote
          then chr_quote :: unescape_quotes s2
          else b :: unescape_quotes s1
      end
  end.

(** A string as a quoted literal writes it: a backslash before each
    quote. *)
Fixpoint escape_quotes (s : str) : str :=
  match s with
  | [] => []
  | c :: s' =>
      if Ascii.eqb c chr_quote
      then chr_backslash :: chr_quote :: escape_quotes s'
      else c :: escape_quotes s'
  end.

(** What follows the context id of a path, without the dot that may come
    first: the path handed to [lodash/get]. *)
Definition path_after_id (tail : str) : str :=
  match tail with
  | c :: t => if Ascii.eqb c "."%char then t else tail
  | [] => []
  end.

(** The characters a path is made of: identifier characters, the dot and the
    brackets. *)
Definition is_path_char (c : ascii) : bool :=
  is_ident_char c || negb (none_of ["."%char; "["%char; "]"%char] c).

(** The text of a call before its first opening parenthesis. *)
Fixpoint callee (s : str) : str :=
  match s with
  | [] => []
  | c :: s' => if Ascii.eqb c "("%char then [] else c :: callee s'
  end.

(** What the interpolator sees in a string, from left to right: a character
    of text, or a binding token with the [n] backslashes before it and its
    expression [e]. *)
Inductive segment : Type :=
| Chunk (c : ascii)
| Token (n : nat) (e : str).

(** The text of a token with [n] backslashes before it. *)
Definition token_text (n : nat) (e : str) : str :=
  backslashes n ++ lit "@{" ++ e ++ lit "}".

(** No token, with the backslashes before it, starts where [s] starts. *)
Definition no_token_at (s : str) : Prop :=
  forall n e post, BindingBody e -> s <> token_text n e ++ post.

(** The occurrences of bindings in a string, as [String.prototype.replace]
    finds them with a global pattern: from left to right, each token with
    the backslashes before it where one starts, and a character of text
    where none does. *)
Inductive Tokenised : str -> list segment -> Prop :=
| tk_nil : Tokenised [] []
| tk_chunk c s ps :
    no_token_at (c :: s) -> Tokenised s ps ->
    Tokenised (c :: s) (Chunk c :: ps)
| tk_token n e post ps :
    BindingBody e -> Tokenised post ps ->
    Tokenised (token_text n e ++ post) (Token n e :: ps).

(** The piece of [scan] a segment stands for. *)
Definition piece_of (p : segment) : piece (str * str) :=
  match p with
  | Chunk c => Text c
  | Token n e => Hit (token_text n e) (backslashes n, e)
  end.

Section Vocabulary.
Context {number : Type} {runtime : Runtime number}.

(** What [replaceBindings] does with one entry of an object. *)
Definition bind_entry (hierarchy : list (DataContext number)) (key : str)
           (v : jsval number) : M (jsval number) :=
  if list_includes ignore key then retM v else replaceBindings v hierarchy.

(** [items.map(f)] with a callback that may warn or throw. *)
Fixpoint mapM (f : jsval number -> M (jsval number))
         (items : list (jsval number)) : M (list (jsval number)) :=
  match items with
  | [] => retM []
  | item :: items' =>
      item' <~ f item ;; rest <~ mapM f items' ;; retM (item' :: rest)
  end.

(** The [reduce] of [replaceBindings] over the entries of an object. *)
Fixpoint reduceM (f : str -> jsval number -> M (jsval number))
         (entries result : list (str * jsval number))
  : M (list (str * jsval number)) :=
  match entries with
  | [] => retM result
  | (key, v) :: entries' =>
      v' <~ f key v ;; reduceM f entries' (obj_set key v' result)
  end.

(** What a resolved value becomes inside a string. *)
Definition stringified (v : jsval number) : str :=
  match typeof v with
  | TObject => JSON_stringify v
  | _ => ToString v
  end.

(** What one binding token preceded by [n] backslashes turns into, and the
    warnings it leaves. *)
Definition emitted (h : list (DataContext number)) (n : nat)
           (expression : str) : str * list error :=
  let verbatim := lit "@{" ++ expression ++ lit "}" in
  if Nat.odd n then (backslashes (n / 2) ++ verbatim, [])
  else
    match evaluateExpression expression h with
    | Ok v =>
        if is_undefined v then (backslashes n ++ verbatim, [])
        else (backslashes (n / 2) ++ stringified v, [])
    | Err e => (backslashes n ++ verbatim, [e])
    | OutOfSteps => (backslashes n ++ verbatim, [])
    end.

(** The general path of the interpolator: every binding token of [s]
    replaced, from left to right. *)
Definition interpolate (h : list (DataContext number)) (s : str) : M str :=
  replace_with (replaceBinding h) (pieces exec_bindingRegex true s).

(** What a segment turns into, and the warnings it leaves. *)
Definition rendered (h : list (DataContext number)) (p : segment)
  : str * list error :=
  match p with
  | Chunk c => ([c], [])
  | Token n e => emitted h n e
  end.

(** The text and the warnings of the segments of a string, in order. *)
Definition rendered_text (h : list (DataContext number))
           (ps : list segment) : str :=
  flat_map (fun p => fst (rendered h p)) ps.

Definition rendered_warnings (h : list (DataContext number))
           (ps : list segment) : list error :=
  flat_map (fun p => snd (rendered h p)) ps.

(** A tree in which the walk meets no [null]: the values under the keys of
    [ignore] are not looked at. *)
Fixpoint null_free (v : jsval number) : bool :=
  match v with
  | VNull => false
  | VArr items => forallb null_free items
  | VObj entries =>
      forallb (fun entry => list_includes ignore (fst entry)
                            || null_free (snd entry)) entries
  | VUndefined | VBool _ | VNum _ | VStr _ => true
  end.

(** A tree in which the walk meets neither [null] nor a string with the
    opening of a binding. *)
Fixpoint binding_free (v : jsval number) : bool :=
  match v with
  | VNull => false
  | VStr s => negb (includes s (lit "@{"))
  | VArr items => forallb binding_free items
  | VObj entries =>
      forallb (fun entry => list_includes ignore (fst entry)
                            || binding_free (snd entry)) entries
  | VUndefined | VBool _ | VNum _ => true
  end.

(** The keys of every object of a tree are distinct, as they are in every
    object of the language. *)
#[warnings="-register-all"] Inductive WellKeyed : jsval number -> Prop :=
| wk_undefined : WellKeyed VUndefined
| wk_null : WellKeyed VNull
| wk_bool b : WellKeyed (VBool b)
| wk_num n : WellKeyed (VNum n)
| wk_str s : WellKeyed (VStr s)
| wk_arr items : Forall WellKeyed items -> WellKeyed (VArr items)
| wk_obj entries :
    NoDup (map fst entries) ->
    Forall (fun entry => WellKeyed (snd entry)) entries ->
    WellKeyed (VObj entries).

(** How a walk ends: with a value when [ok], with a [TypeError]
    otherwise. *)
Definition walk_outcome (m : M (jsval number)) (ok : bool) : Prop :=
  if ok then exists v w, m = (Ok v, w)
  else exists message w, m = (Err (TypeError message), w).
End Vocabulary.

(** A runtime to run examples with: a number is kept as its numeral, paths
    into a context value resolve to nothing, and [sum] and [concat] are the
    only operations (they return their arguments as an array). *)
Definition numeral_runtime : Runtime str := {|
  parseFloat := fun s => s;
  Number_toString := fun n => n;
  Object_toString := fun _ => lit "[object Object]";
  JSON_stringify := fun _ => lit "{}";
  lodash_get := fun _ _ => VUndefined;
  operations := fun name =>
    if str_eqb name (lit "sum") || str_eqb name (lit "concat")
    then Some (fun args => VArr args) else None;
  getContextHierarchy := fun _ h => h
|}.

(** A context to run examples with. *)
Definition user_context : DataContext str :=
  {| id := lit "user"; value := VStr (lit "Ana") |}.

(** * Properties *)

(** ** The matcher *)

Lemma consumed_app (w rest : str) : consumed (w ++ rest) rest = w.
Proof.
  unfold consumed. rewrite length_app.
  replace (length w + length rest - length rest) with (length w) by lia.
  rewrite firstn_app, Nat.sub_diag, firstn_all. simpl. apply app_nil_r.
Qed.

Lemma consumed_length (s rest : str) : length (consumed s rest) <= length s.
Proof. unfold consumed. rewrite length_firstn. lia. Qed.

Lemma skipn_consumed (w rest : str) :
  skipn (length (consumed (w ++ rest) rest)) (w ++ rest) = rest.
Proof.
  rewrite consumed_app, skipn_app, skipn_all, Nat.sub_diag. reflexivity.
Qed.

Lemma Matches_suffix n0 r s rest :
  Matches n0 r s rest -> exists w, s = w ++ rest.
Proof.
  induction 1.
  - now exists [].
  - now exists [].
  - now exists [].
  - now exists [c].
  - destruct IHMatches1 as [w1 ->], IHMatches2 as [w2 ->].
    exists (w1 ++ w2). now rewrite app_assoc.
  - assumption.
  - assumption.
  - now exists [].
  - destruct IHMatches1 as [w1 ->], IHMatches2 as [w2 ->].
    exists (w1 ++ w2). now rewrite app_assoc.
Qed.

Lemma Matches_length n0 r s rest :
  Matches n0 r s rest -> length rest <= length s.
Proof.
  intros H. destruct (Matches_suffix H) as [w ->].
  rewrite length_app. lia.
Qed.

Section MatcherSound.
Variable A : Type.
Variable n0 : nat.

Lemma star_sound (a : regex) (step : str -> (str -> option A) -> option A) :
  (forall s k x, step s k = Some x ->
                 exists s', Matches n0 a s s' /\ k s' = Some x) ->
  forall fuel s k x,
    star step fuel s k = Some x ->
    exists s', Matches n0 (Star a) s s' /\ k s' = Some x.
Proof.
  intros Hstep. induction fuel as [|fuel IH]; intros s k x H; simpl in H.
  - exists s. split; [constructor | assumption].
  - destruct (step s _) as [y|] eqn:E.
    + injection H as ->. apply Hstep in E. destruct E as (s1 & Ha & Hk).
      destruct (length s1 <? length s) eqn:L; [|discriminate].
      apply Nat.ltb_lt in L. apply IH in Hk. destruct Hk as (s2 & Hs & Hk).
      exists s2. split; [|assumption]. eapply M_StarCons; eassumption.
    + exists s. split; [constructor | assumption].
Qed.

Lemma run_sound (r : regex) :
  forall s (k : str -> option A) x,
    run n0 r s k = Some x ->
    exists s', Matches n0 r s s' /\ k s' = Some x.
Proof.
  induction r as [| | |p|a IHa b IHb|a IHa b IHb|a IHa]; intros s k x H;
    simpl in H.
  - exists s. split; [constructor | assumption].
  - destruct (length s =? n0) eqn:E; [|discriminate].
    apply Nat.eqb_eq in E. exists s. split; [now constructor | assumption].
  - destruct s; [|discriminate]. exists []. split; [constructor | assumption].
  - destruct s as [|c s]; [discriminate|].
    destruct (p c) eqn:E; [|discriminate].
    exists s. split; [now constructor | assumption].
  - apply IHa in H. destruct H as (s1 & Ha & H).
    apply IHb in H. destruct H as (s2 & Hb & H).
    exists s2. split; [|assumption]. econstructor; eassumption.
  - destruct (run n0 a s k) as [y|] eqn:E.
    + injection H as ->. apply IHa in E. destruct E as (s1 & Ha & Hk).
      exists s1. split; [|assumption]. now apply M_AltL.
    + apply IHb in H. destruct H as (s1 & Hb & Hk).
      exists s1. split; [|assumption]. now apply M_AltR.
  - eapply star_sound; eassumption.
Qed.
End MatcherSound.

Lemma Matches_Cls_inv n0 p s rest :
  Matches n0 (Cls p) s rest -> exists c, s = c :: rest /\ p c = true.
Proof. inversion 1; subst. eauto. Qed.

Lemma Matches_Seq_inv n0 a b s rest :
  Matches n0 (Seq a b) s rest ->
  exists mid, Matches n0 a s mid /\ Matches n0 b mid rest.
Proof. inversion 1; subst. eauto. Qed.

Lemma Matches_Star_inv n0 a s rest :
  Matches n0 (Star a) s rest ->
  rest = s \/ exists s1, Matches n0 a s s1.
Proof. inversion 1; subst; eauto. Qed.

Lemma Matches_Star_Cls n0 p s rest :
  Matches n0 (Star (Cls p)) s rest ->
  exists w, s = w ++ rest /\ forallb p w = true.
Proof.
  intros H. remember (Star (Cls p)) as r eqn:Hr.
  induction H; try discriminate.
  - now exists [].
  - injection Hr as ->. specialize (IHMatches2 eq_refl).
    destruct IHMatches2 as (w & -> & Hw).
    apply Matches_Cls_inv in H. destruct H as (c & -> & Hc).
    exists (c :: w). split; [reflexivity|]. simpl. now rewrite Hc, Hw.
Qed.

Lemma Matches_Chr_head n0 c a s rest :
  Matches n0 (Seq (Chr c) a) s rest -> exists t, s = c :: t.
Proof.
  intros H. apply Matches_Seq_inv in H. destruct H as (mid & H & _).
  apply Matches_Cls_inv in H. destruct H as (d & -> & Hd).
  apply Ascii.eqb_eq in Hd. subst d. eauto.
Qed.

Lemma Matches_Alt_inv n0 a b s rest :
  Matches n0 (Alt a b) s rest -> Matches n0 a s rest \/ Matches n0 b s rest.
Proof. inversion 1; subst; auto. Qed.

Lemma Matches_Eos_inv n0 s rest : Matches n0 Eos s rest -> s = [] /\ rest = [].
Proof. inversion 1; auto. Qed.

Lemma exec_prefix_sound n0 r s rest :
  exec_prefix n0 r s = Some rest -> Matches n0 r s rest.
Proof.
  unfold exec_prefix. intros H. apply run_sound in H.
  destruct H as (s' & Hm & Hk). now injection Hk as <-.
Qed.

(** ** Strings *)

Lemma str_eqb_eq (a b : str) : str_eqb a b = true <-> a = b.
Proof.
  revert b. induction a as [|x a IH]; destruct b as [|y b]; simpl;
    try (split; [discriminate | discriminate]); try tauto.
  rewrite andb_true_iff, Ascii.eqb_eq, IH.
  split; [intros [-> ->]; reflexivity | intros H; injection H; auto].
Qed.

Lemma str_eqb_refl (a : str) : str_eqb a a = true.
Proof. now apply str_eqb_eq. Qed.

Lemma startsWith_nil (s : str) : startsWith s [] = true.
Proof. now destruct s. Qed.

Lemma startsWith_prefix (s p : str) :
  startsWith s p = true -> exists rest, s = p ++ rest.
Proof.
  revert s. induction p as [|c p IH]; intros s H; simpl in H.
  - now exists s.
  - destruct s as [|d s]; [discriminate|].
    apply andb_true_iff in H. destruct H as [Hc Hp].
    apply Ascii.eqb_eq in Hc. subst d.
    destruct (IH _ Hp) as [rest ->]. now exists rest.
Qed.

Lemma trimStart_length (s : str) : length (trimStart s) <= length s.
Proof.
  induction s as [|c s IH]; simpl; [lia|].
  destruct (is_space c); simpl; lia.
Qed.

Lemma trim_length (s : str) : length (trim s) <= length s.
Proof.
  unfold trim, trimEnd. rewrite length_rev.
  etransitivity; [apply trimStart_length|].
  rewrite length_rev. apply trimStart_length.
Qed.

(** ** The automaton *)

Lemma try_read_prefix (remaining : str) (p : option pattern) (matched : str) :
  try_read remaining p = Some matched ->
  exists rest, remaining = matched ++ rest.
Proof.
  destruct p as [[s|r]|]; simpl.
  - destruct (startsWith remaining s) eqn:E; [|discriminate].
    intros H. injection H as <-. now apply startsWith_prefix.
  - destruct (exec_prefix (length remaining) r remaining) as [rest|] eqn:E;
      [|discriminate].
    intros H. injection H as <-.
    apply exec_prefix_sound, Matches_suffix in E. destruct E as [w ->].
    exists rest. now rewrite consumed_app.
  - intros H. injection H as <-. now exists remaining.
Qed.

Lemma find_transition_some (State : Type) (stack : list str) (remaining : str)
      (rules : list (transition State)) t matched :
  find_transition stack remaining rules = Some (t, matched) ->
  In t rules /\ pop_ok stack (pop t) = true
  /\ try_read remaining (read t) = Some matched.
Proof.
  induction rules as [|t0 rules IH]; simpl; [discriminate|].
  destruct (pop_ok stack (pop t0)) eqn:P.
  - destruct (try_read remaining (read t0)) as [m0|] eqn:R.
    + intros H. injection H as <- <-. auto.
    + intros H. apply IH in H. tauto.
  - intros H. apply IH in H. tauto.
Qed.

Section DPAFacts.
Variable State : Type.
Variable state_eqb : State -> State -> bool.
Variables start stop : State.
Variable transitions : State -> list (transition State).

Lemma steps_rest_length fuel :
  forall state stack remaining rest,
    steps state_eqb stop transitions fuel state stack remaining
    = Some (Some rest) ->
    length rest <= length remaining.
Proof.
  induction fuel as [|fuel IH]; intros state stack remaining rest; simpl;
    destruct (state_eqb state stop).
  - intros H. injection H as <-. lia.
  - discriminate.
  - intros H. injection H as <-. lia.
  - destruct (find_transition stack remaining (transitions state))
      as [[t matched]|]; [|discriminate].
    intros H. apply IH in H. rewrite length_skipn in H. lia.
Qed.

Lemma dpa_match_length fuel input m :
  dpa_match state_eqb start stop transitions fuel input = Matched m ->
  length m <= length input.
Proof.
  unfold dpa_match.
  destruct (steps state_eqb stop transitions fuel start [] input)
    as [[rest|]|]; try discriminate.
  intros H. injection H as <-. apply consumed_length.
Qed.
End DPAFacts.

(** ** The parameter automaton always stops *)



Lemma param_string_consumes n0 s rest :
  Matches n0 param_string_regex s rest -> length rest < length s.
Proof.
  intros H. apply Matches_Seq_inv in H. destruct H as (mid & H1 & H2).
  apply Matches_Cls_inv in H1. destruct H1 as (c & -> & _).
  apply Matches_length in H2. simpl. lia.
Qed.


Lemma try_read_re_consumes (remaining : str) (r : regex) (matched : str) :
  (forall rest, Matches (length remaining) r remaining rest ->
                length rest < length remaining) ->
  try_read remaining (Some (ReadRe r)) = Some matched ->
  length (skipn (length matched) remaining) < length remaining.
Proof.
  intros Hr. simpl.
  destruct (exec_prefix (length remaining) r remaining) as [rest|] eqn:E;
    [|discriminate].
  intros H. injection H as <-.
  apply exec_prefix_sound in E. pose proof (Hr _ E) as L.
  destruct (Matches_suffix E) as [w ->].
  rewrite skipn_consumed. exact L.
Qed.

Lemma try_read_str_consumes (remaining : str) (c : ascii) (matched : str) :
  try_read remaining (Some (ReadStr [c])) = Some matched ->
  length (skipn (length matched) remaining) < length remaining.
Proof.
  simpl. destruct (startsWith remaining [c]) eqn:E; [|discriminate].
  intros H. injection H as <-.
  apply startsWith_prefix in E. destruct E as [rest ->]. simpl. lia.
Qed.

Lemma param_steps_terminate fuel :
  forall state stack remaining,
    param_weight state + 2 * length remaining <= fuel ->
    steps param_state_eqb final param_transitions fuel state stack remaining
    <> None.
Proof.
  induction fuel as [|fuel IH]; intros state stack remaining Hfuel.
  - destruct state; simpl in *; try lia. discriminate.
  - simpl. destruct (param_state_eqb state final) eqn:Efinal; [discriminate|].
    destruct (find_transition stack remaining (param_transitions state))
      as [[t matched]|] eqn:F; [|discriminate].
    apply IH. apply find_transition_some in F. destruct F as (Hin & _ & Hread).
    destruct state; simpl in Hin, Hfuel;
      repeat (destruct Hin as [<- | Hin];
              [unfold rule in Hread |- *;
               cbn [read next param_weight Nat.mul Nat.add] in Hread |- * | ]);
      try contradiction.
    + pose proof (length_skipn (length matched) remaining). lia.
    + apply try_read_str_consumes in Hread. lia.
    + apply try_read_re_consumes in Hread;
        [lia | intros rest; apply param_string_consumes].
    + apply try_read_re_consumes in Hread; [lia|].
      intros rest Hm. apply Matches_Cls_inv in Hm.
      destruct Hm as (c & -> & _). simpl. lia.
    + apply try_read_str_consumes in Hread. lia.
    + apply try_read_str_consumes in Hread. lia.
    + apply try_read_re_consumes in Hread;
        [lia | intros rest; apply param_string_consumes].
    + apply try_read_re_consumes in Hread; [lia|].
      intros rest Hm. apply Matches_Cls_inv in Hm.
      destruct Hm as (c & -> & _). simpl. lia.
    + injection Hread as <-. simpl. lia.
    + injection Hread as <-. simpl. lia.
Qed.

Lemma param_match_terminates (input : str) : param_match input <> OutOfFuel.
Proof.
  unfold param_match, dpa_match.
  pose proof (@param_steps_terminate (2 * length input + 2) initial [] input)
    as H.
  destruct (steps param_state_eqb final param_transitions
                  (2 * length input + 2) initial [] input) as [[rest|]|];
    try discriminate.
  exfalso. apply H; [simpl; lia | reflexivity].
Qed.

Lemma param_match_length (input m : str) :
  param_match input = Matched m -> length m <= length input.
Proof. apply dpa_match_length. Qed.

(** ** [parseParameters] always finishes *)

Lemma scan_erase_length (G : Type) (exec : nat -> str -> option (G * str))
      (global : bool) (n0 : nat) (s : str) :
  forall skip live,
    length (flat_map (fun p : piece G => match p with
                                         | Text c => [c]
                                         | Hit _ _ => []
                                         end)
                     (scan exec global n0 skip live s)) <= length s.
Proof.
  induction s as [|c s IH]; intros skip live.
  - destruct skip; simpl; [|lia].
    destruct (if live then exec n0 [] else None) as [[g rest]|]; simpl; lia.
  - destruct skip as [|skip].
    + cbn [scan].
      destruct (if live then exec n0 (c :: s) else None) as [[g rest]|].
      * cbn [flat_map app].
        destruct (length (c :: s) - length rest =? 0).
        -- cbn [flat_map app length]. apply le_n_S, IH.
        -- etransitivity; [apply IH | simpl; lia].
      * cbn [flat_map app length]. apply le_n_S, IH.
    + cbn [scan]. etransitivity; [apply IH | simpl; lia].
Qed.

Lemma replace_erase_length (r : regex) (global : bool) (s : str) :
  length (replace r global [] s) <= length s.
Proof. apply scan_erase_length. Qed.

Lemma parseParameters_loop_terminates (s : str) (fuel : nat) :
  forall position parameters,
    length s <= fuel + position ->
    parseParameters_loop s fuel position parameters <> OutOfSteps.
Proof.
  induction fuel as [|fuel IH]; intros position parameters Hfuel; simpl.
  - destruct (position <? length s) eqn:E; [|discriminate].
    apply Nat.ltb_lt in E. lia.
  - destruct (position <? length s); [|discriminate].
    destruct (param_match (skipn position s)) as [[|c m]| |] eqn:E;
      try discriminate.
    + apply IH. simpl. lia.
    + now apply param_match_terminates in E.
Qed.

Lemma parseParameters_loop_lengths (s : str) (fuel : nat) :
  forall position parameters params,
    Forall (fun p => length p <= length s) parameters ->
    parseParameters_loop s fuel position parameters = Ok params ->
    Forall (fun p => length p <= length s) params.
Proof.
  induction fuel as [|fuel IH]; intros position parameters params Hacc; simpl.
  - destruct (position <? length s); [discriminate|].
    intros H. now injection H as <-.
  - destruct (position <? length s); [|intros H; now injection H as <-].
    destruct (param_match (skipn position s)) as [[|c m]| |] eqn:E;
      try discriminate.
    apply IH. apply Forall_app. split; [assumption|].
    constructor; [|constructor].
    apply param_match_length in E. rewrite length_skipn in E.
    pose proof (trim_length (replace trailing_comma_regex false [] (c :: m))).
    pose proof (replace_erase_length trailing_comma_regex false (c :: m)).
    lia.
Qed.

Lemma parseParameters_terminates (s : str) : parseParameters s <> OutOfSteps.
Proof. apply parseParameters_loop_terminates. lia. Qed.

Lemma parseParameters_lengths (s : str) (params : list str) :
  parseParameters s = Ok params ->
  Forall (fun p => length p <= length s) params.
Proof. apply parseParameters_loop_lengths. constructor. Qed.

(** ** [evaluateExpression] always finishes *)

Ltac run_inv H :=
  repeat (apply run_sound in H;
          let s := fresh "s" in
          let Hm := fresh "Hm" in
          destruct H as (s & Hm & H)).

Lemma match_operationRegex_length (s name params : str) :
  match_operationRegex s = Some (name, params) ->
  length params + 2 <= length s.
Proof.
  unfold match_operationRegex. intros H. run_inv H.
  injection H as _ <-.
  inversion Hm; subst.
  apply Matches_Seq_inv in Hm0. destruct Hm0 as (mid & Hw & Hrest).
  apply Matches_Cls_inv in Hw. destruct Hw as (c & -> & _).
  apply Matches_length in Hrest.
  apply Matches_Cls_inv in Hm1. destruct Hm1 as (c1 & -> & _).
  pose proof (consumed_length s2 s3). simpl in *. lia.
Qed.

Lemma mapR_ext (A B : Type) (f g : A -> result B) (l : list A) :
  Forall (fun x => f x = g x) l -> mapR f l = mapR g l.
Proof.
  induction 1 as [|x l Hx _ IH]; simpl; [reflexivity|].
  rewrite Hx, IH. reflexivity.
Qed.

Lemma mapR_terminates (A B : Type) (f : A -> result B) (l : list A) :
  Forall (fun x => f x <> OutOfSteps) l -> mapR f l <> OutOfSteps.
Proof.
  induction 1 as [|x l Hx _ IH]; simpl; [discriminate|].
  destruct (f x); simpl; try congruence.
  destruct (mapR f l); simpl; congruence.
Qed.

Section EvaluationFacts.
Context {number : Type} {runtime : Runtime number}.

Lemma getBindingValue_terminates (path : str)
      (h : list (DataContext number)) :
  getBindingValue path h <> OutOfSteps.
Proof.
  unfold getBindingValue.
  destruct (negb (test path_regex path)); [discriminate|].
  destruct (match_pathRegex path) as [[contextId contextPath]|];
    [|discriminate].
  destruct (getContextInHierarchy h contextId); discriminate.
Qed.

(** The parameters of a call that parses are shorter than the call. *)
Lemma operation_params_shorter (operation name paramString : str)
      (params : list str) :
  match_operationRegex operation = Some (name, paramString) ->
  parseParameters paramString = Ok params ->
  Forall (fun p => length p + 2 <= length operation) params.
Proof.
  intros Hop Hparams.
  apply match_operationRegex_length in Hop.
  apply parseParameters_lengths in Hparams.
  eapply Forall_impl; [|exact Hparams]. simpl. intros p Hp. lia.
Qed.

Lemma evaluateExpression_fuel_stable (n : nat) :
  forall m expression (h : list (DataContext number)),
    length expression < n -> length expression < m ->
    evaluateExpression_fuel n expression h
    = evaluateExpression_fuel m expression h.
Proof.
  induction n as [|n IH]; intros m expression h Hn Hm; [lia|].
  destruct m as [|m]; [lia|]. cbn [evaluateExpression_fuel].
  destruct (negb (is_undefined (getLiteralValue expression))); [reflexivity|].
  destruct (includes expression (lit "(")); [|reflexivity].
  unfold getOperationValue_with.
  destruct (match_operationRegex expression) as [[name paramString]|] eqn:Hop;
    [|reflexivity].
  destruct (operations name) as [fn|]; [|reflexivity].
  destruct (parseParameters paramString) as [params| |] eqn:Hparams;
    try reflexivity.
  simpl. erewrite mapR_ext; [reflexivity|].
  eapply Forall_impl; [|exact (operation_params_shorter _ Hop Hparams)].
  simpl. intros p Hp. apply IH; lia.
Qed.

Lemma evaluateExpression_fuel_terminates (n : nat) :
  forall expression (h : list (DataContext number)),
    length expression < n ->
    evaluateExpression_fuel n expression h <> OutOfSteps.
Proof.
  induction n as [|n IH]; intros expression h Hn; [lia|].
  cbn [evaluateExpression_fuel].
  destruct (negb (is_undefined (getLiteralValue expression))); [discriminate|].
  destruct (includes expression (lit "("));
    [|apply getBindingValue_terminates].
  unfold getOperationValue_with.
  destruct (match_operationRegex expression) as [[name paramString]|] eqn:Hop;
    [|discriminate].
  destruct (operations name) as [fn|]; [|discriminate].
  destruct (parseParameters paramString) as [params| |] eqn:Hparams;
    try discriminate.
  - simpl.
    pose proof (@mapR_terminates _ _
                  (fun param => evaluateExpression_fuel n param h) params) as T.
    destruct (mapR _ params); simpl; try discriminate.
    exfalso. apply T; [|reflexivity].
    eapply Forall_impl; [|exact (operation_params_shorter _ Hop Hparams)].
    simpl. intros p Hp. apply IH. lia.
  - now apply parseParameters_terminates in Hparams.
Qed.

Lemma evaluateExpression_terminates (expression : str)
      (h : list (DataContext number)) :
  evaluateExpression expression h <> OutOfSteps.
Proof. apply evaluateExpression_fuel_terminates. lia. Qed.

(** The equation of the source: with enough fuel, the evaluator calls
    itself on the parameters. *)
Lemma evaluateExpression_unfold (expression : str)
      (h : list (DataContext number)) :
  evaluateExpression expression h
  = let literalValue := getLiteralValue expression in
    if negb (is_undefined literalValue) then Ok literalValue
    else if includes expression (lit "(") then getOperationValue expression h
         else getBindingValue expression h.
Proof.
  unfold evaluateExpression at 1. cbn [evaluateExpression_fuel].
  destruct (negb (is_undefined (getLiteralValue expression))); [reflexivity|].
  destruct (includes expression (lit "(")); [|reflexivity].
  unfold getOperationValue, getOperationValue_with.
  destruct (match_operationRegex expression) as [[name paramString]|] eqn:Hop;
    [|reflexivity].
  destruct (operations name) as [fn|]; [|reflexivity].
  destruct (parseParameters paramString) as [params| |] eqn:Hparams;
    try reflexivity.
  simpl. erewrite mapR_ext; [reflexivity|].
  eapply Forall_impl; [|exact (operation_params_shorter _ Hop Hparams)].
  simpl. intros p Hp. unfold evaluateExpression.
  apply evaluateExpression_fuel_stable; lia.
Qed.
End EvaluationFacts.

(** ** Greedy matching where the first choice succeeds *)

Ltac shorter :=
  rewrite (proj2 (Nat.ltb_lt _ _))
    by (simpl; rewrite ?length_app; simpl; rewrite ?length_app; simpl; lia).

Section FirstChoice.
Variable A : Type.
Variable n0 : nat.

Lemma run_Seq (a b : regex) (s : str) (k : str -> option A) :
  run n0 (Seq a b) s k = run n0 a s (fun s' => run n0 b s' k).
Proof. reflexivity. Qed.

Lemma run_Star (a : regex) (s : str) (k : str -> option A) :
  run n0 (Star a) s k = star (run n0 a) (length s) s k.
Proof. reflexivity. Qed.

Lemma run_Alt_left (a b : regex) (s : str) (k : str -> option A) (x : A) :
  run n0 a s k = Some x -> run n0 (Alt a b) s k = Some x.
Proof. intros H. simpl. now rewrite H. Qed.

Lemma run_Alt_right (a b : regex) (s : str) (k : str -> option A) :
  run n0 a s k = None -> run n0 (Alt a b) s k = run n0 b s k.
Proof. intros H. simpl. now rewrite H. Qed.

Lemma run_Alt_none (a b : regex) (s : str) (k : str -> option A) :
  run n0 (Alt a b) s k = None -> run n0 b s k = None.
Proof. simpl. destruct (run n0 a s k); [discriminate | auto]. Qed.

Lemma run_Bos (s : str) (k : str -> option A) :
  length s = n0 -> run n0 Bos s k = k s.
Proof. intros H. simpl. apply Nat.eqb_eq in H. now rewrite H. Qed.

Lemma run_Lit (l s : str) (k : str -> option A) :
  run n0 (Lit l) (l ++ s) k = k s.
Proof.
  revert k. induction l as [|c l IH]; intros k; simpl; [reflexivity|].
  rewrite Ascii.eqb_refl. apply IH.
Qed.

Lemma run_Chr_eq (c : ascii) (s : str) (k : str -> option A) :
  run n0 (Chr c) (c :: s) k = k s.
Proof. simpl. now rewrite Ascii.eqb_refl. Qed.

Lemma run_Cls_head (p : ascii -> bool) (c : ascii) (s : str)
      (k : str -> option A) :
  run n0 (Cls p) (c :: s) k = if p c then k s else None.
Proof. reflexivity. Qed.

Lemma star_step_some (step : str -> (str -> option A) -> option A)
      (fuel : nat) (s : str) (k : str -> option A) (x : A) :
  step s (fun s' => if length s' <? length s then star step fuel s' k
                    else None) = Some x ->
  star step (S fuel) s k = Some x.
Proof. intros H. simpl. now rewrite H. Qed.

Lemma star_stop (step : str -> (str -> option A) -> option A)
      (fuel : nat) (s : str) (k : str -> option A) :
  (forall k', step s k' = None) -> star step fuel s k = k s.
Proof.
  intros H. destruct fuel as [|fuel]; [reflexivity|]. simpl. now rewrite H.
Qed.



Lemma star_Cls_stop (p : ascii -> bool) (rest : str) (k : str -> option A)
      (fuel : nat) :
  stops p rest -> star (run n0 (Cls p)) fuel rest k = k rest.
Proof.
  intros Hstop. apply star_stop. intros k'.
  destruct rest as [|c rest]; [reflexivity|].
  simpl in Hstop. now rewrite run_Cls_head, Hstop.
Qed.

Lemma star_Cls_greedy (p : ascii -> bool) (w rest : str)
      (k : str -> option A) (x : A) :
  forallb p w = true -> stops p rest -> k rest = Some x ->
  forall fuel, length (w ++ rest) <= fuel ->
               star (run n0 (Cls p)) fuel (w ++ rest) k = Some x.
Proof.
  intros Hw Hstop Hk. induction w as [|c w IH]; intros fuel Hfuel.
  - cbn [app]. now rewrite star_Cls_stop.
  - simpl in Hw. apply andb_true_iff in Hw. destruct Hw as [Hc Hw].
    destruct fuel as [|fuel]; [simpl in Hfuel; lia|].
    cbn [app]. apply star_step_some.
    rewrite run_Cls_head, Hc. shorter.
    apply IH; [assumption | simpl in Hfuel; lia].
Qed.

Lemma quoted_chars_first (q : str) :
  QuotedChars q ->
  forall rest (k : str -> option A) x fuel,
    length (q ++ chr_quote :: rest) <= fuel ->
    k (chr_quote :: rest) = Some x ->
    star (run n0 (Alt (Cls (none_of [chr_quote; chr_backslash]))
                      (Seq (Chr chr_backslash) Dot)))
         fuel (q ++ chr_quote :: rest) k = Some x.
Proof.
  induction 1 as [|c s Hc Hs IH|c s Hc Hs IH];
    intros rest k x fuel Hfuel Hk.
  - cbn [app]. rewrite star_stop; [exact Hk|]. intros k'. reflexivity.
  - destruct fuel as [|fuel]; [simpl in Hfuel; lia|].
    cbn [app]. apply star_step_some, run_Alt_left.
    rewrite run_Cls_head, Hc. shorter.
    apply IH; [simpl in Hfuel; lia | exact Hk].
  - destruct fuel as [|fuel]; [simpl in Hfuel; lia|].
    cbn [app]. apply star_step_some.
    rewrite run_Alt_right by reflexivity.
    rewrite run_Seq, run_Chr_eq. unfold Dot. rewrite run_Cls_head, Hc.
    shorter.
    apply IH; [simpl in Hfuel; lia | exact Hk].
Qed.

Lemma binding_quoted_first (q rest : str) (k : str -> option A) (x : A) :
  QuotedChars q -> k rest = Some x ->
  run n0 binding_quoted (chr_quote :: q ++ chr_quote :: rest) k = Some x.
Proof.
  intros Hq Hk. unfold binding_quoted.
  rewrite run_Seq, run_Chr_eq, run_Seq, run_Star.
  apply quoted_chars_first; [exact Hq | lia |].
  now rewrite run_Chr_eq.
Qed.

Lemma binding_body_first (e : str) :
  BindingBody e ->
  forall rest (k : str -> option A) x fuel,
    length (e ++ "}"%char :: rest) <= fuel ->
    k ("}"%char :: rest) = Some x ->
    star (run n0 (Alt (Cls (none_of [chr_quote; "}"%char])) binding_quoted))
         fuel (e ++ "}"%char :: rest) k = Some x.
Proof.
  induction 1 as [|c s Hc Hs IH|q s Hq Hs IH]; intros rest k x fuel Hfuel Hk.
  - cbn [app]. rewrite star_stop; [exact Hk|]. intros k'. reflexivity.
  - destruct fuel as [|fuel]; [simpl in Hfuel; lia|].
    cbn [app]. apply star_step_some, run_Alt_left.
    rewrite run_Cls_head, Hc. shorter.
    apply IH; [simpl in Hfuel; lia | exact Hk].
  - destruct fuel as [|fuel]; [simpl in Hfuel; lia|].
    replace ((chr_quote :: q ++ chr_quote :: s) ++ "}"%char :: rest)
      with (chr_quote :: q ++ chr_quote :: (s ++ "}"%char :: rest))
      in * by (simpl; now rewrite <- app_assoc).
    apply star_step_some.
    rewrite run_Alt_right by reflexivity.
    apply binding_quoted_first; [exact Hq|].
    shorter.
    apply IH; [|exact Hk].
    simpl in Hfuel. rewrite !length_app in *. simpl in *.
    rewrite !length_app in *. simpl in *. lia.
Qed.
End FirstChoice.

(** ** Patterns without [^] do not depend on the position *)

Section Position.
Variable A : Type.

Lemma star_position (step1 step2 : str -> (str -> option A) -> option A) :
  (forall s k k', (forall s', k s' = k' s') -> step1 s k = step2 s k') ->
  forall fuel s k k',
    (forall s', k s' = k' s') ->
    star step1 fuel s k = star step2 fuel s k'.
Proof.
  intros Hstep. induction fuel as [|fuel IH]; intros s k k' Hk; simpl.
  - apply Hk.
  - rewrite (Hstep s _ (fun s' => if length s' <? length s
                                  then star step2 fuel s' k' else None)).
    + now rewrite Hk.
    + intros s'. destruct (length s' <? length s); [now apply IH | reflexivity].
Qed.

Lemma run_position (n0 n1 : nat) (r : regex) :
  anchor_free r = true ->
  forall s (k k' : str -> option A),
    (forall s', k s' = k' s') -> run n0 r s k = run n1 r s k'.
Proof.
  induction r as [| | |p|a IHa b IHb|a IHa b IHb|a IHa]; intros Hfree s k k' Hk;
    simpl in Hfree |- *; try discriminate.
  - apply Hk.
  - destruct s; [apply Hk | reflexivity].
  - destruct s as [|c s]; [reflexivity|]. now rewrite Hk.
  - apply andb_true_iff in Hfree. destruct Hfree as [Ha Hb].
    apply IHa; [assumption|]. intros s'. now apply IHb.
  - apply andb_true_iff in Hfree. destruct Hfree as [Ha Hb].
    rewrite (IHa Ha s k k' Hk), (IHb Hb s k k' Hk). reflexivity.
  - apply star_position; [|assumption].
    intros s0 k0 k0' Hk0. now apply IHa.
Qed.
End Position.

Lemma exec_bindingRegex_position (n0 n1 : nat) (s : str) :
  exec_bindingRegex n0 s = exec_bindingRegex n1 s.
Proof.
  unfold exec_bindingRegex.
  apply run_position; [reflexivity|]. intros s1.
  apply run_position; [reflexivity|]. intros s2.
  apply run_position; [reflexivity|]. intros s3.
  apply run_position; [reflexivity|]. intros s4. reflexivity.
Qed.

(** ** Walking the input of [replace] *)

Section ScanFacts.
Variable G : Type.
Variable exec : nat -> str -> option (G * str).
Variable global : bool.

Lemma scan_position (n0 n1 : nat) :
  (forall s, exec n0 s = exec n1 s) ->
  forall s skip live,
    scan exec global n0 skip live s = scan exec global n1 skip live s.
Proof.
  intros Hexec. induction s as [|c s IH]; intros skip live.
  - destruct skip; simpl; [|reflexivity]. now rewrite Hexec.
  - destruct skip as [|skip]; cbn [scan]; [|apply IH].
    rewrite Hexec.
    destruct (if live then exec n1 (c :: s) else None) as [[g rest]|].
    + destruct (length (c :: s) - length rest =? 0); now rewrite IH.
    + now rewrite IH.
Qed.

Lemma scan_skip (n0 : nat) (live : bool) :
  forall skip s,
    skip <= length s ->
    scan exec global n0 skip live s
    = scan exec global n0 0 live (skipn skip s).
Proof.
  induction skip as [|skip IH]; intros s Hskip; [reflexivity|].
  destruct s as [|c s]; [simpl in Hskip; lia|].
  cbn [scan skipn]. apply IH. simpl in Hskip. lia.
Qed.

(** A match that consumes [w] is followed by the walk of what is left. *)
Lemma scan_hit (n0 : nat) (w rest : str) (g : G) :
  w <> [] ->
  exec n0 (w ++ rest) = Some (g, rest) ->
  scan exec global n0 0 true (w ++ rest)
  = Hit w g :: scan exec global n0 0 global rest.
Proof.
  intros Hw Hexec. destruct w as [|c w]; [contradiction|].
  cbn [scan app]. cbn [app] in Hexec. rewrite Hexec.
  replace (length (c :: w ++ rest) - length rest) with (S (length w))
    by (cbn [length]; rewrite length_app; lia).
  cbn [Nat.eqb firstn]. rewrite firstn_app, firstn_all, Nat.sub_diag.
  cbn [firstn]. rewrite app_nil_r.
  rewrite scan_skip by (rewrite length_app; lia).
  replace (S (length w) - 1) with (length w) by lia.
  rewrite skipn_app, skipn_all, Nat.sub_diag. reflexivity.
Qed.

(** Where the pattern does not match, the character is copied. *)
Lemma scan_miss (n0 : nat) (c : ascii) (s : str) :
  exec n0 (c :: s) = None ->
  scan exec global n0 0 true (c :: s)
  = Text c :: scan exec global n0 0 true s.
Proof. intros Hexec. cbn [scan]. now rewrite Hexec. Qed.
End ScanFacts.

(** ** Backslashes before a binding *)

Lemma backslashes_length (n : nat) : length (backslashes n) = n.
Proof. apply repeat_length. Qed.

Lemma forallb_backslashes (n : nat) :
  forallb (Ascii.eqb chr_backslash) (backslashes n) = true.
Proof. induction n as [|n IH]; simpl; [reflexivity | exact IH]. Qed.


Lemma replace_unfold (r : regex) (global : bool) (replacement s : str) :
  replace r global replacement s
  = flat_map (copy_or replacement)
             (scan (exec_of r) global (length s) 0 true s).
Proof. reflexivity. Qed.

Lemma halve_backslashes_scan (n0 m : nat) :
  flat_map (copy_or [chr_backslash])
           (scan (exec_of two_backslashes_regex) true n0 0 true
                 (backslashes (2 * m)))
  = backslashes m
  /\ flat_map (copy_or [chr_backslash])
              (scan (exec_of two_backslashes_regex) true n0 0 true
                    (backslashes (S (2 * m))))
     = backslashes (S m).
Proof.
  induction m as [|m [IHeven IHodd]]; [split; reflexivity|].
  replace (2 * S m) with (S (S (2 * m))) by lia.
  split.
  - change (backslashes (S (S (2 * m))))
      with ([chr_backslash; chr_backslash] ++ backslashes (2 * m)).
    rewrite (@scan_hit _ _ _ n0 [chr_backslash; chr_backslash] _ tt);
      [|discriminate|reflexivity].
    cbn [flat_map copy_or app]. now rewrite IHeven.
  - change (backslashes (S (S (S (2 * m)))))
      with ([chr_backslash; chr_backslash] ++ backslashes (S (2 * m))).
    rewrite (@scan_hit _ _ _ n0 [chr_backslash; chr_backslash] _ tt);
      [|discriminate|reflexivity].
    cbn [flat_map copy_or app]. now rewrite IHodd.
Qed.

Lemma halve_backslashes_even (m : nat) :
  replace two_backslashes_regex true [chr_backslash] (backslashes (2 * m))
  = backslashes m.
Proof. rewrite replace_unfold. apply halve_backslashes_scan. Qed.

Lemma halve_backslashes_odd (m : nat) :
  replace two_backslashes_regex true [chr_backslash]
          (backslashes (S (2 * m)))
  = backslashes (S m).
Proof. rewrite replace_unfold. apply halve_backslashes_scan. Qed.

Lemma drop_trailing_backslash_scan (n0 k : nat) :
  flat_map (copy_or [])
           (scan (exec_of trailing_backslash_regex) false n0 0 true
                 (backslashes (S k)))
  = backslashes k.
Proof.
  induction k as [|k IH]; [reflexivity|].
  change (backslashes (S (S k))) with (chr_backslash :: backslashes (S k)).
  rewrite scan_miss by reflexivity.
  cbn [flat_map copy_or app]. now rewrite IH.
Qed.

Lemma drop_trailing_backslash (k : nat) :
  replace trailing_backslash_regex false [] (backslashes (S k))
  = backslashes k.
Proof. rewrite replace_unfold. apply drop_trailing_backslash_scan. Qed.

Lemma odd_mod2 (n : nat) : (n mod 2 =? 1) = Nat.odd n.
Proof. now rewrite <- Nat.bit0_eqb, Nat.bit0_odd. Qed.

Lemma odd_half (n : nat) : Nat.odd n = true -> n = S (2 * (n / 2)).
Proof.
  intros H. rewrite <- odd_mod2 in H. apply Nat.eqb_eq in H.
  pose proof (Nat.div_mod_eq n 2). lia.
Qed.

Lemma even_half (n : nat) : Nat.odd n = false -> n = 2 * (n / 2).
Proof.
  intros H. rewrite <- odd_mod2 in H. apply Nat.eqb_neq in H.
  pose proof (Nat.div_mod_eq n 2).
  pose proof (Nat.mod_upper_bound n 2). lia.
Qed.

(** ** Binding tokens *)

Lemma match_fullBindingRegex_token (e : str) :
  BindingBody e ->
  match_fullBindingRegex (lit "@{" ++ e ++ lit "}") = Some e.
Proof.
  intros He. unfold match_fullBindingRegex.
  rewrite run_Bos by reflexivity. rewrite run_Lit.
  unfold binding_body. rewrite run_Star.
  apply binding_body_first; [exact He | apply le_n |].
  rewrite run_Chr_eq. cbn [run]. f_equal.
  apply (consumed_app e (lit "}")).
Qed.

Lemma exec_bindingRegex_token (n0 n : nat) (e post : str) :
  BindingBody e ->
  exec_bindingRegex n0 (backslashes n ++ lit "@{" ++ e ++ lit "}" ++ post)
  = Some ((backslashes n, e), post).
Proof.
  intros He. unfold exec_bindingRegex, binding_slashes, Chr at 1.
  rewrite run_Star.
  apply star_Cls_greedy;
    [apply forallb_backslashes | reflexivity | | apply le_n].
  rewrite run_Lit. unfold binding_body. rewrite run_Star.
  apply (@binding_body_first _ n0 e He post); [apply le_n|].
  rewrite run_Chr_eq. f_equal. f_equal. f_equal.
  - apply consumed_app.
  - apply (consumed_app e ("}"%char :: post)).
Qed.

Lemma inert_chars (c : ascii) :
  inert c = true ->
  Ascii.eqb chr_backslash c = false /\ Ascii.eqb "@"%char c = false.
Proof.
  unfold inert, none_of. simpl. rewrite orb_false_r, negb_true_iff.
  intros H. apply orb_false_iff in H. destruct H as [H1 H2].
  rewrite Ascii.eqb_sym in H1. rewrite Ascii.eqb_sym in H2. auto.
Qed.

Lemma exec_bindingRegex_inert (n0 : nat) (c : ascii) (s : str) :
  inert c = true -> exec_bindingRegex n0 (c :: s) = None.
Proof.
  intros Hc. apply inert_chars in Hc. destruct Hc as [Hb Ha].
  unfold exec_bindingRegex, binding_slashes, Chr at 1.
  rewrite run_Star, star_Cls_stop by exact Hb.
  change (Lit (lit "@{")) with (Seq (Cls (Ascii.eqb "@"%char)) (Lit (lit "{"))).
  now rewrite run_Seq, run_Cls_head, Ha.
Qed.

Lemma scan_bindings_token (n0 : nat) (pre : str) (n : nat) (e post : str) :
  forallb inert pre = true -> BindingBody e ->
  scan exec_bindingRegex true n0 0 true
       (pre ++ (backslashes n ++ lit "@{" ++ e ++ lit "}") ++ post)
  = map Text pre
    ++ Hit (backslashes n ++ lit "@{" ++ e ++ lit "}") (backslashes n, e)
    :: scan exec_bindingRegex true n0 0 true post.
Proof.
  intros Hpre He. induction pre as [|c pre IH].
  - cbn [app map]. apply scan_hit.
    + destruct n; discriminate.
    + rewrite <- !app_assoc. now apply exec_bindingRegex_token.
  - simpl in Hpre. apply andb_true_iff in Hpre. destruct Hpre as [Hc Hpre].
    cbn [app map]. rewrite scan_miss by now apply exec_bindingRegex_inert.
    now rewrite IH.
Qed.

Lemma pieces_bindings_token (pre : str) (n : nat) (e post : str) :
  forallb inert pre = true -> BindingBody e ->
  pieces exec_bindingRegex true
         (pre ++ (backslashes n ++ lit "@{" ++ e ++ lit "}") ++ post)
  = map Text pre
    ++ Hit (backslashes n ++ lit "@{" ++ e ++ lit "}") (backslashes n, e)
    :: pieces exec_bindingRegex true post.
Proof.
  intros Hpre He. unfold pieces.
  rewrite scan_bindings_token by assumption.
  do 2 f_equal. apply scan_position. intros s.
  apply exec_bindingRegex_position.
Qed.

(** ** The grammar of binding tokens *)

Lemma none_of_not (l : list ascii) (c : ascii) :
  none_of l c = true -> ~ In c l.
Proof.
  unfold none_of. rewrite negb_true_iff. intros H Hin.
  assert (existsb (Ascii.eqb c) l = true) as E; [|congruence].
  apply existsb_exists. exists c. split; [exact Hin | apply Ascii.eqb_refl].
Qed.

Lemma QuotedChars_unique (q : str) :
  QuotedChars q ->
  forall q' t t',
    QuotedChars q' ->
    q ++ chr_quote :: t = q' ++ chr_quote :: t' -> q = q' /\ t = t'.
Proof.
  induction 1 as [|c s Hc Hs IH|c s Hc Hs IH]; intros q' t t' Hq' E;
    destruct Hq' as [|c' s' Hc' Hs'|c' s' Hc' Hs']; cbn [app] in E.
  - injection E as <-. auto.
  - injection E as <- _. apply none_of_not in Hc'. exfalso. apply Hc'.
    now left.
  - discriminate.
  - injection E as -> _. apply none_of_not in Hc. exfalso. apply Hc.
    now left.
  - injection E as <- E. destruct (IH _ _ _ Hs' E) as [<- <-]. auto.
  - injection E as -> _. apply none_of_not in Hc. exfalso. apply Hc.
    right. now left.
  - discriminate.
  - injection E as <- _. apply none_of_not in Hc'. exfalso. apply Hc'.
    right. now left.
  - injection E as <- E. destruct (IH _ _ _ Hs' E) as [<- <-]. auto.
Qed.

Lemma BindingBody_unique (e : str) :
  BindingBody e ->
  forall e' t t',
    BindingBody e' ->
    e ++ "}"%char :: t = e' ++ "}"%char :: t' -> e = e' /\ t = t'.
Proof.
  induction 1 as [|c s Hc Hs IH|q s Hq Hs IH]; intros e' t t' He' E;
    destruct He' as [|c' s' Hc' Hs'|q' s' Hq' Hs']; cbn [app] in E.
  - injection E as <-. auto.
  - injection E as <- _. apply none_of_not in Hc'. exfalso. apply Hc'.
    right. now left.
  - discriminate.
  - injection E as -> _. apply none_of_not in Hc. exfalso. apply Hc.
    right. now left.
  - injection E as <- E. destruct (IH _ _ _ Hs' E) as [<- <-]. auto.
  - injection E as -> _. apply none_of_not in Hc. exfalso. apply Hc.
    now left.
  - discriminate.
  - injection E as <- _. apply none_of_not in Hc'. exfalso. apply Hc'.
    now left.
  - injection E as E. rewrite <- !app_assoc in E. cbn [app] in E.
    destruct (@QuotedChars_unique _ Hq _ _ _ Hq' E) as [<- E'].
    destruct (IH _ _ _ Hs' E') as [<- <-]. auto.
Qed.

Lemma Matches_Lit n0 l s rest :
  Matches n0 (Lit l) s rest -> s = l ++ rest.
Proof.
  revert s. induction l as [|c l IH]; intros s H; cbn [Lit] in H.
  - now inversion H.
  - apply Matches_Seq_inv in H. destruct H as (mid & Hc & Hl).
    apply Matches_Cls_inv in Hc. destruct Hc as (d & -> & Hd).
    apply Ascii.eqb_eq in Hd. subst d. now rewrite (IH _ Hl).
Qed.

Lemma Matches_quoted_chars n0 s rest :
  Matches n0 (Star (Alt (Cls (none_of [chr_quote; chr_backslash]))
                        (Seq (Chr chr_backslash) Dot))) s rest ->
  exists q, QuotedChars q /\ s = q ++ rest.
Proof.
  intros H.
  remember (Star (Alt (Cls (none_of [chr_quote; chr_backslash]))
                      (Seq (Chr chr_backslash) Dot))) as r eqn:Hr.
  induction H; try discriminate.
  - exists []. split; [constructor | reflexivity].
  - injection Hr as ->. specialize (IHMatches2 eq_refl).
    destruct IHMatches2 as (q & Hq & ->).
    apply Matches_Alt_inv in H. destruct H as [H | H].
    + apply Matches_Cls_inv in H. destruct H as (c & -> & Hc).
      exists (c :: q). split; [now constructor | reflexivity].
    + apply Matches_Seq_inv in H. destruct H as (mid & Hb & Hd).
      apply Matches_Cls_inv in Hb. destruct Hb as (b & -> & Hb).
      apply Ascii.eqb_eq in Hb. subst b.
      apply Matches_Cls_inv in Hd. destruct Hd as (c & -> & Hc).
      exists (chr_backslash :: c :: q). split; [now constructor | reflexivity].
Qed.

Lemma Matches_binding_quoted n0 s rest :
  Matches n0 binding_quoted s rest ->
  exists q, QuotedChars q /\ s = chr_quote :: q ++ chr_quote :: rest.
Proof.
  unfold binding_quoted. intros H.
  apply Matches_Seq_inv in H. destruct H as (s1 & Hopen & H).
  apply Matches_Cls_inv in Hopen. destruct Hopen as (c & -> & Hc).
  apply Ascii.eqb_eq in Hc. subst c.
  apply Matches_Seq_inv in H. destruct H as (s2 & Hq & Hclose).
  apply Matches_quoted_chars in Hq. destruct Hq as (q & Hq & ->).
  apply Matches_Cls_inv in Hclose. destruct Hclose as (c & -> & Hc).
  apply Ascii.eqb_eq in Hc. subst c. eauto.
Qed.

Lemma Matches_binding_body n0 s rest :
  Matches n0 binding_body s rest ->
  exists e, BindingBody e /\ s = e ++ rest.
Proof.
  unfold binding_body. intros H.
  remember (Star (Alt (Cls (none_of [chr_quote; "}"%char])) binding_quoted))
    as r eqn:Hr.
  induction H; try discriminate.
  - exists []. split; [constructor | reflexivity].
  - injection Hr as ->. specialize (IHMatches2 eq_refl).
    destruct IHMatches2 as (e & He & ->).
    apply Matches_Alt_inv in H. destruct H as [H | H].
    + apply Matches_Cls_inv in H. destruct H as (c & -> & Hc).
      exists (c :: e). split; [now constructor | reflexivity].
    + apply Matches_binding_quoted in H. destruct H as (q & Hq & ->).
      exists (chr_quote :: q ++ chr_quote :: e).
      split; [now constructor|]. simpl. now rewrite <- app_assoc.
Qed.

(** The whole-string pattern accepts exactly the binding tokens, and
    captures their expression. *)
Lemma match_fullBindingRegex_grammar (s e : str) :
  match_fullBindingRegex s = Some e
  <-> BindingBody e /\ s = lit "@{" ++ e ++ lit "}".
Proof.
  split.
  - unfold match_fullBindingRegex. intros H. run_inv H.
    injection H as <-.
    inversion Hm; subst. clear Hm.
    apply Matches_Lit in Hm0. subst s0.
    apply Matches_binding_body in Hm1. destruct Hm1 as (e & He & ->).
    apply Matches_Cls_inv in Hm2. destruct Hm2 as (c & -> & Hc).
    apply Ascii.eqb_eq in Hc. subst c.
    apply Matches_Eos_inv in Hm3. destruct Hm3 as [-> _].
    rewrite (consumed_app e ["}"%char]). auto.
  - intros [He ->]. now apply match_fullBindingRegex_token.
Qed.

(** A token with text or backslashes around it is no whole-string
    binding. *)
Lemma match_fullBindingRegex_surrounded (pre : str) (n : nat) (e post : str) :
  forallb inert pre = true -> BindingBody e ->
  pre <> [] \/ n <> 0 \/ post <> [] ->
  match_fullBindingRegex
    (pre ++ (backslashes n ++ lit "@{" ++ e ++ lit "}") ++ post) = None.
Proof.
  intros Hpre He Haround.
  destruct (match_fullBindingRegex _) as [e'|] eqn:F; [|reflexivity].
  exfalso. apply match_fullBindingRegex_grammar in F. destruct F as [He' E].
  destruct pre as [|c pre].
  - destruct n as [|n].
    + cbn [app backslashes repeat] in E.
      rewrite <- !app_assoc in E. cbn [app lit list_ascii_of_string] in E.
      injection E as E.
      destruct (@BindingBody_unique _ He _ _ _ He' E) as [_ Hpost].
      destruct Haround as [H | [H | H]]; contradiction.
    + discriminate.
  - cbn [forallb] in Hpre. apply andb_true_iff in Hpre.
    destruct Hpre as [Hc _]. apply inert_chars in Hc. destruct Hc as [_ Hc].
    cbn [app lit list_ascii_of_string] in E. injection E as -> _.
    now rewrite Ascii.eqb_refl in Hc.
Qed.

(** A match of the pattern of a binding is a run of backslashes and a
    token. *)
Lemma forallb_backslashes_eq (w : str) :
  forallb (Ascii.eqb chr_backslash) w = true -> w = backslashes (length w).
Proof.
  induction w as [|c w IH]; cbn [forallb length]; [reflexivity|].
  intros H. apply andb_true_iff in H. destruct H as [Hc Hw].
  apply Ascii.eqb_eq in Hc. subst c. unfold backslashes in *.
  cbn [repeat]. now rewrite <- IH.
Qed.

Lemma exec_bindingRegex_shape (n0 : nat) (s slashes e rest : str) :
  exec_bindingRegex n0 s = Some ((slashes, e), rest) ->
  exists n, slashes = backslashes n /\ BindingBody e
            /\ s = slashes ++ lit "@{" ++ e ++ lit "}" ++ rest.
Proof.
  unfold exec_bindingRegex. intros H. run_inv H.
  injection H as <- <- <-.
  unfold binding_slashes, Chr in Hm.
  apply Matches_Star_Cls in Hm. destruct Hm as (w & -> & Hw).
  apply Matches_Lit in Hm0. subst s0.
  apply Matches_binding_body in Hm1. destruct Hm1 as (e & He & ->).
  apply Matches_Cls_inv in Hm2. destruct Hm2 as (c & -> & Hc).
  apply Ascii.eqb_eq in Hc. subst c.
  rewrite consumed_app. rewrite (consumed_app e ("}"%char :: s3)).
  exists (length w). split; [now apply forallb_backslashes_eq|].
  split; [exact He | reflexivity].
Qed.

(** ** The occurrences of bindings in a string *)

Lemma token_text_app (n : nat) (e post : str) :
  token_text n e ++ post = backslashes n ++ lit "@{" ++ e ++ lit "}" ++ post.
Proof. unfold token_text. now rewrite <- !app_assoc. Qed.

Lemma token_text_cons (n : nat) (e : str) : token_text n e <> [].
Proof. unfold token_text. destruct n; discriminate. Qed.

Lemma exec_bindingRegex_no_token (n0 : nat) (s : str) :
  exec_bindingRegex n0 s = None <-> no_token_at s.
Proof.
  split.
  - intros Hnone n e post He ->.
    rewrite token_text_app, exec_bindingRegex_token in Hnone by exact He.
    discriminate.
  - intros Hno.
    destruct (exec_bindingRegex n0 s) as [[[slashes e] rest]|] eqn:E;
      [exfalso | reflexivity].
    apply exec_bindingRegex_shape in E. destruct E as (n & -> & He & ->).
    apply (Hno n e rest He). now rewrite token_text_app.
Qed.

Lemma Tokenised_scan (s : str) (ps : list segment) :
  Tokenised s ps ->
  forall n0, scan exec_bindingRegex true n0 0 true s = map piece_of ps.
Proof.
  induction 1 as [|c s ps Hno _ IH|n e post ps He _ IH]; intros n0.
  - reflexivity.
  - rewrite scan_miss by now apply exec_bindingRegex_no_token.
    cbn [map piece_of]. now rewrite IH.
  - cbn [map piece_of]. rewrite <- IH with (n0 := n0).
    apply scan_hit; [apply token_text_cons|].
    rewrite token_text_app. now apply exec_bindingRegex_token.
Qed.

Lemma Tokenised_total (s : str) : exists ps, Tokenised s ps.
Proof.
  remember (length s) as m eqn:Hm. revert s Hm.
  induction m as [m IH] using lt_wf_ind. intros s ->.
  destruct (exec_bindingRegex 0 s) as [[[slashes e] rest]|] eqn:E.
  - apply exec_bindingRegex_shape in E. destruct E as (n & -> & He & ->).
    destruct (IH (length rest)) with (s := rest) as [ps Hps];
      [|reflexivity|].
    + rewrite !length_app. cbn [length lit list_ascii_of_string]. lia.
    + exists (Token n e :: ps). rewrite <- token_text_app.
      now constructor.
  - apply exec_bindingRegex_no_token in E. destruct s as [|c s].
    + exists []. constructor.
    + destruct (IH (length s)) with (s := s) as [ps Hps];
        [simpl; lia | reflexivity|].
      exists (Chunk c :: ps). now constructor.
Qed.

Lemma backslashes_inj (n m : nat) : backslashes n = backslashes m -> n = m.
Proof.
  intros H. apply (f_equal (@length ascii)) in H.
  now rewrite !backslashes_length in H.
Qed.

Lemma piece_of_inj (p q : segment) : piece_of p = piece_of q -> p = q.
Proof.
  destruct p as [c|n e], q as [d|m f]; cbn [piece_of]; intros H;
    try discriminate.
  - now injection H as ->.
  - injection H as _ Hn ->. apply backslashes_inj in Hn. now subst.
Qed.

Lemma Tokenised_unique (s : str) (ps ps' : list segment) :
  Tokenised s ps -> Tokenised s ps' -> ps' = ps.
Proof.
  intros H H'. apply (Tokenised_scan) with (n0 := 0) in H.
  apply (Tokenised_scan) with (n0 := 0) in H'. rewrite H in H'.
  clear H. revert ps' H'.
  induction ps as [|p ps IH]; intros [|p' ps'] E; cbn [map] in E;
    try discriminate; [reflexivity|].
  injection E as Ep E. apply piece_of_inj in Ep. subst p'.
  now rewrite (IH ps' E).
Qed.

(** ** The string interpolator *)

Lemma scaped_slashes_odd (n : nat) :
  Nat.odd n = true ->
  replace trailing_backslash_regex false []
          (replace two_backslashes_regex true [chr_backslash] (backslashes n))
  = backslashes (n / 2).
Proof.
  intros H. pose proof (odd_half n H) as Hn.
  remember (n / 2) as m eqn:Hm. clear Hm H. subst n.
  rewrite halve_backslashes_odd. apply drop_trailing_backslash.
Qed.

Lemma scaped_slashes_even (n : nat) :
  Nat.odd n = false ->
  replace two_backslashes_regex true [chr_backslash] (backslashes n)
  = backslashes (n / 2).
Proof.
  intros H. pose proof (even_half n H) as Hn.
  remember (n / 2) as m eqn:Hm. clear Hm H. subst n.
  apply halve_backslashes_even.
Qed.

Section InterpolationFacts.
Context {number : Type} {runtime : Runtime number}.

Lemma try_catch_evaluate (e : str) (h : list (DataContext number)) :
  try_catch (liftM (evaluateExpression e h))
            (fun error => _ <~ console_warn error ;; retM VUndefined)
  = match evaluateExpression e h with
    | Ok v => (Ok v, [])
    | Err err => (Ok VUndefined, [err])
    | OutOfSteps => (OutOfSteps, [])
    end.
Proof. destruct (evaluateExpression e h); reflexivity. Qed.

Lemma replaceBinding_emitted (h : list (DataContext number)) (n : nat)
      (e : str) :
  replaceBinding h (backslashes n ++ lit "@{" ++ e ++ lit "}")
                 (backslashes n, e)
  = (Ok (fst (emitted h n e)), snd (emitted h n e)).
Proof.
  unfold replaceBinding, emitted.
  rewrite backslashes_length, odd_mod2.
  destruct (Nat.odd n) eqn:Hodd.
  - now rewrite scaped_slashes_odd.
  - rewrite scaped_slashes_even by assumption.
    rewrite try_catch_evaluate.
    pose proof (evaluateExpression_terminates e h) as T.
    destruct (evaluateExpression e h) as [v|err|]; [| |contradiction].
    + destruct v as [| |[]| | | |]; reflexivity.
    + reflexivity.
Qed.

Lemma replaceBinding_total (h : list (DataContext number)) (whole : str)
      (groups : str * str) :
  exists r w, replaceBinding h whole groups = (Ok r, w).
Proof.
  destruct groups as [slashes path]. unfold replaceBinding.
  destruct (length slashes mod 2 =? 1); [unfold retM; eauto|].
  rewrite try_catch_evaluate.
  pose proof (evaluateExpression_terminates path h) as T.
  destruct (evaluateExpression path h) as [v|err|]; [| |contradiction];
    simpl; eauto.
Qed.

Lemma replace_with_total (h : list (DataContext number))
      (ps : list (piece (str * str))) :
  exists r w, replace_with (replaceBinding h) ps = (Ok r, w).
Proof.
  induction ps as [|[c|whole groups] ps (r & w & IH)]; simpl.
  - unfold retM. eauto.
  - rewrite IH. simpl. eauto.
  - destruct (replaceBinding_total h whole groups) as (r1 & w1 & H1).
    rewrite H1, IH. simpl. eauto.
Qed.

Lemma replace_with_text (G : Type) (f : str -> G -> M str) (pre : str)
      (ps : list (piece G)) (r : str) (w : list error) :
  replace_with f ps = (Ok r, w) ->
  replace_with f (map Text pre ++ ps) = (Ok (pre ++ r), w).
Proof.
  intros H. induction pre as [|c pre IH]; simpl; [exact H|].
  rewrite IH. simpl. now rewrite app_nil_r.
Qed.

Lemma replaceBindingsInString_full (s expression : str)
      (h : list (DataContext number)) :
  match_fullBindingRegex s = Some expression ->
  replaceBindingsInString s h
  = match evaluateExpression expression h with
    | Ok v => (Ok (if is_undefined v then VStr s else v), [])
    | Err e => (Ok (VStr s), [e])
    | OutOfSteps => (OutOfSteps, [])
    end.
Proof.
  intros H. unfold replaceBindingsInString. rewrite H.
  destruct (evaluateExpression expression h); reflexivity.
Qed.

Lemma replaceBindingsInString_mid (s : str) (h : list (DataContext number))
      (r : str) (w : list error) :
  match_fullBindingRegex s = None ->
  replace_with (replaceBinding h) (pieces exec_bindingRegex true s)
  = (Ok r, w) ->
  replaceBindingsInString s h = (Ok (VStr r), w).
Proof.
  intros H Hr. unfold replaceBindingsInString. rewrite H, Hr.
  simpl. now rewrite app_nil_r.
Qed.

Lemma replaceBindingsInString_total (s : str)
      (h : list (DataContext number)) :
  exists v w, replaceBindingsInString s h = (Ok v, w).
Proof.
  destruct (match_fullBindingRegex s) as [expression|] eqn:F.
  - rewrite (replaceBindingsInString_full _ h F).
    pose proof (evaluateExpression_terminates expression h) as T.
    destruct (evaluateExpression expression h); [eauto | eauto | contradiction].
  - destruct (replace_with_total h (pieces exec_bindingRegex true s))
      as (r & w & Hr).
    rewrite (replaceBindingsInString_mid _ _ F Hr). eauto.
Qed.

Lemma replace_with_rendered (h : list (DataContext number))
      (ps : list segment) :
  replace_with (replaceBinding h) (map piece_of ps)
  = (Ok (rendered_text h ps), rendered_warnings h ps).
Proof.
  unfold rendered_text, rendered_warnings.
  induction ps as [|[c|n e] ps IH]; cbn [map piece_of replace_with flat_map].
  - reflexivity.
  - rewrite IH. cbn [bindM retM rendered fst snd app].
    now rewrite app_nil_r.
  - unfold token_text. rewrite replaceBinding_emitted, IH.
    cbn [bindM retM rendered]. now rewrite app_nil_r.
Qed.

(** The general path of the interpolator on any string that is not one whole
    binding: its segments, each rendered in its turn. *)
Lemma replaceBindingsInString_rendered (s : str)
      (h : list (DataContext number)) :
  (forall e, BindingBody e -> s <> lit "@{" ++ e ++ lit "}") ->
  exists ps,
    Tokenised s ps
    /\ (forall ps', Tokenised s ps' -> ps' = ps)
    /\ replaceBindingsInString s h
       = (Ok (VStr (rendered_text h ps)), rendered_warnings h ps).
Proof.
  intros Hmid. destruct (Tokenised_total s) as [ps Hps]. exists ps.
  split; [exact Hps|].
  split; [intros ps' Hps'; exact (Tokenised_unique Hps Hps')|].
  apply replaceBindingsInString_mid.
  - destruct (match_fullBindingRegex s) as [e|] eqn:F; [|reflexivity].
    apply match_fullBindingRegex_grammar in F. destruct F as [He ->].
    now contradiction (Hmid e He).
  - unfold pieces. rewrite (Tokenised_scan Hps).
    apply replace_with_rendered.
Qed.

Lemma rendered_escaped (h : list (DataContext number)) (n : nat) (e : str) :
  Nat.odd n = true ->
  rendered h (Token n e)
  = (backslashes (n / 2) ++ lit "@{" ++ e ++ lit "}", []).
Proof. intros Hodd. cbn [rendered]. unfold emitted. now rewrite Hodd. Qed.

Lemma rendered_resolved (h : list (DataContext number)) (n : nat) (e : str)
      (v : jsval number) :
  Nat.odd n = false -> evaluateExpression e h = Ok v -> v <> VUndefined ->
  rendered h (Token n e) = (backslashes (n / 2) ++ stringified v, []).
Proof.
  intros Hodd Hv Hdef. cbn [rendered]. unfold emitted. rewrite Hodd, Hv.
  destruct v; try reflexivity. now contradiction Hdef.
Qed.

Lemma rendered_undefined (h : list (DataContext number)) (n : nat)
      (e : str) :
  Nat.odd n = false -> evaluateExpression e h = Ok VUndefined ->
  rendered h (Token n e) = (token_text n e, []).
Proof.
  intros Hodd Hv. cbn [rendered]. unfold emitted. now rewrite Hodd, Hv.
Qed.

Lemma rendered_error (h : list (DataContext number)) (n : nat) (e : str)
      (err : error) :
  Nat.odd n = false -> evaluateExpression e h = Err err ->
  rendered h (Token n e) = (token_text n e, [err]).
Proof.
  intros Hodd Hv. cbn [rendered]. unfold emitted. now rewrite Hodd, Hv.
Qed.

Lemma rendered_quiet (h : list (DataContext number)) (n : nat) (e : str)
      (v : jsval number) :
  evaluateExpression e h = Ok v -> snd (rendered h (Token n e)) = [].
Proof.
  intros Hv. cbn [rendered]. unfold emitted. rewrite Hv.
  destruct (Nat.odd n); [reflexivity|]. now destruct (is_undefined v).
Qed.

(** C2. The interpolator never throws: it always returns a value.  An
    error of the evaluation of a whole-string binding is written to the
    console and the string comes back as it was.  A string that is not one
    whole binding is read as its segments, from left to right, and comes
    back as their renderings, with the warnings of the segments in order: a
    token whose evaluation throws is rendered as its own text, backslashes
    included, and leaves the error as a warning, a token whose evaluation
    returns leaves no warning, and an escaped token is not evaluated.  The
    callback of the replacement catches the error of its expression; with
    no operation named [missing], the string "@{missing(1)}" comes back
    unchanged. *)
Theorem replaceBindingsInString_never_throws :
  (forall s (h : list (DataContext number)),
      exists v w, replaceBindingsInString s h = (Ok v, w))
  /\ (forall s expression (h : list (DataContext number)) e,
         match_fullBindingRegex s = Some expression ->
         evaluateExpression expression h = Err e ->
         replaceBindingsInString s h = (Ok (VStr s), [e]))
  /\ (forall (h : list (DataContext number)) bindingStr slashes path e,
         length slashes mod 2 = 0 ->
         evaluateExpression path h = Err e ->
         replaceBinding h bindingStr (slashes, path) = (Ok bindingStr, [e]))
  /\ (forall h : list (DataContext number),
         operations (lit "missing") = None ->
         replaceBindingsInString (lit "@{missing(1)}") h
         = (Ok (VStr (lit "@{missing(1)}")),
            [BeagleNotFoundError (unknown_operation_message (lit "missing"))]))
  /\ (forall s (h : list (DataContext number)),
         (forall e, BindingBody e -> s <> lit "@{" ++ e ++ lit "}") ->
         exists ps,
           Tokenised s ps
           /\ (forall ps', Tokenised s ps' -> ps' = ps)
           /\ replaceBindingsInString s h
              = (Ok (VStr (rendered_text h ps)), rendered_warnings h ps))
  /\ (forall (h : list (DataContext number)) n e err,
         Nat.odd n = false ->
         evaluateExpression e h = Err err ->
         rendered h (Token n e) = (token_text n e, [err]))
  /\ (forall (h : list (DataContext number)) n e v,
         evaluateExpression e h = Ok v ->
         snd (rendered h (Token n e)) = [])
  /\ (forall (h : list (DataContext number)) n e,
         Nat.odd n = true ->
         rendered h (Token n e)
         = (backslashes (n / 2) ++ lit "@{" ++ e ++ lit "}", [])).
Proof.
  split; [exact replaceBindingsInString_total|].
  split; [|split; [|split; [|split; [|split; [|split]]]]].
  - intros s expression h e F E.
    now rewrite (replaceBindingsInString_full _ h F), E.
  - intros h bindingStr slashes path e Heven E. unfold replaceBinding.
    rewrite Heven. cbn [Nat.eqb].
    now rewrite try_catch_evaluate, E.
  - intros h Hmissing.
    rewrite (@replaceBindingsInString_full _ (lit "missing(1)") h)
      by reflexivity.
    rewrite evaluateExpression_unfold.
    unfold getOperationValue, getOperationValue_with.
    replace (match_operationRegex (lit "missing(1)"))
      with (Some (lit "missing", lit "1")) by reflexivity.
    cbv zeta. replace (getLiteralValue (lit "missing(1)")) with (@VUndefined number).
    + cbn [is_undefined negb].
      replace (includes (lit "missing(1)") (lit "(")) with true by reflexivity.
      now rewrite Hmissing.
    + reflexivity.
  - intros s h Hmid. now apply replaceBindingsInString_rendered.
  - intros h n e err. apply rendered_error.
  - intros h n e v. apply rendered_quiet.
  - intros h n e. apply rendered_escaped.
Qed.

(** C3. A string that is one binding token and nothing else evaluates its
    expression and returns the value as it is, whatever its type; when the
    evaluation throws (the error is written to the console) or gives
    [undefined], the string itself comes back. *)
Theorem replaceBindingsInString_whole_binding
        (e : str) (h : list (DataContext number)) :
  BindingBody e ->
  let s := lit "@{" ++ e ++ lit "}" in
  (forall v, evaluateExpression e h = Ok v -> v <> VUndefined ->
             replaceBindingsInString s h = (Ok v, []))
  /\ (evaluateExpression e h = Ok VUndefined ->
      replaceBindingsInString s h = (Ok (VStr s), []))
  /\ (forall err, evaluateExpression e h = Err err ->
                  replaceBindingsInString s h = (Ok (VStr s), [err]))
  /\ evaluateExpression e h <> OutOfSteps.
Proof.
  intros He s.
  pose proof (replaceBindingsInString_full s h
                (match_fullBindingRegex_token He)) as F.
  repeat split.
  - intros v Hv Hdef. rewrite F, Hv.
    destruct v; try reflexivity. now contradiction Hdef.
  - intros Hv. now rewrite F, Hv.
  - intros err Hv. now rewrite F, Hv.
  - apply evaluateExpression_terminates.
Qed.

(** C4, amended. A string that is not one whole binding is read as its
    segments, from left to right: every occurrence of a binding, with the
    [n] backslashes before it, and the characters of the text between the
    occurrences.  It comes back as the renderings of its segments.  A
    character is copied.  An occurrence with an odd [n] gives half of its
    backslashes (rounded down) and the token as it is; with an even [n] and
    an expression that evaluates to a value other than [undefined], half of
    its backslashes and the value as a string (JSON text for what [typeof]
    calls an object); with an even [n] and an evaluation that throws or
    gives [undefined], the occurrence as it is, with all its [n]
    backslashes.  In particular so for the first occurrence after text
    without backslash and without [@]. *)
Theorem replaceBindingsInString_escaping (h : list (DataContext number)) :
  (forall s,
      (forall e, BindingBody e -> s <> lit "@{" ++ e ++ lit "}") ->
      exists ps,
        Tokenised s ps
        /\ (forall ps', Tokenised s ps' -> ps' = ps)
        /\ replaceBindingsInString s h
           = (Ok (VStr (rendered_text h ps)), rendered_warnings h ps))
  /\ (forall c, rendered h (Chunk c) = ([c], []))
  /\ (forall n e,
         Nat.odd n = true ->
         rendered h (Token n e)
         = (backslashes (n / 2) ++ lit "@{" ++ e ++ lit "}", []))
  /\ (forall n e v,
         Nat.odd n = false ->
         evaluateExpression e h = Ok v -> v <> VUndefined ->
         rendered h (Token n e) = (backslashes (n / 2) ++ stringified v, []))
  /\ (forall n e,
         Nat.odd n = false ->
         evaluateExpression e h = Ok VUndefined ->
         rendered h (Token n e)
         = (backslashes n ++ lit "@{" ++ e ++ lit "}", []))
  /\ (forall n e err,
         Nat.odd n = false ->
         evaluateExpression e h = Err err ->
         rendered h (Token n e)
         = (backslashes n ++ lit "@{" ++ e ++ lit "}", [err]))
  /\ (forall v : jsval number,
         stringified v = match typeof v with
                         | TObject => JSON_stringify v
                         | _ => ToString v
                         end)
  /\ (forall pre n e post,
         forallb inert pre = true ->
         BindingBody e ->
         pre <> [] \/ n <> 0 \/ post <> [] ->
         let s := pre ++ (backslashes n ++ lit "@{" ++ e ++ lit "}") ++ post in
         exists rest w,
           interpolate h post = (Ok rest, w)
           /\ replaceBindingsInString s h
              = (Ok (VStr (pre ++ fst (emitted h n e) ++ rest)),
                 snd (emitted h n e) ++ w)).
Proof.
  split; [intros s Hmid; now apply replaceBindingsInString_rendered|].
  split; [reflexivity|].
  split; [intros n e; apply rendered_escaped|].
  split; [intros n e v; apply rendered_resolved|].
  split; [intros n e; apply rendered_undefined|].
  split; [intros n e err; apply rendered_error|].
  split; [reflexivity|].
  intros pre n e post Hpre He Haround s.
  destruct (replace_with_total h (pieces exec_bindingRegex true post))
    as (rest & w & Hrest).
  exists rest, w. split; [exact Hrest|].
  apply replaceBindingsInString_mid;
    [now apply match_fullBindingRegex_surrounded|].
  unfold s. rewrite pieces_bindings_token by assumption.
  apply replace_with_text. cbn [replace_with].
  rewrite replaceBinding_emitted, Hrest. simpl. now rewrite app_nil_r.
Qed.
End InterpolationFacts.

(** ** Paths into the contexts *)




(** After the leading identifier of a valid path comes nothing, an index
    or a dot. *)
Lemma path_regex_shape (path : str) :
  test path_regex path = true ->
  exists c ident rest,
    path = (c :: ident) ++ rest
    /\ forallb is_ident_char (c :: ident) = true
    /\ stops is_ident_char rest
    /\ stops (none_of ["."%char; "["%char; "]"%char]) rest.
Proof.
  unfold test. destruct (exec_prefix (length path) path_regex path)
    as [last|] eqn:E; [|discriminate].
  intros _. apply exec_prefix_sound in E. unfold path_regex in E.
  apply Matches_Seq_inv in E. destruct E as (s0 & Hbos & E).
  inversion Hbos; subst. clear Hbos.
  apply Matches_Seq_inv in E. destruct E as (s1 & Hseg & E).
  apply Matches_Seq_inv in E. destruct E as (s2 & Hdots & Heos).
  unfold path_segment in Hseg.
  apply Matches_Seq_inv in Hseg. destruct Hseg as (s3 & Hident & Hidx).
  apply Matches_Seq_inv in Hident. destruct Hident as (s4 & Hc & Hident).
  apply Matches_Cls_inv in Hc. destruct Hc as (c & -> & Hc).
  apply Matches_Star_Cls in Hident. destruct Hident as (ident & -> & Hident).
  exists c, ident, s3. split; [reflexivity|].
  split; [simpl; now rewrite Hc, Hident|].
  assert (s3 = [] \/ exists t, s3 = "["%char :: t \/ s3 = "."%char :: t)
    as Hshape.
  { apply Matches_Star_inv in Hidx. destruct Hidx as [-> | [s5 Hidx]].
    - apply Matches_Star_inv in Hdots. destruct Hdots as [-> | [s5 Hdots]].
      + inversion Heos. now left.
      + apply Matches_Chr_head in Hdots. destruct Hdots as [t ->]. eauto.
    - apply Matches_Chr_head in Hidx. destruct Hidx as [t ->]. eauto. }
  destruct Hshape as [-> | (t & [-> | ->])]; split; reflexivity.
Qed.

Lemma leading_identifier_app (ident rest : str) :
  forallb is_ident_char ident = true -> stops is_ident_char rest ->
  leading_identifier (ident ++ rest) = ident.
Proof.
  intros Hident Hstop.
  induction ident as [|c ident IH]; cbn [app leading_identifier].
  - destruct rest as [|d rest]; [reflexivity|]. cbn [stops] in Hstop.
    cbn [leading_identifier]. now rewrite Hstop.
  - cbn [forallb] in Hident. apply andb_true_iff in Hident.
    destruct Hident as [Hc Hident]. now rewrite Hc, IH.
Qed.

Lemma ident_char_not_separator (c : ascii) :
  is_ident_char c = true ->
  none_of ["."%char; "["%char; "]"%char] c = true.
Proof.
  destruct c as [[] [] [] [] [] [] [] []]; vm_compute; congruence.
Qed.

Lemma forallb_ident_not_separator (w : str) :
  forallb is_ident_char w = true ->
  forallb (none_of ["."%char; "["%char; "]"%char]) w = true.
Proof.
  induction w as [|c w IH]; simpl; [reflexivity|].
  intros H. apply andb_true_iff in H. destruct H as [Hc Hw].
  now rewrite (ident_char_not_separator c Hc), IH.
Qed.

Lemma star_none (A : Type) (step : str -> (str -> option A) -> option A)
      (fuel : nat) (s : str) (k : str -> option A) :
  star step fuel s k = None -> k s = None.
Proof.
  destruct fuel as [|fuel]; simpl; [auto|].
  destruct (step s _); [discriminate | auto].
Qed.

(** On a valid path the second pattern of [getBindingValue] takes the
    leading identifier as the context id. *)
Lemma match_pathRegex_leading (path : str) :
  test path_regex path = true ->
  exists contextPath,
    match_pathRegex path = Some (leading_identifier path, contextPath).
Proof.
  intros Hvalid. apply path_regex_shape in Hvalid.
  destruct Hvalid as (c & ident & rest & -> & Hident & Hstop & Hsep).
  rewrite (leading_identifier_app _ rest Hident Hstop).
  unfold match_pathRegex. rewrite run_Bos by reflexivity.
  unfold Plus. rewrite run_Seq. cbn [app]. rewrite run_Cls_head.
  simpl in Hident. apply andb_true_iff in Hident.
  destruct Hident as [Hc Hident].
  rewrite (ident_char_not_separator c Hc), run_Star.
  set (k := fun s1 : str =>
              run (length (c :: ident ++ rest)) (Opt (Chr "."%char)) s1
                  (fun s2 => run (length (c :: ident ++ rest)) (Star Dot) s2
                     (fun s3 => Some (consumed (c :: ident ++ rest) s1,
                                      consumed s2 s3)))).
  assert (exists contextPath, k rest = Some (c :: ident, contextPath))
    as [contextPath Hk].
  { unfold k. destruct (run _ (Opt (Chr "."%char)) rest _) as [x|] eqn:E.
    - apply run_sound in E. destruct E as (s2 & _ & E).
      apply run_sound in E. destruct E as (s3 & _ & E).
      injection E as <-. exists (consumed s2 s3). f_equal. f_equal.
      apply (consumed_app (c :: ident) rest).
    - exfalso. unfold Opt in E. apply run_Alt_none in E.
      cbn [run] in E. apply star_none in E. discriminate. }
  exists contextPath.
  apply star_Cls_greedy;
    [now apply forallb_ident_not_separator | exact Hsep | exact Hk | apply le_n].
Qed.

(** ** The grammar of paths and of numerals *)

Lemma Matches_Plus_Cls n0 p s rest :
  Matches n0 (Plus (Cls p)) s rest -> exists w, run_of p w /\ s = w ++ rest.
Proof.
  intros H. apply Matches_Seq_inv in H. destruct H as (mid & Hc & Hw).
  apply Matches_Cls_inv in Hc. destruct Hc as (c & -> & Hc).
  apply Matches_Star_Cls in Hw. destruct Hw as (w & -> & Hw).
  exists (c :: w). split; [|reflexivity].
  split; [discriminate|]. simpl. now rewrite Hc, Hw.
Qed.

Lemma Matches_index n0 s rest :
  Matches n0 (Seq (Chr "["%char) (Seq (Plus Digit) (Chr "]"%char))) s rest ->
  exists ds, run_of is_digit ds /\ s = "["%char :: ds ++ "]"%char :: rest.
Proof.
  intros H. apply Matches_Seq_inv in H. destruct H as (s1 & Hopen & H).
  apply Matches_Cls_inv in Hopen. destruct Hopen as (c & -> & Hc).
  apply Ascii.eqb_eq in Hc. subst c.
  apply Matches_Seq_inv in H. destruct H as (s2 & Hds & Hclose).
  apply Matches_Plus_Cls in Hds. destruct Hds as (ds & Hds & ->).
  apply Matches_Cls_inv in Hclose. destruct Hclose as (c & -> & Hc).
  apply Ascii.eqb_eq in Hc. subst c. eauto.
Qed.

Lemma Matches_indexes n0 s rest :
  Matches n0 path_indexes s rest -> exists ixs, Indexes ixs /\ s = ixs ++ rest.
Proof.
  unfold path_indexes. intros H.
  remember (Star (Seq (Chr "["%char) (Seq (Plus Digit) (Chr "]"%char)))) as r
    eqn:Hr.
  induction H; try discriminate.
  - exists []. split; [constructor | reflexivity].
  - injection Hr as ->. specialize (IHMatches2 eq_refl).
    destruct IHMatches2 as (ixs & Hixs & ->).
    apply Matches_index in H. destruct H as (ds & Hds & ->).
    exists ("["%char :: ds ++ "]"%char :: ixs).
    split; [now constructor|]. simpl. now rewrite <- app_assoc.
Qed.

Lemma Matches_segment n0 s rest :
  Matches n0 path_segment s rest ->
  exists ident ixs,
    run_of is_ident_char ident /\ Indexes ixs /\ s = ident ++ ixs ++ rest.
Proof.
  intros H. apply Matches_Seq_inv in H. destruct H as (mid & Hident & Hixs).
  apply Matches_Plus_Cls in Hident. destruct Hident as (ident & Hident & ->).
  apply Matches_indexes in Hixs. destruct Hixs as (ixs & Hixs & ->).
  eauto.
Qed.

Lemma Matches_segments n0 s rest :
  Matches n0 (Star (Seq (Chr "."%char) path_segment)) s rest ->
  exists segs, Segments segs /\ s = segs ++ rest.
Proof.
  intros H. remember (Star (Seq (Chr "."%char) path_segment)) as r eqn:Hr.
  induction H; try discriminate.
  - exists []. split; [constructor | reflexivity].
  - injection Hr as ->. specialize (IHMatches2 eq_refl).
    destruct IHMatches2 as (segs & Hsegs & ->).
    apply Matches_Seq_inv in H. destruct H as (mid & Hdot & Hseg).
    apply Matches_Cls_inv in Hdot. destruct Hdot as (c & -> & Hc).
    apply Ascii.eqb_eq in Hc. subst c.
    apply Matches_segment in Hseg. destruct Hseg as (ident & ixs & Hi & Hx & ->).
    exists ("."%char :: ident ++ ixs ++ segs).
    split; [now constructor|]. simpl. now rewrite <- !app_assoc.
Qed.



Lemma path_regex_sound (path : str) :
  test path_regex path = true -> ValidPath path.
Proof.
  unfold test. destruct (exec_prefix (length path) path_regex path)
    as [last|] eqn:E; [|discriminate].
  intros _. apply exec_prefix_sound in E. unfold path_regex in E.
  apply Matches_Seq_inv in E. destruct E as (s0 & Hbos & E).
  inversion Hbos; subst. clear Hbos.
  apply Matches_Seq_inv in E. destruct E as (s1 & Hseg & E).
  apply Matches_Seq_inv in E. destruct E as (s2 & Hsegs & Heos).
  apply Matches_Eos_inv in Heos. destruct Heos as [-> ->].
  apply Matches_segment in Hseg. destruct Hseg as (ident & ixs & Hi & Hx & ->).
  apply Matches_segments in Hsegs. destruct Hsegs as (segs & Hsegs & ->).
  exists ident, ixs, segs. rewrite app_nil_r. auto.
Qed.

Lemma Segments_stop (segs : str) : Segments segs -> path_stop segs.
Proof. destruct 1; simpl; auto. Qed.

Section GrammarComplete.
Variable A : Type.
Variable n0 : nat.

Lemma run_Plus_Cls_greedy (p : ascii -> bool) (w rest : str)
      (k : str -> option A) (x : A) :
  run_of p w -> stops p rest -> k rest = Some x ->
  run n0 (Plus (Cls p)) (w ++ rest) k = Some x.
Proof.
  intros [Hne Hw] Hstop Hk. destruct w as [|c w]; [contradiction|].
  cbn [forallb] in Hw. apply andb_true_iff in Hw. destruct Hw as [Hc Hw].
  unfold Plus. cbn [app]. rewrite run_Seq, run_Cls_head, Hc, run_Star.
  now apply star_Cls_greedy.
Qed.

Lemma indexes_first (ixs : str) :
  Indexes ixs ->
  forall rest (k : str -> option A) x fuel,
    path_stop rest ->
    length (ixs ++ rest) <= fuel ->
    k rest = Some x ->
    star (run n0 (Seq (Chr "["%char) (Seq (Plus Digit) (Chr "]"%char))))
         fuel (ixs ++ rest) k = Some x.
Proof.
  induction 1 as [|ds ixs Hds Hixs IH]; intros rest k x fuel Hstop Hfuel Hk.
  - cbn [app]. rewrite star_stop; [exact Hk|]. intros k'.
    destruct rest as [|c rest]; [reflexivity|].
    simpl in Hstop. subst c. reflexivity.
  - destruct fuel as [|fuel]; [simpl in Hfuel; lia|].
    replace (("["%char :: ds ++ "]"%char :: ixs) ++ rest)
      with ("["%char :: ds ++ "]"%char :: (ixs ++ rest))
      in * by (simpl; now rewrite <- app_assoc).
    apply star_step_some. rewrite run_Seq, run_Chr_eq, run_Seq.
    unfold Digit. apply run_Plus_Cls_greedy; [exact Hds | reflexivity|].
    rewrite run_Chr_eq. shorter.
    apply IH; [exact Hstop | | exact Hk].
    simpl in Hfuel. rewrite length_app in Hfuel. simpl in Hfuel. lia.
Qed.

Lemma segment_first (ident ixs rest : str) (k : str -> option A) (x : A) :
  run_of is_ident_char ident -> Indexes ixs -> path_stop rest ->
  k rest = Some x ->
  run n0 path_segment (ident ++ ixs ++ rest) k = Some x.
Proof.
  intros Hident Hixs Hstop Hk. unfold path_segment. rewrite run_Seq.
  apply run_Plus_Cls_greedy; [exact Hident | |].
  - destruct Hixs as [|ds ixs Hds Hixs]; [|reflexivity].
    destruct rest as [|c rest]; [exact I|].
    simpl in Hstop. subst c. reflexivity.
  - unfold path_indexes. rewrite run_Star.
    now apply indexes_first.
Qed.

Lemma segments_first (segs : str) :
  Segments segs ->
  forall (k : str -> option A) x fuel,
    length segs <= fuel ->
    k [] = Some x ->
    star (run n0 (Seq (Chr "."%char) path_segment)) fuel segs k = Some x.
Proof.
  induction 1 as [|ident ixs rest Hident Hixs Hrest IH];
    intros k x fuel Hfuel Hk.
  - now rewrite star_stop.
  - destruct fuel as [|fuel]; [simpl in Hfuel; lia|].
    apply star_step_some. rewrite run_Seq, run_Chr_eq.
    apply segment_first;
      [exact Hident | exact Hixs | now apply Segments_stop |].
    shorter. apply IH; [|exact Hk].
    simpl in Hfuel. rewrite !length_app in Hfuel. lia.
Qed.
End GrammarComplete.

Lemma path_regex_complete (path : str) :
  ValidPath path -> test path_regex path = true.
Proof.
  intros (ident & ixs & segs & Hident & Hixs & Hsegs & ->).
  unfold test, exec_prefix, path_regex.
  rewrite run_Seq, run_Bos by reflexivity. rewrite run_Seq.
  erewrite segment_first;
    [reflexivity | exact Hident | exact Hixs | now apply Segments_stop |].
  rewrite run_Seq, run_Star.
  apply segments_first; [exact Hsegs | apply le_n | reflexivity].
Qed.

Lemma path_regex_grammar (path : str) :
  test path_regex path = true <-> ValidPath path.
Proof. split; [apply path_regex_sound | apply path_regex_complete]. Qed.

Lemma number_regex_sound (s : str) :
  test number_regex s = true -> Numeral s.
Proof.
  unfold test. destruct (exec_prefix (length s) number_regex s)
    as [last|] eqn:E; [|discriminate].
  intros _. apply exec_prefix_sound in E. unfold number_regex in E.
  apply Matches_Seq_inv in E. destruct E as (s0 & Hbos & E).
  inversion Hbos; subst. clear Hbos.
  apply Matches_Seq_inv in E. destruct E as (s1 & Hds & E).
  apply Matches_Plus_Cls in Hds. destruct Hds as (ds & Hds & ->).
  apply Matches_Seq_inv in E. destruct E as (s2 & Hopt & Heos).
  apply Matches_Eos_inv in Heos. destruct Heos as [-> ->].
  exists ds. split; [exact Hds|].
  unfold Opt in Hopt. apply Matches_Alt_inv in Hopt.
  destruct Hopt as [Hfrac | Heps].
  - right. apply Matches_Seq_inv in Hfrac. destruct Hfrac as (mid & Hdot & Hfs).
    apply Matches_Cls_inv in Hdot. destruct Hdot as (c & -> & Hc).
    apply Ascii.eqb_eq in Hc. subst c.
    apply Matches_Plus_Cls in Hfs. destruct Hfs as (fs & Hfs & ->).
    exists fs. rewrite app_nil_r. auto.
  - left. inversion Heps; subst. now rewrite app_nil_r.
Qed.

Lemma number_regex_complete (s : str) :
  Numeral s -> test number_regex s = true.
Proof.
  intros (ds & Hds & [-> | (fs & Hfs & ->)]);
    unfold test, exec_prefix, number_regex;
    rewrite run_Seq, run_Bos by reflexivity; rewrite run_Seq.
  - rewrite <- (app_nil_r ds) at 2. unfold Digit.
    erewrite run_Plus_Cls_greedy; [reflexivity | exact Hds | exact I |].
    reflexivity.
  - unfold Digit.
    erewrite run_Plus_Cls_greedy; [reflexivity | exact Hds | reflexivity |].
    rewrite run_Seq. unfold Opt. apply run_Alt_left.
    rewrite run_Seq, run_Chr_eq.
    rewrite <- (app_nil_r fs).
    apply run_Plus_Cls_greedy; [exact Hfs | exact I | reflexivity].
Qed.

Lemma number_regex_grammar (s : str) :
  test number_regex s = true <-> Numeral s.
Proof. split; [apply number_regex_sound | apply number_regex_complete]. Qed.

Section PathFacts.
Context {number : Type} {runtime : Runtime number}.

Lemma getContextInHierarchy_none (h : list (DataContext number))
      (contextId : str) :
  (forall context, In context h -> id context <> contextId) ->
  getContextInHierarchy h contextId = None.
Proof.
  intros Hnone. unfold getContextInHierarchy.
  destruct (find _ (rev h)) as [context|] eqn:E; [|reflexivity].
  apply find_some in E. destruct E as [Hin Heq].
  apply in_rev in Hin. apply str_eqb_eq in Heq.
  now apply Hnone in Hin.
Qed.

(** C5. A path that is not of the grammar, an identifier with indexes and
    then dotted segments of the same form, is refused with a parse error
    that cites it; a path of the grammar whose leading identifier is the id
    of no context of the hierarchy resolves to [undefined]. *)
Theorem getBindingValue_invalid_or_unknown
        (path : str) (h : list (DataContext number)) :
  (~ ValidPath path ->
   getBindingValue path h = Err (BeagleParseError (invalid_path_message path)))
  /\ (ValidPath path ->
      (forall context, In context h ->
                       id context <> leading_identifier path) ->
      getBindingValue path h = Ok VUndefined).
Proof.
  unfold getBindingValue. split.
  - intros Hinvalid. destruct (test path_regex path) eqn:E; [|reflexivity].
    now apply path_regex_sound in E.
  - intros Hvalid Hnone. apply path_regex_complete in Hvalid.
    rewrite Hvalid. cbn [negb].
    destruct (match_pathRegex_leading path Hvalid) as [contextPath ->].
    now rewrite getContextInHierarchy_none.
Qed.
End PathFacts.

(** ** Literals *)

Lemma exec_outer_quotes_inside (n0 : nat) (c : ascii) (t : str) :
  length (c :: t) <> n0 -> t <> [] ->
  exec_of outer_quotes_regex n0 (c :: t) = None.
Proof.
  intros Hlen Ht. unfold exec_of, exec_prefix, outer_quotes_regex.
  rewrite run_Alt_right.
  - rewrite run_Seq. unfold Chr. rewrite run_Cls_head.
    destruct (Ascii.eqb chr_quote c); [|reflexivity].
    destruct t; [contradiction | reflexivity].
  - rewrite run_Seq. cbn [run].
    apply Nat.eqb_neq in Hlen. now rewrite Hlen.
Qed.

Lemma strip_closing_quote_scan (n0 : nat) (body : str) :
  length (body ++ [chr_quote]) < n0 ->
  flat_map (copy_or [])
           (scan (exec_of outer_quotes_regex) true n0 0 true
                 (body ++ [chr_quote]))
  = body.
Proof.
  induction body as [|c body IH]; intros Hlen.
  - cbn [app] in *. cbn [scan].
    replace (exec_of outer_quotes_regex n0 [chr_quote]) with (Some (tt, @nil ascii)).
    + cbn [length Nat.sub Nat.eqb firstn flat_map copy_or app scan].
      replace (exec_of outer_quotes_regex n0 []) with (@None (unit * str));
        [reflexivity|].
      unfold exec_of, exec_prefix, outer_quotes_regex.
      rewrite run_Alt_right; [reflexivity|].
      rewrite run_Seq. cbn [run]. simpl in Hlen.
      destruct n0 as [|n0]; [lia | reflexivity].
    + unfold exec_of, exec_prefix, outer_quotes_regex.
      rewrite run_Alt_right; [reflexivity|].
      rewrite run_Seq. cbn [run]. simpl in Hlen.
      replace (length [chr_quote] =? n0) with false; [reflexivity|].
      symmetry. apply Nat.eqb_neq. simpl. lia.
  - cbn [app] in *.
    rewrite scan_miss.
    + cbn [flat_map copy_or app]. rewrite IH; [reflexivity|].
      simpl in Hlen. lia.
    + apply exec_outer_quotes_inside; [lia|]. now destruct body.
Qed.

Lemma strip_outer_quotes (body : str) :
  replace outer_quotes_regex true [] (chr_quote :: body ++ [chr_quote])
  = body.
Proof.
  rewrite replace_unfold.
  change (chr_quote :: body ++ [chr_quote])
    with ([chr_quote] ++ (body ++ [chr_quote])).
  rewrite (@scan_hit _ _ _ _ [chr_quote] _ tt); [|discriminate|].
  - cbn [flat_map copy_or app]. apply strip_closing_quote_scan.
    simpl. lia.
  - unfold exec_of, exec_prefix, outer_quotes_regex.
    erewrite run_Alt_left; [reflexivity|].
    rewrite run_Seq, run_Bos by reflexivity.
    cbn [app]. now rewrite run_Chr_eq.
Qed.

Lemma exec_escaped_quote (n0 : nat) (s : str) :
  exec_of escaped_quote_regex n0 s
  = match s with
    | b :: q :: s2 =>
        if Ascii.eqb b chr_backslash && Ascii.eqb q chr_quote
        then Some (tt, s2) else None
    | _ => None
    end.
Proof.
  unfold exec_of, exec_prefix, escaped_quote_regex.
  cbn [Lit]. rewrite run_Seq. unfold Chr.
  destruct s as [|b s]; [reflexivity|]. rewrite run_Cls_head.
  rewrite (Ascii.eqb_sym b chr_backslash).
  destruct (Ascii.eqb chr_backslash b); [|now destruct s].
  rewrite run_Seq. destruct s as [|q s2]; [reflexivity|].
  rewrite run_Cls_head. rewrite (Ascii.eqb_sym q chr_quote).
  now destruct (Ascii.eqb chr_quote q).
Qed.

Lemma unescape_scan (n0 n : nat) :
  forall s, length s <= n ->
    flat_map (copy_or [chr_quote])
             (scan (exec_of escaped_quote_regex) true n0 0 true s)
    = unescape_quotes s.
Proof.
  induction n as [|n IH]; intros s Hlen.
  - destruct s; [reflexivity | simpl in Hlen; lia].
  - destruct s as [|b [|q s2]]; [reflexivity| |].
    + cbn [scan]. rewrite exec_escaped_quote. reflexivity.
    + pose proof (exec_escaped_quote n0 (b :: q :: s2)) as E.
      cbn iota in E. cbn [unescape_quotes].
      destruct (Ascii.eqb b chr_backslash && Ascii.eqb q chr_quote) eqn:Hbq.
      * change (b :: q :: s2) with ([b; q] ++ s2) in E |- *.
        rewrite (@scan_hit _ _ _ n0 [b; q] s2 tt);
          [|discriminate | exact E].
        cbn [flat_map copy_or app]. rewrite IH; [reflexivity|].
        simpl in Hlen. lia.
      * rewrite scan_miss by exact E.
        cbn [flat_map copy_or app]. rewrite IH; [reflexivity|].
        simpl in Hlen |- *. lia.
Qed.

Lemma unescape_replace (s : str) :
  replace escaped_quote_regex true (lit "'") s = unescape_quotes s.
Proof. rewrite replace_unfold. now apply unescape_scan with (n := length s). Qed.

Lemma number_regex_rejects_quote (t : str) :
  test number_regex (chr_quote :: t) = false.
Proof.
  unfold test, exec_prefix, number_regex.
  rewrite run_Seq, run_Bos by reflexivity.
  reflexivity.
Qed.

Lemma endsWith_quote (body : str) :
  endsWith (chr_quote :: body ++ [chr_quote]) (lit "'") = true.
Proof.
  unfold endsWith. cbn [rev]. rewrite rev_app_distr.
  cbn [rev app lit list_ascii_of_string startsWith].
  now destruct (rev body ++ [chr_quote]).
Qed.

Section LiteralFacts.
Context {number : Type} {runtime : Runtime number}.

Lemma getLiteralValue_number (s : str) :
  Numeral s -> getLiteralValue s = VNum (parseFloat s).
Proof.
  intros Hnum. apply number_regex_complete in Hnum. unfold getLiteralValue.
  destruct (str_eqb s (lit "true")) eqn:E1;
    [apply str_eqb_eq in E1; subst; discriminate|].
  destruct (str_eqb s (lit "false")) eqn:E2;
    [apply str_eqb_eq in E2; subst; discriminate|].
  destruct (str_eqb s (lit "null")) eqn:E3;
    [apply str_eqb_eq in E3; subst; discriminate|].
  now rewrite Hnum.
Qed.

Lemma getLiteralValue_quoted (body : str) :
  getLiteralValue (lit "'" ++ body ++ lit "'")
  = VStr (unescape_quotes body).
Proof.
  unfold getLiteralValue.
  change (lit "'" ++ body ++ lit "'") with (chr_quote :: body ++ [chr_quote]).
  replace (str_eqb (chr_quote :: body ++ [chr_quote]) (lit "true"))
    with false by reflexivity.
  replace (str_eqb (chr_quote :: body ++ [chr_quote]) (lit "false"))
    with false by reflexivity.
  replace (str_eqb (chr_quote :: body ++ [chr_quote]) (lit "null"))
    with false by reflexivity.
  rewrite number_regex_rejects_quote, endsWith_quote.
  replace (startsWith (chr_quote :: body ++ [chr_quote]) (lit "'"))
    with true by (symmetry; apply (startsWith_nil (body ++ [chr_quote]))).
  cbn [andb]. now rewrite strip_outer_quotes, unescape_replace.
Qed.

Lemma getLiteralValue_undefined (s : str) :
  getLiteralValue s = VUndefined
  <-> s <> lit "true" /\ s <> lit "false" /\ s <> lit "null"
      /\ ~ Numeral s
      /\ startsWith s (lit "'") && endsWith s (lit "'") = false.
Proof.
  unfold getLiteralValue.
  destruct (str_eqb s (lit "true")) eqn:E1.
  { apply str_eqb_eq in E1. split; [discriminate | tauto]. }
  destruct (str_eqb s (lit "false")) eqn:E2.
  { apply str_eqb_eq in E2. split; [discriminate | tauto]. }
  destruct (str_eqb s (lit "null")) eqn:E3.
  { apply str_eqb_eq in E3. split; [discriminate | tauto]. }
  destruct (test number_regex s) eqn:N.
  { apply number_regex_sound in N.
    split; [discriminate | intros (_ & _ & _ & H & _); contradiction]. }
  destruct (startsWith s (lit "'") && endsWith s (lit "'")).
  { split; [discriminate | intros (_ & _ & _ & _ & H); discriminate]. }
  split; [intros _ | reflexivity].
  repeat split; try (intros ->; discriminate).
  intros H. apply number_regex_complete in H. congruence.
Qed.

(** C7. The literal evaluator returns [true], [false] and [null] for their
    names, the parsed number for a numeral and the unescaped content for a
    quoted string, and [undefined] exactly when the string is none of these
    by its own tests; but a lone quote, which is no quoted string, passes
    these tests and evaluates to the empty string. *)
Theorem getLiteralValue_cases :
  getLiteralValue (lit "true") = VBool true
  /\ getLiteralValue (lit "false") = VBool false
  /\ getLiteralValue (lit "null") = VNull
  /\ (forall s, Numeral s -> getLiteralValue s = VNum (parseFloat s))
  /\ (forall body, getLiteralValue (lit "'" ++ body ++ lit "'")
                   = VStr (unescape_quotes body))
  /\ (forall s, getLiteralValue s = VUndefined
                <-> s <> lit "true" /\ s <> lit "false" /\ s <> lit "null"
                    /\ ~ Numeral s
                    /\ startsWith s (lit "'") && endsWith s (lit "'") = false)
  /\ (forall body, lit "'" <> lit "'" ++ body ++ lit "'")
  /\ getLiteralValue (lit "'") = VStr [].
Proof.
  split; [reflexivity|]. split; [reflexivity|]. split; [reflexivity|].
  split; [exact getLiteralValue_number|].
  split; [exact getLiteralValue_quoted|].
  split; [exact getLiteralValue_undefined|].
  split; [|reflexivity].
  intros body H. destruct body; discriminate.
Qed.
End LiteralFacts.

(** ** The tree walk *)

Lemma obj_set_fresh (number : Type) (key : str) (v : jsval number)
      (entries : list (str * jsval number)) :
  ~ In key (map fst entries) ->
  obj_set key v entries = entries ++ [(key, v)].
Proof.
  induction entries as [|[k old] entries IH]; simpl; [reflexivity|].
  intros Hfresh. destruct (str_eqb k key) eqn:E.
  - apply str_eqb_eq in E. subst k. exfalso. apply Hfresh. now left.
  - rewrite IH; [reflexivity|]. intros Hin. apply Hfresh. now right.
Qed.

Section TreeFacts.
Context {number : Type} {runtime : Runtime number}.

Lemma replaceBindings_array (items : list (jsval number))
      (h : list (DataContext number)) :
  replaceBindings (VArr items) h
  = (mapped <~ mapM (fun item => replaceBindings item h) items ;;
     retM (VArr mapped)).
Proof.
  cbn [replaceBindings]. f_equal.
  induction items as [|item items IH]; [reflexivity|].
  cbn [mapM]. now rewrite <- IH.
Qed.


Lemma replaceBindings_object (entries : list (str * jsval number))
      (h : list (DataContext number)) :
  replaceBindings (VObj entries) h
  = (reduced <~
       reduceM (bind_entry (getContextHierarchy (VObj entries) h)) entries [] ;;
     retM (VObj reduced)).
Proof.
  cbn [replaceBindings]. f_equal.
  generalize (@nil (str * jsval number)) as result.
  generalize (getContextHierarchy (VObj entries) h) as hierarchy.
  intros hierarchy.
  induction entries as [|[key v] entries IH]; intros result; [reflexivity|].
  cbn [reduceM]. unfold bind_entry at 1.
  destruct (list_includes ignore key).
  - cbn [bindM retM]. rewrite <- IH.
    destruct ((fix reduce (l : list (str * jsval number))
                   (result0 : list (str * jsval number)) {struct l} :
                 M (list (str * jsval number)) := _) entries _).
    reflexivity.
  - destruct (replaceBindings v hierarchy) as [[v'| |] w]; try reflexivity.
    cbn [bindM]. now rewrite <- IH.
Qed.

Lemma reduceM_entries (f : str -> jsval number -> M (jsval number))
      (entries : list (str * jsval number)) :
  forall acc out w,
    NoDup (map fst acc ++ map fst entries) ->
    reduceM f entries acc = (Ok out, w) ->
    exists mapped,
      out = acc ++ mapped
      /\ Forall2 (fun entry entry' =>
                    fst entry' = fst entry
                    /\ exists w', f (fst entry) (snd entry)
                                  = (Ok (snd entry'), w'))
                 entries mapped.
Proof.
  induction entries as [|[key v] entries IH]; intros acc out w Hdup H.
  - simpl in H. injection H as <- <-. exists []. split; [|constructor].
    now rewrite app_nil_r.
  - cbn [reduceM] in H.
    destruct (f key v) as [[v'|e|] w1] eqn:F; cbn [bindM] in H;
      try discriminate.
    destruct (reduceM f entries (obj_set key v' acc)) as [r w2] eqn:R.
    injection H as -> <-.
    simpl in Hdup.
    assert (~ In key (map fst acc)) as Hfresh.
    { intros Hin. apply NoDup_remove_2 in Hdup. apply Hdup.
      apply in_or_app. now left. }
    rewrite obj_set_fresh in R by exact Hfresh.
    apply IH in R.
    + destruct R as (mapped & -> & Hall).
      exists ((key, v') :: mapped). split; [now rewrite <- app_assoc|].
      constructor; [|exact Hall]. simpl. eauto.
    + rewrite map_app. simpl. rewrite <- app_assoc. exact Hdup.
Qed.

(** C8. In an object with distinct keys that the walk rebuilds, the values
    under [id], [context] and the key [ _beagleComponent_] with a leading
    space are copied as they are, whatever they contain, and a string under
    the key [_beagleComponent_] is interpolated, with the hierarchy of the
    children of the node. *)
Theorem replaceBindings_reserved_keys
        (entries out : list (str * jsval number))
        (h : list (DataContext number)) (w : list error) :
  NoDup (map fst entries) ->
  replaceBindings (VObj entries) h = (Ok (VObj out), w) ->
  Forall2 (fun entry entry' =>
             fst entry' = fst entry
             /\ (fst entry = lit "id" \/ fst entry = lit "context"
                 \/ fst entry = lit " _beagleComponent_" ->
                 snd entry' = snd entry)
             /\ (forall s, fst entry = lit "_beagleComponent_" ->
                           snd entry = VStr s ->
                           exists w',
                             replaceBindingsInString
                               s (getContextHierarchy (VObj entries) h)
                             = (Ok (snd entry'), w')))
          entries out.
Proof.
  intros Hdup H. rewrite replaceBindings_object in H.
  destruct (reduceM _ entries []) as [[reduced|e|] w0] eqn:R;
    cbn [bindM retM] in H; try discriminate.
  injection H as <- _.
  apply reduceM_entries in R; [|exact Hdup].
  destruct R as (mapped & -> & Hall). cbn [app].
  eapply Forall2_impl; [|exact Hall].
  intros [key v] [key' v'] (Hkey & w' & Hf). cbn [fst snd] in *.
  split; [exact Hkey|]. unfold bind_entry in Hf. split.
  - intros Hreserved.
    replace (list_includes ignore key) with true in Hf.
    + now injection Hf as ->.
    + destruct Hreserved as [-> | [-> | ->]]; reflexivity.
  - intros s -> ->.
    replace (list_includes ignore (lit "_beagleComponent_")) with false in Hf
      by reflexivity.
    cbn [replaceBindings] in Hf. eauto.
Qed.

(** C9. An array is mapped item by item with the hierarchy it was given, an
    object is rebuilt entry by entry with the hierarchy of its children,
    [undefined], booleans and numbers come back as they are; but [null], for
    which [typeof] answers ['object'], takes the path of the objects and
    [Object.keys] throws a [TypeError]. *)
Theorem replaceBindings_cases (h : list (DataContext number)) :
  (forall items,
      replaceBindings (VArr items) h
      = (mapped <~ mapM (fun item => replaceBindings item h) items ;;
         retM (VArr mapped)))
  /\ (forall entries,
         replaceBindings (VObj entries) h
         = (reduced <~
              reduceM (fun key v =>
                         if list_includes ignore key then retM v
                         else replaceBindings
                                v (getContextHierarchy (VObj entries) h))
                      entries [] ;;
            retM (VObj reduced)))
  /\ replaceBindings VUndefined h = (Ok VUndefined, [])
  /\ (forall b, replaceBindings (VBool b) h = (Ok (VBool b), []))
  /\ (forall n, replaceBindings (VNum n) h = (Ok (VNum n), []))
  /\ (exists message,
         replaceBindings VNull h = (Err (TypeError message), [])).
Proof.
  split; [intros items; apply replaceBindings_array|].
  split; [intros entries; apply replaceBindings_object|].
  split; [reflexivity|]. split; [reflexivity|]. split; [reflexivity|].
  exists null_to_object_message. reflexivity.
Qed.
End TreeFacts.

(** ** Splitting at top-level commas *)

Lemma psteps_step fuel state stack remaining state' stack' remaining' :
  param_state_eqb state final = false ->
  step param_transitions state stack remaining
  = Some (state', stack', remaining') ->
  steps param_state_eqb final param_transitions (S fuel) state stack remaining
  = steps param_state_eqb final param_transitions fuel state' stack' remaining'.
Proof.
  intros Hfinal Hstep. unfold step in Hstep. cbn [steps]. rewrite Hfinal.
  destruct (find_transition stack remaining (param_transitions state))
    as [[t matched]|]; [|discriminate].
  now injection Hstep as <- <- <-.
Qed.

Lemma psteps_mono fuel :
  forall state stack remaining r,
    steps param_state_eqb final param_transitions fuel state stack remaining
    = Some r ->
    steps param_state_eqb final param_transitions (S fuel) state stack
          remaining = Some r.
Proof.
  induction fuel as [|fuel IH]; intros state stack remaining r H.
  - cbn [steps] in *. destruct (param_state_eqb state final);
      [exact H | discriminate].
  - cbn [steps] in H. cbn [steps].
    destruct (param_state_eqb state final); [exact H|].
    destruct (find_transition stack remaining (param_transitions state))
      as [[t matched]|]; [|exact H].
    now apply IH.
Qed.

Lemma psteps_mono_le fuel fuel' state stack remaining r :
  fuel <= fuel' ->
  steps param_state_eqb final param_transitions fuel state stack remaining
  = Some r ->
  steps param_state_eqb final param_transitions fuel' state stack remaining
  = Some r.
Proof.
  induction 1 as [|fuel' Hle IH]; intros H; [exact H|].
  now apply psteps_mono, IH.
Qed.

Lemma reach_psteps c c' :
  Reach param_state_eqb final param_transitions c c' ->
  forall fuel r,
    (let '(state', stack', remaining') := c' in
     steps param_state_eqb final param_transitions fuel state' stack'
           remaining') = Some r ->
    exists fuel',
      (let '(state, stack, remaining) := c in
       steps param_state_eqb final param_transitions fuel' state stack
             remaining) = Some r.
Proof.
  induction 1 as [c|state stack remaining [[state1 stack1] remaining1] c'
                    Hfinal Hstep Hreach IH]; intros fuel r H.
  - now exists fuel.
  - destruct (IH fuel r H) as [fuel1 H1]. exists (S fuel1).
    now rewrite (@psteps_step fuel1 _ _ _ _ _ _ Hfinal Hstep).
Qed.

Lemma reach_trans c1 c2 c3 :
  Reach param_state_eqb final param_transitions c1 c2 ->
  Reach param_state_eqb final param_transitions c2 c3 ->
  Reach param_state_eqb final param_transitions c1 c3.
Proof.
  induction 1 as [c|state stack remaining c c' Hfinal Hstep Hreach IH];
    intros H; [exact H|].
  eapply reach_step; [exact Hfinal | exact Hstep | now apply IH].
Qed.

(** A run that reaches the final state gives the match of the automaton. *)
Lemma param_match_reach (input rest : str) (stack : list str) :
  Reach param_state_eqb final param_transitions
        (initial, [], input) (final, stack, rest) ->
  param_match input = Matched (consumed input rest).
Proof.
  intros Hreach.
  destruct (reach_psteps Hreach 0 (r := Some rest) eq_refl) as [fuel1 H1].
  unfold param_match, dpa_match.
  pose proof (@param_steps_terminate (2 * length input + 2) initial [] input)
    as Hterm.
  destruct (steps param_state_eqb final param_transitions
                  (2 * length input + 2) initial [] input) as [r0|] eqn:E;
    [|exfalso; apply Hterm; [simpl; lia | reflexivity]].
  apply (psteps_mono_le (fuel' := fuel1 + (2 * length input + 2)))
    in H1; [|lia].
  apply (psteps_mono_le (fuel' := fuel1 + (2 * length input + 2)))
    in E; [|lia].
  rewrite H1 in E. now injection E as <-.
Qed.

Lemma none_of_cons (a : ascii) (l : list ascii) (c : ascii) :
  none_of (a :: l) c = true ->
  Ascii.eqb a c = false /\ none_of l c = true.
Proof.
  unfold none_of. cbn [existsb]. rewrite negb_orb, andb_true_iff.
  rewrite (Ascii.eqb_sym c a), negb_true_iff. auto.
Qed.

Lemma exec_param_end_char n0 c s :
  Ascii.eqb ","%char c = false ->
  exec_prefix n0 param_end_regex (c :: s) = None.
Proof.
  intros Hc. unfold exec_prefix, param_end_regex.
  rewrite run_Alt_right; [reflexivity|].
  unfold Chr. now rewrite run_Cls_head, Hc.
Qed.

Lemma exec_param_string_miss n0 c s :
  Ascii.eqb chr_quote c = false ->
  exec_prefix n0 param_string_regex (c :: s) = None.
Proof.
  intros Hc. unfold exec_prefix, param_string_regex.
  unfold Chr at 1. now rewrite run_Seq, run_Cls_head, Hc.
Qed.

Lemma plain_quoted_first (A : Type) (n0 : nat) (q : str) :
  plain_quoted q ->
  forall rest (k : str -> option A) x fuel,
    length (q ++ chr_quote :: rest) <= fuel ->
    k (chr_quote :: rest) = Some x ->
    star (run n0 (Alt (Cls (none_of [chr_quote]))
                      (Seq (Chr chr_backslash) Dot)))
         fuel (q ++ chr_quote :: rest) k = Some x.
Proof.
  unfold plain_quoted. induction q as [|c q IH];
    intros Hq rest k x fuel Hfuel Hk.
  - cbn [app]. rewrite star_stop; [exact Hk|]. intros k'. reflexivity.
  - cbn [forallb] in Hq. apply andb_true_iff in Hq. destruct Hq as [Hc Hq].
    apply none_of_cons in Hc. destruct Hc as [Hc _].
    destruct fuel as [|fuel]; [simpl in Hfuel; lia|].
    cbn [app]. apply star_step_some, run_Alt_left.
    rewrite run_Cls_head.
    replace (none_of [chr_quote] c) with true
      by (unfold none_of; cbn [existsb];
          now rewrite (Ascii.eqb_sym c chr_quote), Hc).
    shorter. apply IH; [exact Hq | simpl in Hfuel; lia | exact Hk].
Qed.

Lemma exec_param_string_hit n0 q rest :
  plain_quoted q ->
  exec_prefix n0 param_string_regex (chr_quote :: q ++ chr_quote :: rest)
  = Some rest.
Proof.
  intros Hq. unfold exec_prefix, param_string_regex.
  rewrite run_Seq, run_Chr_eq, run_Seq, run_Star.
  apply plain_quoted_first; [exact Hq | apply le_n|].
  now rewrite run_Chr_eq.
Qed.

Lemma try_read_re_hit (remaining : str) (r : regex) (w rest : str) :
  remaining = w ++ rest ->
  exec_prefix (length remaining) r remaining = Some rest ->
  try_read remaining (Some (ReadRe r)) = Some w.
Proof.
  intros -> H. cbn [try_read]. rewrite H. now rewrite consumed_app.
Qed.

Lemma try_read_re_miss (remaining : str) (r : regex) :
  exec_prefix (length remaining) r remaining = None ->
  try_read remaining (Some (ReadRe r)) = None.
Proof. intros H. cbn [try_read]. now rewrite H. Qed.

Lemma try_read_char_hit (c : ascii) (s : str) :
  try_read (c :: s) (Some (ReadStr [c])) = Some [c].
Proof.
  cbn [try_read startsWith]. now rewrite Ascii.eqb_refl, startsWith_nil.
Qed.

Lemma try_read_char_miss (c d : ascii) (s : str) :
  Ascii.eqb c d = false ->
  try_read (d :: s) (Some (ReadStr [c])) = None.
Proof.
  intros H. cbn [try_read startsWith].
  now rewrite (Ascii.eqb_sym d c), H.
Qed.

Ltac first_rule :=
  unfold step; cbn [param_transitions find_transition rule pop read pop_ok].

Lemma pstep_initial_char c s stack :
  none_of [","%char; "("%char; ")"%char; chr_quote] c = true ->
  step param_transitions initial stack (c :: s) = Some (initial, stack, s).
Proof.
  intros H. apply none_of_cons in H. destruct H as [Hcomma H].
  apply none_of_cons in H. destruct H as [Hopen H].
  apply none_of_cons in H. destruct H as [Hclose H].
  apply none_of_cons in H. destruct H as [Hquote _].
  first_rule.
  rewrite try_read_re_miss by now apply exec_param_end_char.
  change (lit "(") with ["("%char]. rewrite try_read_char_miss by exact Hopen.
  rewrite try_read_re_miss by now apply exec_param_string_miss.
  rewrite (@try_read_re_hit (c :: s) param_symbol_regex [c] s);
    [reflexivity | reflexivity |].
  unfold exec_prefix, param_symbol_regex. rewrite run_Cls_head.
  unfold none_of. cbn [existsb].
  now rewrite (Ascii.eqb_sym c ")"%char), Hclose.
Qed.

Lemma pstep_initial_quoted q s stack :
  plain_quoted q ->
  step param_transitions initial stack (chr_quote :: q ++ chr_quote :: s)
  = Some (initial, stack, s).
Proof.
  intros Hq. first_rule.
  rewrite try_read_re_miss by now apply exec_param_end_char.
  change (lit "(") with ["("%char].
  rewrite try_read_char_miss by reflexivity.
  rewrite (@try_read_re_hit _ param_string_regex
             (chr_quote :: q ++ [chr_quote]) s);
    [| simpl; now rewrite <- app_assoc | now apply exec_param_string_hit].
  cbn [next update_stack pop push]. do 2 f_equal.
  replace (chr_quote :: q ++ chr_quote :: s)
    with ((chr_quote :: q ++ [chr_quote]) ++ s)
    by (simpl; now rewrite <- app_assoc).
  now rewrite skipn_app, skipn_all, Nat.sub_diag.
Qed.

Lemma pstep_initial_open s stack :
  step param_transitions initial stack ("("%char :: s)
  = Some (insideParameterList, lit "(" :: stack, s).
Proof.
  first_rule.
  rewrite try_read_re_miss by now apply exec_param_end_char.
  change (lit "(") with ["("%char]. now rewrite try_read_char_hit.
Qed.

Lemma pstep_initial_comma s stack :
  step param_transitions initial stack (","%char :: s)
  = Some (final, stack, s).
Proof.
  first_rule.
  now rewrite (@try_read_re_hit (","%char :: s) param_end_regex
                 [","%char] s).
Qed.

Lemma pstep_initial_end stack :
  step param_transitions initial stack [] = Some (final, stack, []).
Proof. reflexivity. Qed.

Lemma pstep_inside_char c s stack :
  none_of ["("%char; ")"%char; chr_quote] c = true ->
  any_char c = true ->
  step param_transitions insideParameterList stack (c :: s)
  = Some (insideParameterList, stack, s).
Proof.
  intros H Hany. apply none_of_cons in H. destruct H as [Hopen H].
  apply none_of_cons in H. destruct H as [Hclose H].
  apply none_of_cons in H. destruct H as [Hquote _].
  first_rule.
  change (lit "(") with ["("%char]. rewrite try_read_char_miss by exact Hopen.
  change (lit ")") with [")"%char].
  assert (try_read (c :: s) (Some (ReadStr [")"%char])) = None) as Hmiss
      by now apply try_read_char_miss.
  destruct (match stack with
            | [] => false
            | top :: _ => str_eqb top ["("%char]
            end); rewrite ?Hmiss;
    rewrite try_read_re_miss by (now apply exec_param_string_miss);
    rewrite (@try_read_re_hit (c :: s) Dot [c] s);
    try reflexivity;
    unfold exec_prefix, Dot; now rewrite run_Cls_head, Hany.
Qed.

Lemma pstep_inside_quoted q s stack :
  plain_quoted q ->
  step param_transitions insideParameterList stack
       (chr_quote :: q ++ chr_quote :: s)
  = Some (insideParameterList, stack, s).
Proof.
  intros Hq. first_rule.
  change (lit "(") with ["("%char].
  rewrite try_read_char_miss by reflexivity.
  change (lit ")") with [")"%char].
  assert (try_read (chr_quote :: q ++ chr_quote :: s)
                   (Some (ReadStr [")"%char])) = None) as Hmiss
      by now apply try_read_char_miss.
  assert (skipn (length (chr_quote :: q ++ [chr_quote]))
                (chr_quote :: q ++ chr_quote :: s) = s) as Hskip.
  { replace (chr_quote :: q ++ chr_quote :: s)
      with ((chr_quote :: q ++ [chr_quote]) ++ s)
      by (simpl; now rewrite <- app_assoc).
    now rewrite skipn_app, skipn_all, Nat.sub_diag. }
  destruct (match stack with
            | [] => false
            | top :: _ => str_eqb top ["("%char]
            end); rewrite ?Hmiss;
    rewrite (@try_read_re_hit _ param_string_regex
               (chr_quote :: q ++ [chr_quote]) s);
    try (simpl; now rewrite <- app_assoc);
    try (now apply exec_param_string_hit);
    cbn [next update_stack pop push]; now rewrite Hskip.
Qed.

Lemma pstep_inside_open s stack :
  step param_transitions insideParameterList stack ("("%char :: s)
  = Some (insideParameterList, lit "(" :: stack, s).
Proof.
  first_rule. change (lit "(") with ["("%char].
  now rewrite try_read_char_hit.
Qed.

Lemma pstep_inside_close s stack :
  step param_transitions insideParameterList (lit "(" :: stack)
       (")"%char :: s)
  = Some (isParameterListOver, stack, s).
Proof.
  first_rule. change (lit "(") with ["("%char].
  rewrite try_read_char_miss by reflexivity.
  change (lit ")") with [")"%char].
  cbn [str_eqb Ascii.eqb Bool.eqb andb]. now rewrite try_read_char_hit.
Qed.

Lemma pstep_over_nested s stack :
  step param_transitions isParameterListOver (lit "(" :: stack) s
  = Some (insideParameterList, lit "(" :: stack, s).
Proof. reflexivity. Qed.

Lemma pstep_over_top s :
  step param_transitions isParameterListOver [] s = Some (initial, [], s).
Proof. reflexivity. Qed.

(** The content of a group and its closing parenthesis are read without
    leaving the group. *)
Lemma reach_nested (g : str) :
  Nested g ->
  forall stack rest,
    Reach param_state_eqb final param_transitions
          (insideParameterList, lit "(" :: stack, g ++ ")"%char :: rest)
          (isParameterListOver, stack, rest).
Proof.
  induction 1 as [|c s Hc Hany Hs IH|q s Hq Hs IH|g s Hg IHg Hs IHs];
    intros stack rest.
  - eapply reach_step;
      [reflexivity | apply pstep_inside_close | apply reach_refl].
  - eapply reach_step;
      [reflexivity | now apply pstep_inside_char | apply IH].
  - replace ((chr_quote :: q ++ chr_quote :: s) ++ ")"%char :: rest)
      with (chr_quote :: q ++ chr_quote :: (s ++ ")"%char :: rest))
      by (simpl; now rewrite <- app_assoc).
    eapply reach_step;
      [reflexivity | now apply pstep_inside_quoted | apply IH].
  - replace (("("%char :: g ++ ")"%char :: s) ++ ")"%char :: rest)
      with ("("%char :: g ++ ")"%char :: (s ++ ")"%char :: rest))
      by (simpl; now rewrite <- app_assoc).
    eapply reach_step; [reflexivity | apply pstep_inside_open |].
    eapply reach_trans; [apply IHg|].
    eapply reach_step; [reflexivity | apply pstep_over_nested | apply IHs].
Qed.

(** A parameter is read without leaving the top level. *)
Lemma reach_top_level (p : str) :
  TopLevel p ->
  forall rest,
    Reach param_state_eqb final param_transitions
          (initial, [], p ++ rest) (initial, [], rest).
Proof.
  induction 1 as [|c s Hc Hs IH|q s Hq Hs IH|g s Hg Hs IH]; intros rest.
  - apply reach_refl.
  - eapply reach_step;
      [reflexivity | now apply pstep_initial_char | apply IH].
  - replace ((chr_quote :: q ++ chr_quote :: s) ++ rest)
      with (chr_quote :: q ++ chr_quote :: (s ++ rest))
      by (simpl; now rewrite <- app_assoc).
    eapply reach_step;
      [reflexivity | now apply pstep_initial_quoted | apply IH].
  - replace (("("%char :: g ++ ")"%char :: s) ++ rest)
      with ("("%char :: g ++ ")"%char :: (s ++ rest))
      by (simpl; now rewrite <- app_assoc).
    eapply reach_step; [reflexivity | apply pstep_initial_open |].
    eapply reach_trans; [now apply reach_nested|].
    eapply reach_step; [reflexivity | apply pstep_over_top | apply IH].
Qed.

Lemma param_match_comma (p rest : str) :
  TopLevel p ->
  param_match (p ++ ","%char :: rest) = Matched (p ++ [","%char]).
Proof.
  intros Hp.
  rewrite (@param_match_reach _ rest []).
  - f_equal. replace (p ++ ","%char :: rest) with ((p ++ [","%char]) ++ rest)
      by now rewrite <- app_assoc.
    apply consumed_app.
  - eapply reach_trans; [now apply reach_top_level|].
    eapply reach_step;
      [reflexivity | apply pstep_initial_comma | apply reach_refl].
Qed.

Lemma param_match_last (p : str) :
  TopLevel p -> param_match p = Matched p.
Proof.
  intros Hp. rewrite (@param_match_reach _ [] []).
  - f_equal. rewrite <- (app_nil_r p) at 1. apply consumed_app.
  - rewrite <- (app_nil_r p) at 1.
    eapply reach_trans; [now apply reach_top_level|].
    eapply reach_step;
      [reflexivity | apply pstep_initial_end | apply reach_refl].
Qed.

Lemma exec_trailing_comma n0 c t :
  exec_of trailing_comma_regex n0 (c :: t)
  = if Ascii.eqb ","%char c
    then match t with [] => Some (tt, []) | _ :: _ => None end
    else None.
Proof.
  unfold exec_of, exec_prefix, trailing_comma_regex, Chr.
  rewrite run_Seq, run_Cls_head.
  destruct (Ascii.eqb ","%char c); [|reflexivity]. now destruct t.
Qed.

Lemma drop_trailing_comma_scan (n0 : nat) (p : str) :
  flat_map (copy_or [])
           (scan (exec_of trailing_comma_regex) false n0 0 true
                 (p ++ [","%char]))
  = p.
Proof.
  induction p as [|c p IH].
  - reflexivity.
  - cbn [app]. rewrite scan_miss.
    + cbn [flat_map copy_or app]. now rewrite IH.
    + rewrite exec_trailing_comma.
      destruct (Ascii.eqb ","%char c); [|reflexivity]. now destruct p.
Qed.

Lemma drop_trailing_comma (p : str) :
  replace trailing_comma_regex false [] (p ++ [","%char]) = p.
Proof. rewrite replace_unfold. apply drop_trailing_comma_scan. Qed.

Lemma keep_without_trailing_comma_scan (n0 : nat) (s : str) :
  (forall t, s <> t ++ [","%char]) ->
  flat_map (copy_or [])
           (scan (exec_of trailing_comma_regex) false n0 0 true s)
  = s.
Proof.
  induction s as [|c s IH]; intros Hs; [reflexivity|].
  rewrite scan_miss.
  - cbn [flat_map copy_or app]. rewrite IH; [reflexivity|].
    intros t ->. now apply (Hs (c :: t)).
  - rewrite exec_trailing_comma.
    destruct (Ascii.eqb ","%char c) eqn:E; [|reflexivity].
    destruct s; [|reflexivity].
    apply Ascii.eqb_eq in E. subst c. now contradiction (Hs []).
Qed.

Lemma keep_without_trailing_comma (s : str) :
  (forall t, s <> t ++ [","%char]) ->
  replace trailing_comma_regex false [] s = s.
Proof. rewrite replace_unfold. apply keep_without_trailing_comma_scan. Qed.

Lemma last_app_cons (A : Type) (l l' : list A) (a d : A) :
  last (l ++ a :: l') d = last (a :: l') d.
Proof.
  induction l as [|b l IH]; [reflexivity|].
  cbn [app]. rewrite <- IH. cbn [last].
  destruct (l ++ a :: l') eqn:E; [|reflexivity].
  now destruct l.
Qed.

Lemma TopLevel_last (p : str) :
  TopLevel p -> p <> [] -> last p " "%char <> ","%char.
Proof.
  induction 1 as [|c s Hc Hs IH|q s Hq Hs IH|g s Hg Hs IH]; intros Hne.
  - contradiction.
  - destruct s as [|d s].
    + cbn [last]. intros ->. discriminate.
    + change (last (c :: d :: s) " "%char) with (last (d :: s) " "%char).
      apply IH. discriminate.
  - change (chr_quote :: q ++ chr_quote :: s)
      with ((chr_quote :: q) ++ chr_quote :: s).
    rewrite last_app_cons. destruct s as [|d s].
    + cbn [last]. discriminate.
    + change (last (chr_quote :: d :: s) " "%char)
        with (last (d :: s) " "%char).
      apply IH. discriminate.
  - change ("("%char :: g ++ ")"%char :: s)
      with (("("%char :: g) ++ ")"%char :: s).
    rewrite last_app_cons. destruct s as [|d s].
    + cbn [last]. discriminate.
    + change (last (")"%char :: d :: s) " "%char)
        with (last (d :: s) " "%char).
      apply IH. discriminate.
Qed.

Lemma TopLevel_no_trailing_comma (p : str) :
  TopLevel p -> forall t, p <> t ++ [","%char].
Proof.
  intros Hp t ->. apply (TopLevel_last Hp).
  - now destruct t.
  - apply last_last.
Qed.

Lemma parseParameters_loop_done (s : str) (fuel : nat)
      (parameters : list str) :
  parseParameters_loop s fuel (length s) parameters = Ok parameters.
Proof.
  destruct fuel; cbn [parseParameters_loop]; now rewrite Nat.ltb_irrefl.
Qed.

Lemma parseParameters_loop_split (last : str) (ps : list str) :
  Forall TopLevel ps -> TopLevel last -> last <> [] ->
  forall pre parameters fuel,
    length (comma_separated ps ++ last) <= fuel ->
    parseParameters_loop (pre ++ comma_separated ps ++ last) fuel
                         (length pre) parameters
    = Ok (parameters ++ map trim ps ++ [trim last]).
Proof.
  intros Hps Hlast Hne.
  induction Hps as [|p ps Hp Hps IH]; intros pre parameters fuel Hfuel.
  - cbn [comma_separated map concat app] in *.
    destruct last as [|c last]; [contradiction|].
    destruct fuel as [|fuel]; [simpl in Hfuel; lia|].
    cbn [parseParameters_loop].
    replace (length pre <? length (pre ++ c :: last)) with true
      by (symmetry; apply Nat.ltb_lt; rewrite length_app; simpl; lia).
    rewrite skipn_app, skipn_all, Nat.sub_diag. cbn [skipn app].
    rewrite (param_match_last Hlast).
    rewrite (keep_without_trailing_comma
               (TopLevel_no_trailing_comma Hlast)).
    rewrite <- length_app. apply parseParameters_loop_done.
  - unfold comma_separated in *. cbn [map concat] in *.
    rewrite <- !app_assoc in *. cbn [app] in *.
    destruct fuel as [|fuel];
      [rewrite length_app in Hfuel; simpl in Hfuel; lia|].
    cbn [parseParameters_loop].
    replace (length pre <? length (pre ++ p ++ ","%char :: _)) with true
      by (symmetry; apply Nat.ltb_lt; rewrite !length_app; simpl; lia).
    rewrite skipn_app, skipn_all, Nat.sub_diag. cbn [skipn app].
    rewrite (param_match_comma _ Hp).
    destruct (p ++ [","%char]) as [|c m] eqn:E; [now destruct p|].
    rewrite <- E. rewrite drop_trailing_comma.
    replace (pre ++ p ++ ","%char :: concat (map (fun p0 => p0 ++ [","%char]) ps) ++ last)
      with ((pre ++ p ++ [","%char])
            ++ concat (map (fun p0 => p0 ++ [","%char]) ps) ++ last)
      by (rewrite <- !app_assoc; reflexivity).
    rewrite <- length_app.
    rewrite IH.
    + now rewrite <- app_assoc.
    + rewrite length_app in Hfuel. cbn [length] in Hfuel. lia.
Qed.

(** A list of parameters without backslashes is split at its top-level
    commas and nowhere else. *)
Lemma parseParameters_comma_separated (ps : list str) (last : str) :
  Forall TopLevel ps -> TopLevel last -> last <> [] ->
  parseParameters (comma_separated ps ++ last)
  = Ok (map trim ps ++ [trim last]).
Proof.
  intros Hps Hlast Hne. unfold parseParameters.
  apply (@parseParameters_loop_split last ps Hps Hlast Hne [] []).
  apply le_n.
Qed.

(** ** Operations *)

Lemma match_operationRegex_no_params (name : str) :
  is_operation_name name = true ->
  match_operationRegex (name ++ lit "()") = Some (name, []).
Proof.
  destruct name as [|c rest]; [discriminate|]. intros Hname.
  cbn [is_operation_name] in Hname. apply andb_true_iff in Hname.
  destruct Hname as [Hc Hrest].
  unfold match_operationRegex. rewrite run_Bos by reflexivity.
  rewrite run_Seq. unfold Word. cbn [app]. rewrite run_Cls_head, Hc, run_Star.
  apply star_Cls_greedy; [exact Hrest | reflexivity | | apply le_n].
  change (lit "()") with ("("%char :: lit ")"). rewrite run_Chr_eq, run_Star.
  cbn [length lit list_ascii_of_string star]. unfold Dot.
  rewrite run_Cls_head.
  replace (any_char ")"%char) with true by reflexivity.
  cbn [length Nat.ltb Nat.leb star].
  replace (run (length (c :: rest ++ "("%char :: [")"%char]))
               (Chr ")"%char) [] _) with (@None (str * str)) by reflexivity.
  rewrite run_Chr_eq. cbn [run]. f_equal. f_equal.
  apply (consumed_app (c :: rest) (lit "()")).
Qed.

Section OperationFacts.
Context {number : Type} {runtime : Runtime number}.


(** C10. The empty parameter list parses to no parameter at all, and a call
    [name()] of a registered operation applies it to no argument. *)
Theorem parseParameters_empty :
  parseParameters [] = Ok []
  /\ (forall name fn (h : list (DataContext number)),
         is_operation_name name = true ->
         operations name = Some fn ->
         getOperationValue (name ++ lit "()") h = Ok (fn [])).
Proof.
  split; [reflexivity|].
  intros name fn h Hname Hfn. unfold getOperationValue, getOperationValue_with.
  now rewrite (match_operationRegex_no_params name Hname), Hfn.
Qed.
End OperationFacts.

(** C1. Parameters made of plain characters, quoted strings without
    backslash and groups in parentheses are split at the commas between them
    and nowhere else, and come back trimmed; the parameters of
    [f('a,b', g(1,2), 'x\'y')] are split into three, each kept as it is
    written; but the quoted string ['a\',b'], one literal with an escaped
    quote, is cut at its comma into ['a\'] and [b']. *)
Theorem parseParameters_splits :
  (forall ps last,
      Forall TopLevel ps -> TopLevel last -> last <> [] ->
      parseParameters (comma_separated ps ++ last)
      = Ok (map trim ps ++ [trim last]))
  /\ match_operationRegex (lit "f('a,b', g(1,2), 'x\'y')")
     = Some (lit "f", lit "'a,b', g(1,2), 'x\'y'")
  /\ parseParameters (lit "'a,b', g(1,2), 'x\'y'")
     = Ok [lit "'a,b'"; lit "g(1,2)"; lit "'x\'y'"]
  /\ QuotedChars (lit "a\',b")
  /\ parseParameters (lit "'a\',b'") = Ok [lit "'a\'"; lit "b'"].
Proof.
  split; [exact parseParameters_comma_separated|].
  split; [vm_compute; reflexivity|].
  split; [vm_compute; reflexivity|].
  split; [|vm_compute; reflexivity].
  apply qc_plain; [reflexivity|].
  apply qc_escape; [reflexivity|].
  repeat (apply qc_plain; [reflexivity|]).
  apply qc_nil.
Qed.

(** * Further properties of the code *)

(** ** Binding tokens in a string *)

(** X1. [bindingRegex], tried at one place of a string, matches there exactly
    when the string goes on with backslashes, the opening of a binding, an
    expression made of quoted literals and of characters other than a quote
    or a closing brace, and a closing brace; its groups are the backslashes
    and the expression, so the first closing brace outside a quoted literal
    ends the binding.  [fullBindingRegex] accepts the strings that are one
    such token without backslashes, and captures the expression. *)
Theorem bindingRegex_tokens :
  (forall n0 s slashes e rest,
      exec_bindingRegex n0 s = Some ((slashes, e), rest)
      <-> exists n, slashes = backslashes n /\ BindingBody e
                    /\ s = slashes ++ lit "@{" ++ e ++ lit "}" ++ rest)
  /\ (forall s e,
         match_fullBindingRegex s = Some e
         <-> BindingBody e /\ s = lit "@{" ++ e ++ lit "}").
Proof.
  split; [|exact match_fullBindingRegex_grammar].
  intros n0 s slashes e rest. split; [apply exec_bindingRegex_shape|].
  intros (n & -> & He & ->). now apply exec_bindingRegex_token.
Qed.

Lemma includes_app (pre needle post : str) :
  includes (pre ++ needle ++ post) needle = true.
Proof.
  induction pre as [|c pre IH].
  - cbn [app]. destruct (needle ++ post) eqn:E; cbn [includes].
    + destruct needle; [reflexivity | discriminate].
    + rewrite <- E. replace (startsWith (needle ++ post) needle) with true;
        [reflexivity|].
      clear E. induction needle as [|d needle IHn]; [now destruct post|].
      cbn [app startsWith]. now rewrite Ascii.eqb_refl, <- IHn.
  - cbn [app includes]. rewrite IH. apply orb_true_r.
Qed.

(** Where the pattern matches nowhere, every character is copied. *)
Lemma scan_all_text (G : Type) (exec : nat -> str -> option (G * str))
      (global : bool) (n0 : nat) (s : str) :
  (forall pre t, s = pre ++ t -> exec n0 t = None) ->
  scan exec global n0 0 true s = map Text s.
Proof.
  induction s as [|c s IH]; intros Hnone.
  - cbn [scan]. now rewrite (Hnone [] [] eq_refl).
  - rewrite scan_miss by exact (Hnone [] (c :: s) eq_refl).
    cbn [map]. f_equal. apply IH. intros pre t ->.
    exact (Hnone (c :: pre) t eq_refl).
Qed.

Section TokenFacts.
Context {number : Type} {runtime : Runtime number}.

(** Without the opening of a binding, or without a closing brace, a string
    holds no token. *)
Lemma replaceBindingsInString_no_token
      (s : str) (h : list (DataContext number)) :
  includes s (lit "@{") = false \/ includes s (lit "}") = false ->
  replaceBindingsInString s h = (Ok (VStr s), []).
Proof.
  intros Hno.
  assert (forall n0 pre t, s = pre ++ t -> exec_bindingRegex n0 t = None)
    as Hnone.
  { intros n0 pre t ->.
    destruct (exec_bindingRegex n0 t) as [[[slashes e] rest]|] eqn:E;
      [exfalso | reflexivity].
    apply exec_bindingRegex_shape in E. destruct E as (n & _ & _ & ->).
    destruct Hno as [Hno | Hno].
    - pose proof (includes_app (pre ++ slashes) (lit "@{")
                               (e ++ lit "}" ++ rest)) as Hin.
      rewrite <- app_assoc in Hin. congruence.
    - pose proof (includes_app (pre ++ slashes ++ lit "@{" ++ e) (lit "}")
                               rest) as Hin.
      rewrite <- !app_assoc in Hin. congruence. }
  apply replaceBindingsInString_mid.
  - destruct (match_fullBindingRegex s) as [e|] eqn:F; [exfalso | reflexivity].
    apply match_fullBindingRegex_grammar in F. destruct F as [_ ->].
    destruct Hno as [Hno | Hno].
    + pose proof (includes_app [] (lit "@{") (e ++ lit "}")) as Hin.
      cbn [app] in Hin, Hno. congruence.
    + pose proof (includes_app (lit "@{" ++ e) (lit "}") []) as Hin.
      rewrite app_nil_r, <- app_assoc in Hin. congruence.
  - unfold pieces. rewrite scan_all_text by apply Hnone.
    rewrite <- (app_nil_r (map Text s)).
    rewrite (@replace_with_text _ _ s [] [] []); [|reflexivity].
    now rewrite app_nil_r.
Qed.

(** X2. A string without the two characters that open a binding, or
    without a closing brace, comes back from the interpolator as it is, with
    no warning, whatever the contexts. *)
Theorem replaceBindingsInString_without_token
        (s : str) (h : list (DataContext number)) :
  includes s (lit "@{") = false \/ includes s (lit "}") = false ->
  replaceBindingsInString s h = (Ok (VStr s), []).
Proof. apply replaceBindingsInString_no_token. Qed.

(** X3. The interpolator returns something else than a string only for a
    string that is one whole binding, and then it is the value of the
    expression, returned without a warning. *)
Theorem replaceBindingsInString_typed
        (s : str) (h : list (DataContext number)) (v : jsval number)
        (w : list error) :
  replaceBindingsInString s h = (Ok v, w) ->
  typeof v <> TString ->
  exists e, BindingBody e /\ s = lit "@{" ++ e ++ lit "}"
            /\ evaluateExpression e h = Ok v /\ w = [].
Proof.
  intros H Htype.
  destruct (match_fullBindingRegex s) as [e|] eqn:F.
  - rewrite (replaceBindingsInString_full _ h F) in H.
    apply match_fullBindingRegex_grammar in F. destruct F as [He ->].
    exists e. destruct (evaluateExpression e h) as [v0|err|];
      [| |discriminate].
    + injection H as <- <-.
      destruct (is_undefined v0); [now contradiction Htype|].
      auto.
    + injection H as <- _. now contradiction Htype.
  - destruct (replace_with_total h (pieces exec_bindingRegex true s))
      as (r & w' & Hr).
    rewrite (replaceBindingsInString_mid _ _ F Hr) in H.
    injection H as <- _. now contradiction Htype.
Qed.
End TokenFacts.

(** ** Quoted literals *)

Lemma escape_quotes_head (s : str) :
  match escape_quotes s with
  | q :: _ => Ascii.eqb q chr_quote = false
  | [] => s = []
  end.
Proof.
  destruct s as [|c s]; cbn [escape_quotes]; [reflexivity|].
  destruct (Ascii.eqb c chr_quote) eqn:E; [reflexivity | exact E].
Qed.

Lemma unescape_escape_quotes (s : str) :
  unescape_quotes (escape_quotes s) = s.
Proof.
  induction s as [|c s IH]; [reflexivity|].
  cbn [escape_quotes]. destruct (Ascii.eqb c chr_quote) eqn:E.
  - apply Ascii.eqb_eq in E. subst c.
    cbn [unescape_quotes]. rewrite !Ascii.eqb_refl. cbn [andb].
    now rewrite IH.
  - pose proof (escape_quotes_head s) as Hhead.
    cbn [unescape_quotes]. destruct (escape_quotes s) as [|q t] eqn:Es.
    + now subst s.
    + rewrite Hhead, andb_false_r. now rewrite IH.
Qed.

Lemma escape_quotes_QuotedChars (s : str) :
  forallb (none_of [chr_backslash]) s = true ->
  QuotedChars (escape_quotes s).
Proof.
  induction s as [|c s IH]; cbn [forallb escape_quotes]; [constructor|].
  intros H. apply andb_true_iff in H. destruct H as [Hc Hs].
  destruct (Ascii.eqb c chr_quote) eqn:E.
  - apply qc_escape; [reflexivity | now apply IH].
  - apply qc_plain; [|now apply IH].
    unfold none_of in *. cbn [existsb] in *. rewrite E.
    rewrite orb_false_r in Hc. apply negb_true_iff in Hc. now rewrite Hc.
Qed.

Section QuotedFacts.
Context {number : Type} {runtime : Runtime number}.

(** X4. A string written between quotes with a backslash before each of its
    quotes is a literal whose value is the string; when the string has no
    backslash, the whole binding of that literal gives the string back. *)
Theorem getLiteralValue_round_trip :
  (forall s : str,
      getLiteralValue (lit "'" ++ escape_quotes s ++ lit "'") = VStr s)
  /\ (forall (s : str) (h : list (DataContext number)),
         forallb (none_of [chr_backslash]) s = true ->
         replaceBindingsInString
           (lit "@{" ++ (lit "'" ++ escape_quotes s ++ lit "'") ++ lit "}") h
         = (Ok (VStr s), [])).
Proof.
  assert (forall s : str,
             getLiteralValue (lit "'" ++ escape_quotes s ++ lit "'") = VStr s)
    as Hlit.
  { intros s. rewrite getLiteralValue_quoted.
    now rewrite unescape_escape_quotes. }
  split; [exact Hlit|]. intros s h Hs.
  assert (BindingBody (lit "'" ++ escape_quotes s ++ lit "'")) as Hbody.
  { apply (@bb_quoted (escape_quotes s) []);
      [now apply escape_quotes_QuotedChars | constructor]. }
  rewrite (replaceBindingsInString_full _ h
             (match_fullBindingRegex_token Hbody)).
  rewrite evaluateExpression_unfold. cbv zeta. now rewrite Hlit.
Qed.
End QuotedFacts.

(** ** Paths and the characters of an expression *)

Lemma ident_char_any (c : ascii) : is_ident_char c = true -> any_char c = true.
Proof. destruct c as [[] [] [] [] [] [] [] []]; vm_compute; congruence. Qed.

Lemma digit_path_char (c : ascii) : is_digit c = true -> is_path_char c = true.
Proof. destruct c as [[] [] [] [] [] [] [] []]; vm_compute; congruence. Qed.

Lemma path_char_any (c : ascii) : is_path_char c = true -> any_char c = true.
Proof. destruct c as [[] [] [] [] [] [] [] []]; vm_compute; congruence. Qed.

Lemma forallb_impl [p q : ascii -> bool] [s : str] :
  (forall c, p c = true -> q c = true) ->
  forallb p s = true -> forallb q s = true.
Proof.
  intros Hpq. induction s as [|c s IH]; cbn [forallb]; [reflexivity|].
  intros H. apply andb_true_iff in H. destruct H as [Hc Hs].
  now rewrite (Hpq c Hc), IH.
Qed.

Lemma Indexes_path_chars (ixs : str) :
  Indexes ixs -> forallb is_path_char ixs = true.
Proof.
  induction 1 as [|ds rest [_ Hds] _ IH]; [reflexivity|].
  cbn [forallb]. rewrite forallb_app. cbn [forallb].
  rewrite (forallb_impl digit_path_char Hds), IH. reflexivity.
Qed.

Lemma ident_path_char (c : ascii) :
  is_ident_char c = true -> is_path_char c = true.
Proof. unfold is_path_char. now intros ->. Qed.

Lemma Segments_path_chars (segs : str) :
  Segments segs -> forallb is_path_char segs = true.
Proof.
  induction 1 as [|ident ixs rest [_ Hident] Hixs _ IH]; [reflexivity|].
  cbn [forallb]. rewrite !forallb_app.
  rewrite (forallb_impl ident_path_char Hident),
    (Indexes_path_chars Hixs), IH. reflexivity.
Qed.

Lemma ValidPath_path_chars (path : str) :
  ValidPath path -> forallb is_path_char path = true.
Proof.
  intros (ident & ixs & rest & [_ Hident] & Hixs & Hrest & ->).
  rewrite !forallb_app.
  rewrite (forallb_impl ident_path_char Hident),
    (Indexes_path_chars Hixs), (Segments_path_chars Hrest). reflexivity.
Qed.

(** What comes after the identifier of a valid path starts with a bracket
    or a dot. *)
Lemma path_tail_stop (ixs segs : str) :
  Indexes ixs -> Segments segs ->
  stops (none_of ["."%char; "["%char; "]"%char]) (ixs ++ segs).
Proof.
  intros [|ds rest _ _] Hsegs; [|reflexivity].
  destruct Hsegs; reflexivity.
Qed.

Lemma star_Cls_all (A : Type) (n0 : nat) (p : ascii -> bool) (w : str)
      (k : str -> option A) (x : A) (fuel : nat) :
  forallb p w = true -> k [] = Some x -> length w <= fuel ->
  star (run n0 (Cls p)) fuel w k = Some x.
Proof.
  intros Hw Hk Hfuel. rewrite <- (app_nil_r w).
  apply star_Cls_greedy; [exact Hw | exact I | exact Hk |].
  now rewrite app_nil_r.
Qed.

Lemma consumed_all (s : str) : consumed s [] = s.
Proof. rewrite <- (app_nil_r s) at 1. apply consumed_app. Qed.

Lemma match_pathRegex_split (ident tail : str) :
  run_of is_ident_char ident ->
  stops (none_of ["."%char; "["%char; "]"%char]) tail ->
  forallb any_char tail = true ->
  match_pathRegex (ident ++ tail) = Some (ident, path_after_id tail).
Proof.
  intros Hident Hstop Hany. unfold match_pathRegex.
  rewrite run_Bos by reflexivity.
  apply run_Plus_Cls_greedy; [|exact Hstop|].
  - destruct Hident as [Hne Hident]. split; [exact Hne|].
    now apply forallb_ident_not_separator.
  - rewrite consumed_app. unfold Opt.
    destruct tail as [|c t].
    + reflexivity.
    + cbn [path_after_id]. destruct (Ascii.eqb c "."%char) eqn:E.
      * apply Ascii.eqb_eq in E. subst c.
        apply run_Alt_left. rewrite run_Chr_eq, run_Star.
        cbn [forallb] in Hany. apply andb_true_iff in Hany.
        destruct Hany as [_ Hany].
        apply star_Cls_all; [exact Hany | | apply le_n].
        now rewrite consumed_all.
      * rewrite run_Alt_right.
        -- cbn [run]. fold (@run (str * str)).
           apply star_Cls_all; [exact Hany | | apply le_n].
           now rewrite consumed_all.
        -- unfold Chr. rewrite run_Cls_head.
           rewrite Ascii.eqb_sym in E. now rewrite E.
Qed.

Lemma lit_path_chars_ne (s l : str) :
  forallb is_path_char s = false -> forallb is_path_char l = true -> s <> l.
Proof. intros Hs Hl ->. congruence. Qed.

Lemma Numeral_path_chars (s : str) :
  Numeral s -> forallb is_path_char s = true.
Proof.
  intros (ds & [_ Hds] & [-> | (fs & [_ Hfs] & ->)]).
  - exact (forallb_impl digit_path_char Hds).
  - rewrite forallb_app. cbn [forallb].
    now rewrite (forallb_impl digit_path_char Hds),
      (forallb_impl digit_path_char Hfs).
Qed.

Section PathValueFacts.
Context {number : Type} {runtime : Runtime number}.

(** X5. For a valid path whose leading identifier names a context of the
    hierarchy, [getBindingValue] returns the value of the context when
    nothing follows the identifier, and otherwise what [lodash/get] finds in
    that value at the rest of the path, taken without the dot that may
    separate it from the identifier (an index keeps its brackets). *)
Theorem getBindingValue_found
        (ident ixs segs : str) (h : list (DataContext number))
        (context : DataContext number) :
  run_of is_ident_char ident -> Indexes ixs -> Segments segs ->
  getContextInHierarchy h ident = Some context ->
  getBindingValue (ident ++ ixs ++ segs) h
  = Ok (match path_after_id (ixs ++ segs) with
        | [] => value context
        | contextPath => lodash_get (value context) contextPath
        end).
Proof.
  intros Hident Hixs Hsegs Hfound. unfold getBindingValue.
  rewrite path_regex_complete by (exists ident, ixs, segs; auto).
  cbn [negb].
  rewrite match_pathRegex_split;
    [| exact Hident | now apply path_tail_stop |].
  - rewrite Hfound. now destruct (path_after_id (ixs ++ segs)).
  - rewrite forallb_app.
    now rewrite (forallb_impl path_char_any (Indexes_path_chars Hixs)),
      (forallb_impl path_char_any (Segments_path_chars Hsegs)).
Qed.

(** X6. An expression without an opening parenthesis that does not start
    with a quote and has a character other than letters, digits, [_], the
    dot and the brackets (a blank, an operator) is no literal and no path:
    the evaluator throws the [BeagleParseError] of the invalid path.  Blanks
    around an expression are not trimmed. *)
Theorem evaluateExpression_invalid_character
        (e : str) (h : list (DataContext number)) :
  includes e (lit "(") = false ->
  startsWith e (lit "'") = false ->
  forallb is_path_char e = false ->
  evaluateExpression e h = Err (BeagleParseError (invalid_path_message e)).
Proof.
  intros Hcall Hquote Hchars.
  rewrite evaluateExpression_unfold. cbv zeta.
  replace (getLiteralValue e) with (@VUndefined number).
  - cbn [is_undefined negb]. rewrite Hcall. unfold getBindingValue.
    destruct (test path_regex e) eqn:T; [|reflexivity].
    apply path_regex_sound, ValidPath_path_chars in T. congruence.
  - symmetry. apply getLiteralValue_undefined.
    repeat split.
    + now apply (lit_path_chars_ne Hchars).
    + now apply (lit_path_chars_ne Hchars).
    + now apply (lit_path_chars_ne Hchars).
    + intros Hnum. apply Numeral_path_chars in Hnum. congruence.
    + now rewrite Hquote.
Qed.
End PathValueFacts.

(** ** Operation calls *)

(** A greedy class that takes the last character too gives it back when
    what follows needs it. *)
Lemma star_Cls_give_back (A : Type) (n0 : nat) (p : ascii -> bool)
      (w : str) (c : ascii) (k : str -> option A) (x : A) :
  forallb p w = true -> k [] = None -> k [c] = Some x ->
  forall fuel, length (w ++ [c]) <= fuel ->
               star (run n0 (Cls p)) fuel (w ++ [c]) k = Some x.
Proof.
  intros Hw Hnil Hk. induction w as [|a w IH]; intros fuel Hfuel.
  - destruct fuel as [|fuel]; [simpl in Hfuel; lia|].
    cbn [app star]. rewrite run_Cls_head.
    destruct (p c); [|exact Hk].
    cbn [length]. replace (0 <? 1) with true by reflexivity.
    replace (star (run n0 (Cls p)) fuel [] k) with (@None A); [exact Hk|].
    destruct fuel; cbn [star run]; now rewrite ?Hnil.
  - cbn [forallb] in Hw. apply andb_true_iff in Hw. destruct Hw as [Ha Hw].
    destruct fuel as [|fuel]; [simpl in Hfuel; lia|].
    cbn [app]. apply star_step_some. rewrite run_Cls_head, Ha.
    replace (length (w ++ [c]) <? length (a :: w ++ [c])) with true
      by (symmetry; apply Nat.ltb_lt; simpl; lia).
    apply IH; [exact Hw|]. simpl in Hfuel. lia.
Qed.

(** The pattern of an operation accepts a name, an opening parenthesis,
    parameters on one line and a closing parenthesis at the end. *)
Lemma match_operationRegex_call (name params : str) :
  is_operation_name name = true -> forallb any_char params = true ->
  match_operationRegex (name ++ "("%char :: params ++ [")"%char])
  = Some (name, params).
Proof.
  destruct name as [|c rest]; [discriminate|]. intros Hname Hparams.
  cbn [is_operation_name] in Hname. apply andb_true_iff in Hname.
  destruct Hname as [Hc Hrest].
  unfold match_operationRegex. rewrite run_Bos by reflexivity.
  rewrite run_Seq. unfold Word. cbn [app]. rewrite run_Cls_head, Hc, run_Star.
  apply star_Cls_greedy; [exact Hrest | reflexivity | | apply le_n].
  rewrite run_Chr_eq, run_Star. unfold Dot.
  apply star_Cls_give_back; [exact Hparams | reflexivity | | apply le_n].
  rewrite run_Chr_eq. cbn [run]. f_equal. f_equal.
  - apply (consumed_app (c :: rest) ("("%char :: params ++ [")"%char])).
  - apply consumed_app.
Qed.

(** It accepts nothing else. *)
Lemma match_operationRegex_shape (s name params : str) :
  match_operationRegex s = Some (name, params) ->
  is_operation_name name = true /\ forallb any_char params = true
  /\ s = name ++ "("%char :: params ++ [")"%char].
Proof.
  unfold match_operationRegex. intros H. run_inv H.
  injection H as <- <-.
  inversion Hm; subst. clear Hm.
  apply Matches_Seq_inv in Hm0. destruct Hm0 as (mid & Hw & Hrest).
  apply Matches_Cls_inv in Hw. destruct Hw as (c & -> & Hc).
  apply Matches_Star_Cls in Hrest. destruct Hrest as (rest & -> & Hrest).
  apply Matches_Cls_inv in Hm1. destruct Hm1 as (c1 & -> & Hc1).
  apply Ascii.eqb_eq in Hc1. subst c1.
  unfold Dot in Hm2. apply Matches_Star_Cls in Hm2.
  destruct Hm2 as (params & -> & Hparams).
  apply Matches_Cls_inv in Hm3. destruct Hm3 as (c3 & -> & Hc3).
  apply Ascii.eqb_eq in Hc3. subst c3.
  apply Matches_Eos_inv in Hm4. destruct Hm4 as [-> _].
  pose proof (consumed_app (c :: rest) ("("%char :: params ++ [")"%char]))
    as E1.
  cbn [app] in E1. rewrite E1, consumed_app.
  split; [cbn [is_operation_name]; now rewrite Hc, Hrest|].
  split; [exact Hparams | reflexivity].
Qed.

Lemma callee_app (name rest : str) :
  forallb is_ident_char name = true ->
  callee (name ++ "("%char :: rest) = name.
Proof.
  induction name as [|c name IH]; cbn [forallb app callee].
  - reflexivity.
  - intros H. apply andb_true_iff in H. destruct H as [Hc Hname].
    destruct (Ascii.eqb c "("%char) eqn:E.
    + apply Ascii.eqb_eq in E. subst c. discriminate.
    + now rewrite IH.
Qed.

Lemma word_ident_char (c : ascii) : is_word c = true -> is_ident_char c = true.
Proof. unfold is_ident_char. now intros ->. Qed.

Lemma operation_name_ident (name : str) :
  is_operation_name name = true -> forallb is_ident_char name = true.
Proof.
  destruct name as [|c rest]; [discriminate|]. cbn [is_operation_name forallb].
  intros H. apply andb_true_iff in H. destruct H as [Hc Hrest].
  now rewrite (word_ident_char c Hc), Hrest.
Qed.

Lemma endsWith_last (s : str) (c : ascii) : endsWith (s ++ [c]) [c] = true.
Proof.
  unfold endsWith. rewrite rev_app_distr. cbn [rev app startsWith].
  rewrite Ascii.eqb_refl. now destruct (rev s).
Qed.

Lemma call_path_chars (name rest : str) :
  forallb is_path_char (name ++ "("%char :: rest) = false.
Proof.
  rewrite forallb_app. cbn [forallb].
  replace (is_path_char "("%char) with false by reflexivity.
  cbn [andb]. apply andb_false_r.
Qed.


Section CallFacts.
Context {number : Type} {runtime : Runtime number}.


(** X8. A text is rejected as an operation, with the [BeagleParseError] of
    the invalid operation, when what stands before its first opening
    parenthesis is no operation name (a path with a dot, nothing at all),
    when it does not end with a closing parenthesis, or when it has a line
    terminator. *)
Theorem getOperationValue_invalid
        (operation : str) (h : list (DataContext number)) :
  is_operation_name (callee operation) = false
  \/ endsWith operation (lit ")") = false
  \/ forallb any_char operation = false ->
  getOperationValue operation h
  = Err (BeagleParseError (invalid_operation_message operation)).
Proof.
  intros Hbad. unfold getOperationValue, getOperationValue_with.
  destruct (match_operationRegex operation) as [[name params]|] eqn:E;
    [exfalso | reflexivity].
  apply match_operationRegex_shape in E. destruct E as (Hname & Hparams & ->).
  destruct Hbad as [Hbad | [Hbad | Hbad]].
  - rewrite callee_app in Hbad by now apply operation_name_ident.
    congruence.
  - change ("("%char :: params ++ [")"%char])
      with (("("%char :: params) ++ [")"%char]) in Hbad.
    rewrite app_assoc in Hbad. change (lit ")") with [")"%char] in Hbad.
    now rewrite endsWith_last in Hbad.
  - rewrite forallb_app in Hbad. cbn [forallb] in Hbad.
    rewrite forallb_app in Hbad. cbn [forallb] in Hbad.
    rewrite (forallb_impl ident_char_any (operation_name_ident name Hname)),
      Hparams in Hbad.
    discriminate.
Qed.

Lemma getLiteralValue_call (name rest : str) :
  is_operation_name name = true ->
  getLiteralValue (name ++ "("%char :: rest) = @VUndefined number.
Proof.
  intros Hname. apply getLiteralValue_undefined.
  pose proof (call_path_chars name rest) as Hchars.
  repeat split.
  - now apply (lit_path_chars_ne Hchars).
  - now apply (lit_path_chars_ne Hchars).
  - now apply (lit_path_chars_ne Hchars).
  - intros Hnum. apply Numeral_path_chars in Hnum. congruence.
  - destruct name as [|c name]; [discriminate|].
    cbn [is_operation_name] in Hname. apply andb_true_iff in Hname.
    destruct Hname as [Hc _]. cbn [app lit list_ascii_of_string startsWith].
    destruct (Ascii.eqb c "'"%char) eqn:E; [|reflexivity].
    apply Ascii.eqb_eq in E. subst c. discriminate.
Qed.

(** X9. A call of a registered operation whose parameters are made of
    plain characters, quoted strings without backslash and groups in
    parentheses, on one line, evaluates the trimmed parameters from left to
    right with the hierarchy of the call and applies the operation to their
    values; the first parameter that throws ends the call with its
    error. *)
Theorem evaluateExpression_call
        (name : str) (fn : list (jsval number) -> jsval number)
        (ps : list str) (last : str) (h : list (DataContext number)) :
  is_operation_name name = true ->
  operations name = Some fn ->
  Forall TopLevel ps -> TopLevel last -> last <> [] ->
  forallb any_char (comma_separated ps ++ last) = true ->
  evaluateExpression
    (name ++ "("%char :: (comma_separated ps ++ last) ++ [")"%char]) h
  = (resolvedParams <-
       mapR (fun param => evaluateExpression param h)
            (map trim ps ++ [trim last]) ;;
     Ok (fn resolvedParams)).
Proof.
  intros Hname Hfn Hps Hlast Hne Hany.
  rewrite evaluateExpression_unfold. cbv zeta.
  rewrite getLiteralValue_call by exact Hname. cbn [is_undefined negb].
  pose proof (includes_app name (lit "(")
                           ((comma_separated ps ++ last) ++ [")"%char])) as Hin.
  change (lit "(" ++ (comma_separated ps ++ last) ++ [")"%char])
    with ("("%char :: (comma_separated ps ++ last) ++ [")"%char]) in Hin.
  rewrite Hin.
  unfold getOperationValue, getOperationValue_with.
  rewrite (match_operationRegex_call _ _ Hname Hany), Hfn.
  now rewrite (parseParameters_comma_separated Hps Hlast Hne).
Qed.
End CallFacts.

(** ** Parameter lists that end early *)













(** ** Backslashes in the strings of a parameter list *)

(** The first alternative of the pattern of a string takes every character
    but a quote, a backslash too. *)
Lemma unquoted_first (A : Type) (n0 : nat) (q : str) :
  forallb (none_of [chr_quote]) q = true ->
  forall rest (k : str -> option A) x fuel,
    length (q ++ chr_quote :: rest) <= fuel ->
    k (chr_quote :: rest) = Some x ->
    star (run n0 (Alt (Cls (none_of [chr_quote]))
                      (Seq (Chr chr_backslash) Dot)))
         fuel (q ++ chr_quote :: rest) k = Some x.
Proof.
  induction q as [|c q IH]; intros Hq rest k x fuel Hfuel Hk.
  - cbn [app]. rewrite star_stop; [exact Hk|]. intros k'. reflexivity.
  - cbn [forallb] in Hq. apply andb_true_iff in Hq. destruct Hq as [Hc Hq].
    destruct fuel as [|fuel]; [simpl in Hfuel; lia|].
    cbn [app]. apply star_step_some, run_Alt_left.
    rewrite run_Cls_head, Hc.
    shorter. apply IH; [exact Hq | simpl in Hfuel; lia | exact Hk].
Qed.

Lemma pstep_initial_unquoted q s stack :
  forallb (none_of [chr_quote]) q = true ->
  step param_transitions initial stack (chr_quote :: q ++ chr_quote :: s)
  = Some (initial, stack, s).
Proof.
  intros Hq. first_rule.
  rewrite try_read_re_miss by now apply exec_param_end_char.
  change (lit "(") with ["("%char].
  rewrite try_read_char_miss by reflexivity.
  rewrite (@try_read_re_hit _ param_string_regex
             (chr_quote :: q ++ [chr_quote]) s).
  - cbn [next update_stack pop push]. do 2 f_equal.
    replace (chr_quote :: q ++ chr_quote :: s)
      with ((chr_quote :: q ++ [chr_quote]) ++ s)
      by (simpl; now rewrite <- app_assoc).
    now rewrite skipn_app, skipn_all, Nat.sub_diag.
  - simpl. now rewrite <- app_assoc.
  - unfold exec_prefix, param_string_regex.
    rewrite run_Seq, run_Chr_eq, run_Seq, run_Star.
    apply unquoted_first; [exact Hq | apply le_n|].
    now rewrite run_Chr_eq.
Qed.

Lemma param_match_unquoted (q rest : str) :
  forallb (none_of [chr_quote]) q = true ->
  param_match (chr_quote :: q ++ chr_quote :: ","%char :: rest)
  = Matched ((chr_quote :: q ++ [chr_quote]) ++ [","%char]).
Proof.
  intros Hq. rewrite (@param_match_reach _ rest []).
  - f_equal.
    replace (chr_quote :: q ++ chr_quote :: ","%char :: rest)
      with (((chr_quote :: q ++ [chr_quote]) ++ [","%char]) ++ rest)
      by (simpl; rewrite <- !app_assoc; reflexivity).
    apply consumed_app.
  - eapply reach_step;
      [reflexivity | now apply pstep_initial_unquoted |].
    eapply reach_step;
      [reflexivity | apply pstep_initial_comma | apply reach_refl].
Qed.

Lemma trimStart_quote (s : str) : trimStart (chr_quote :: s) = chr_quote :: s.
Proof. reflexivity. Qed.

Lemma trim_quoted (q : str) :
  trim (chr_quote :: q ++ [chr_quote]) = chr_quote :: q ++ [chr_quote].
Proof.
  unfold trim, trimEnd. rewrite trimStart_quote.
  change (chr_quote :: q ++ [chr_quote])
    with ((chr_quote :: q) ++ [chr_quote]).
  rewrite rev_app_distr. cbn [rev app]. rewrite trimStart_quote.
  change (chr_quote :: rev q ++ [chr_quote])
    with ([chr_quote] ++ rev (chr_quote :: q)).
  rewrite rev_app_distr, rev_involutive. reflexivity.
Qed.

(** X14. In a parameter list a quoted string ends at the first quote after
    the one that opens it, also when a backslash stands before that quote:
    the comma that follows separates two parameters, and the string comes
    back as it is written, with its backslashes. *)
Theorem parseParameters_first_quote_closes
        (q : str) (ps : list str) (last : str) :
  forallb (none_of [chr_quote]) q = true ->
  Forall TopLevel ps -> TopLevel last -> last <> [] ->
  parseParameters
    (chr_quote :: q ++ chr_quote :: ","%char :: comma_separated ps ++ last)
  = Ok ((chr_quote :: q ++ [chr_quote]) :: map trim ps ++ [trim last]).
Proof.
  intros Hq Hps Hlast Hne. unfold parseParameters.
  cbn [length parseParameters_loop Nat.ltb Nat.leb skipn].
  rewrite (@param_match_unquoted q _ Hq).
  rewrite drop_trailing_comma, trim_quoted.
  change ((chr_quote :: q ++ [chr_quote]) ++ [","%char])
    with (chr_quote :: (q ++ [chr_quote]) ++ [","%char]) at 1.
  cbv iota. cbn [Nat.add app].
  pose proof (@parseParameters_loop_split last ps Hps Hlast Hne
                ((chr_quote :: q ++ [chr_quote]) ++ [","%char])
                [chr_quote :: q ++ [chr_quote]]) as Hloop.
  replace (((chr_quote :: q ++ [chr_quote]) ++ [","%char])
           ++ comma_separated ps ++ last)
    with (chr_quote :: q ++ chr_quote :: ","%char :: comma_separated ps ++ last)
    in Hloop by (simpl; rewrite <- !app_assoc; reflexivity).
  apply Hloop.
  rewrite (length_app q). cbn [length]. lia.
Qed.

(** ** The walk over a tree *)

(** Induction over a tree, with the property at hand for the items of an
    array and the values of an object. *)
Lemma jsval_tree_ind (number : Type) (P : jsval number -> Prop) :
  P VUndefined -> P VNull -> (forall b, P (VBool b)) ->
  (forall n, P (VNum n)) -> (forall s, P (VStr s)) ->
  (forall items, Forall P items -> P (VArr items)) ->
  (forall entries, Forall (fun entry => P (snd entry)) entries ->
                   P (VObj entries)) ->
  forall v, P v.
Proof.
  intros Hu Hn Hb Hnum Hs Harr Hobj. fix IH 1.
  intros [| |b|n|s|items|entries].
  - exact Hu.
  - exact Hn.
  - apply Hb.
  - apply Hnum.
  - apply Hs.
  - apply Harr. induction items as [|item items IHitems]; constructor;
      [apply IH | exact IHitems].
  - apply Hobj. induction entries as [|[key v] entries IHentries];
      constructor; [apply IH | exact IHentries].
Qed.

Section WalkFacts.
Context {number : Type} {runtime : Runtime number}.

Lemma mapM_outcome (f : jsval number -> M (jsval number))
      (items : list (jsval number)) :
  Forall (fun item => walk_outcome (f item) (null_free item)) items ->
  if forallb (@null_free number) items
  then exists l w, mapM f items = (Ok l, w)
  else exists message w, mapM f items = (Err (TypeError message), w).
Proof.
  induction 1 as [|item items Hitem _ IH]; cbn [forallb mapM].
  - unfold retM. eauto.
  - unfold walk_outcome in Hitem. destruct (null_free item); cbn [andb].
    + destruct Hitem as (v & w & ->). cbn [bindM].
      destruct (forallb (@null_free number) items).
      * destruct IH as (l & w' & ->). cbn [bindM retM]. eauto.
      * destruct IH as (message & w' & ->). cbn [bindM]. eauto.
    + destruct Hitem as (message & w & ->). cbn [bindM]. eauto.
Qed.

Lemma reduceM_outcome (f : str -> jsval number -> M (jsval number))
      (entries : list (str * jsval number)) :
  Forall (fun entry => walk_outcome
                         (f (fst entry) (snd entry))
                         (list_includes ignore (fst entry)
                          || null_free (snd entry))) entries ->
  forall acc,
    if forallb (fun entry : str * jsval number =>
                  list_includes ignore (fst entry) || null_free (snd entry))
               entries
    then exists out w, reduceM f entries acc = (Ok out, w)
    else exists message w,
        reduceM f entries acc = (Err (TypeError message), w).
Proof.
  induction 1 as [|[key v] entries Hentry _ IH]; intros acc;
    cbn [forallb reduceM].
  - unfold retM. eauto.
  - cbn [fst snd] in *. unfold walk_outcome in Hentry.
    destruct (list_includes ignore key || null_free v); cbn [andb].
    + destruct Hentry as (v' & w & ->). cbn [bindM].
      specialize (IH (obj_set key v' acc)).
      destruct (forallb _ entries).
      * destruct IH as (out & w' & ->). eauto.
      * destruct IH as (message & w' & ->). eauto.
    + destruct Hentry as (message & w & ->). cbn [bindM]. eauto.
Qed.

Lemma replaceBindings_outcome (data : jsval number) :
  forall h, walk_outcome (replaceBindings data h) (null_free data).
Proof.
  induction data as [| |b|n|s|items IH|entries IH] using jsval_tree_ind;
    intros h; unfold walk_outcome; cbn [null_free].
  - cbn. unfold retM. eauto.
  - cbn. unfold throwM. eauto.
  - cbn. unfold retM. eauto.
  - cbn. unfold retM. eauto.
  - apply replaceBindingsInString_total.
  - rewrite replaceBindings_array.
    pose proof (@mapM_outcome (fun item => replaceBindings item h) items)
      as Hmap.
    destruct (forallb (@null_free number) items).
    + destruct Hmap as (l & w & ->);
        [eapply Forall_impl; [|exact IH]; intros item Hitem; apply Hitem|].
      cbn [bindM retM]. eauto.
    + destruct Hmap as (message & w & ->);
        [eapply Forall_impl; [|exact IH]; intros item Hitem; apply Hitem|].
      cbn [bindM]. eauto.
  - rewrite replaceBindings_object.
    pose proof (@reduceM_outcome
                  (bind_entry (getContextHierarchy (VObj entries) h)) entries)
      as Hred.
    assert (Forall (fun entry : str * jsval number =>
                      walk_outcome
                        (bind_entry (getContextHierarchy (VObj entries) h)
                                    (fst entry) (snd entry))
                        (list_includes ignore (fst entry)
                         || null_free (snd entry))) entries) as Hall.
    { eapply Forall_impl; [|exact IH]. intros [key v] Hv. cbn [fst snd] in *.
      unfold bind_entry. destruct (list_includes ignore key); cbn [orb].
      - unfold walk_outcome, retM. eauto.
      - apply Hv. }
    specialize (Hred Hall []).
    destruct (forallb _ entries).
    + destruct Hred as (out & w & ->). cbn [bindM retM]. eauto.
    + destruct Hred as (message & w & ->). cbn [bindM]. eauto.
Qed.

(** X12. The walk returns a tree whenever it meets no [null] (the values
    under [id], [context] and [ _beagleComponent_] are not looked at), and
    throws a [TypeError] when it meets one: no [BeagleParseError] and no
    [BeagleNotFoundError] of a binding ever leaves [replaceBindings]. *)
Theorem replaceBindings_throws_on_null_only
        (data : jsval number) (h : list (DataContext number)) :
  (null_free data = true ->
   exists v w, replaceBindings data h = (Ok v, w))
  /\ (null_free data = false ->
      exists message w,
        replaceBindings data h = (Err (TypeError message), w)).
Proof.
  pose proof (replaceBindings_outcome data h) as H. unfold walk_outcome in H.
  split; intros E; rewrite E in H; exact H.
Qed.

Lemma mapM_identity (f : jsval number -> M (jsval number))
      (items : list (jsval number)) :
  Forall (fun item => f item = (Ok item, [])) items ->
  mapM f items = (Ok items, []).
Proof.
  induction 1 as [|item items Hitem _ IH]; cbn [mapM]; [reflexivity|].
  now rewrite Hitem, IH.
Qed.

Lemma reduceM_identity (f : str -> jsval number -> M (jsval number))
      (entries : list (str * jsval number)) :
  Forall (fun entry => f (fst entry) (snd entry) = (Ok (snd entry), []))
         entries ->
  forall acc,
    NoDup (map fst acc ++ map fst entries) ->
    reduceM f entries acc = (Ok (acc ++ entries), []).
Proof.
  induction 1 as [|[key v] entries Hentry _ IH]; intros acc Hdup;
    cbn [reduceM].
  - unfold retM. now rewrite app_nil_r.
  - cbn [fst snd] in *. rewrite Hentry. cbn [bindM].
    cbn [map fst] in Hdup.
    assert (~ In key (map fst acc)) as Hfresh.
    { intros Hin. apply NoDup_remove_2 in Hdup. apply Hdup.
      apply in_or_app. now left. }
    rewrite obj_set_fresh by exact Hfresh.
    rewrite IH.
    + now rewrite <- app_assoc.
    + rewrite map_app. cbn [map fst]. rewrite <- app_assoc. exact Hdup.
Qed.

Lemma replaceBindingsInString_no_opening
      (s : str) (h : list (DataContext number)) :
  includes s (lit "@{") = false ->
  replaceBindingsInString s h = (Ok (VStr s), []).
Proof. intros Hs. apply replaceBindingsInString_no_token. now left. Qed.

Lemma replaceBindings_identity (data : jsval number) :
  WellKeyed data -> binding_free data = true ->
  forall h, replaceBindings data h = (Ok data, []).
Proof.
  induction data as [| |b|n|s|items IH|entries IH] using jsval_tree_ind;
    intros Hkeys Hfree h; cbn [binding_free] in Hfree.
  - reflexivity.
  - discriminate.
  - reflexivity.
  - reflexivity.
  - apply replaceBindingsInString_no_opening. now apply negb_true_iff.
  - rewrite replaceBindings_array. rewrite mapM_identity; [reflexivity|].
    inversion Hkeys as [| | | | |items' Hall|]; subst.
    rewrite forallb_forall in Hfree. rewrite Forall_forall in *.
    intros item Hin. apply IH; auto.
  - rewrite replaceBindings_object.
    inversion Hkeys as [| | | | | |entries' Hdup Hall]; subst.
    rewrite reduceM_identity; [reflexivity | | exact Hdup].
    rewrite forallb_forall in Hfree. rewrite Forall_forall in *.
    intros [key v] Hin. cbn [fst snd]. unfold bind_entry.
    specialize (Hfree _ Hin). cbn [fst snd] in Hfree.
    destruct (list_includes ignore key); [reflexivity|].
    apply (IH _ Hin); [exact (Hall _ Hin) | exact Hfree].
Qed.

(** X13. A tree without [null] in which no string (but those under the
    keys the walk copies) has the opening of a binding comes back equal to
    itself, with no warning, whatever the contexts. *)
Theorem replaceBindings_without_bindings
        (data : jsval number) (h : list (DataContext number)) :
  WellKeyed data -> binding_free data = true ->
  replaceBindings data h = (Ok data, []).
Proof. intros Hkeys Hfree. now apply replaceBindings_identity. Qed.
End WalkFacts.

(** * The statements at work *)

Ltac body_chars :=
  repeat (apply bb_plain; [reflexivity|]); apply bb_nil.

(** With no operation named [missing], with the malformed path [a b] as a
    whole binding and inside a string, and with text before a call of
    [missing]. *)
Lemma replaceBindingsInString_never_throws_witness :
  @operations _ numeral_runtime (lit "missing") = None
  /\ @replaceBindingsInString _ numeral_runtime (lit "@{missing(1)}") []
     = (Ok (VStr (lit "@{missing(1)}")),
        [BeagleNotFoundError (unknown_operation_message (lit "missing"))])
  /\ match_fullBindingRegex (lit "@{a b}") = Some (lit "a b")
  /\ @evaluateExpression _ numeral_runtime (lit "a b") []
     = Err (BeagleParseError (@invalid_path_message (lit "a b")))
  /\ @replaceBindingsInString _ numeral_runtime (lit "@{a b}") []
     = (Ok (VStr (lit "@{a b}")),
        [BeagleParseError (@invalid_path_message (lit "a b"))])
  /\ length (lit "\\") mod 2 = 0
  /\ @replaceBinding _ numeral_runtime [] (lit "\\@{a b}") (lit "\\", lit "a b")
     = (Ok (lit "\\@{a b}"),
        [BeagleParseError (@invalid_path_message (lit "a b"))])
  /\ (forall e, BindingBody e ->
                lit "x @{missing(1)}" <> lit "@{" ++ e ++ lit "}")
  /\ (exists ps,
         Tokenised (lit "x @{missing(1)}") ps
         /\ (forall ps', Tokenised (lit "x @{missing(1)}") ps' -> ps' = ps)
         /\ @replaceBindingsInString _ numeral_runtime
              (lit "x @{missing(1)}") []
            = (Ok (VStr (@rendered_text _ numeral_runtime [] ps)),
               @rendered_warnings _ numeral_runtime [] ps))
  /\ Tokenised (lit "x @{missing(1)}")
               [Chunk "x"; Chunk " "; Token 0 (lit "missing(1)")]
  /\ Nat.odd 0 = false
  /\ @evaluateExpression _ numeral_runtime (lit "missing(1)") []
     = Err (BeagleNotFoundError (unknown_operation_message (lit "missing")))
  /\ @rendered _ numeral_runtime [] (Token 0 (lit "missing(1)"))
     = (lit "@{missing(1)}",
        [BeagleNotFoundError (unknown_operation_message (lit "missing"))])
  /\ @replaceBindingsInString _ numeral_runtime (lit "x @{missing(1)}") []
     = (Ok (VStr (lit "x @{missing(1)}")),
        [BeagleNotFoundError (unknown_operation_message (lit "missing"))]).
Proof.
  destruct (@replaceBindingsInString_never_throws _ numeral_runtime)
    as (_ & Hfull & Hmid & Hmissing & Hgeneral & Herror & _ & _).
  assert (forall e, BindingBody e ->
                    lit "x @{missing(1)}" <> lit "@{" ++ e ++ lit "}")
    as Haround by (intros e _ H; discriminate H).
  split; [reflexivity|].
  split; [apply Hmissing; reflexivity|].
  split; [reflexivity|].
  split; [reflexivity|].
  split; [apply (Hfull _ (lit "a b")); reflexivity|].
  split; [reflexivity|].
  split; [apply Hmid; reflexivity|].
  split; [exact Haround|].
  split; [exact (Hgeneral (lit "x @{missing(1)}") [] Haround)|].
  split.
  { apply tk_chunk;
      [apply (proj1 (exec_bindingRegex_no_token 0 _)); reflexivity|].
    apply tk_chunk;
      [apply (proj1 (exec_bindingRegex_no_token 0 _)); reflexivity|].
    apply (@tk_token 0 (lit "missing(1)") [] []); [body_chars | apply tk_nil]. }
  split; [reflexivity|].
  split; [reflexivity|].
  split; [apply (Herror [] 0 (lit "missing(1)")); reflexivity|].
  reflexivity.
Defined.

(** A binding to the context [user], to a context that is not there, and a
    malformed one. *)
Lemma replaceBindingsInString_whole_binding_witness :
  BindingBody (lit "user")
  /\ @evaluateExpression _ numeral_runtime (lit "user") [user_context]
     = Ok (VStr (lit "Ana"))
  /\ @replaceBindingsInString _ numeral_runtime (lit "@{user}") [user_context]
     = (Ok (VStr (lit "Ana")), [])
  /\ @evaluateExpression _ numeral_runtime (lit "nope") [user_context]
     = Ok VUndefined
  /\ @replaceBindingsInString _ numeral_runtime (lit "@{nope}") [user_context]
     = (Ok (VStr (lit "@{nope}")), [])
  /\ @replaceBindingsInString _ numeral_runtime (lit "@{a b}") [user_context]
     = (Ok (VStr (lit "@{a b}")),
        [BeagleParseError (@invalid_path_message (lit "a b"))]).
Proof.
  assert (BindingBody (lit "user")) as Huser by body_chars.
  assert (BindingBody (lit "nope")) as Hnope by body_chars.
  assert (BindingBody (lit "a b")) as Hab by body_chars.
  split; [exact Huser|].
  split; [reflexivity|].
  split.
  { apply (proj1 (@replaceBindingsInString_whole_binding
                    _ numeral_runtime _ [user_context] Huser));
      [reflexivity | discriminate]. }
  split; [reflexivity|].
  split.
  { apply (proj1 (proj2 (@replaceBindingsInString_whole_binding
                           _ numeral_runtime _ [user_context] Hnope))).
    reflexivity. }
  apply (proj1 (proj2 (proj2 (@replaceBindingsInString_whole_binding
                                _ numeral_runtime _ [user_context] Hab)))).
  reflexivity.
Defined.

(** Two bindings side by side, a binding after text with an [@] and two
    backslashes, and the escaped binding of ["Hello, \@{user.name}!"]. *)
Lemma replaceBindingsInString_escaping_witness :
  (forall e, BindingBody e -> lit "@{a}@{user}" <> lit "@{" ++ e ++ lit "}")
  /\ (exists ps,
         Tokenised (lit "@{a}@{user}") ps
         /\ (forall ps', Tokenised (lit "@{a}@{user}") ps' -> ps' = ps)
         /\ @replaceBindingsInString _ numeral_runtime (lit "@{a}@{user}")
              [user_context]
            = (Ok (VStr (@rendered_text _ numeral_runtime [user_context] ps)),
               @rendered_warnings _ numeral_runtime [user_context] ps))
  /\ Tokenised (lit "@{a}@{user}") [Token 0 (lit "a"); Token 0 (lit "user")]
  /\ @replaceBindingsInString _ numeral_runtime (lit "@{a}@{user}")
       [user_context]
     = (Ok (VStr (lit "@{a}Ana")), [])
  /\ (forall e, BindingBody e ->
                lit "a@b \\@{user}" <> lit "@{" ++ e ++ lit "}")
  /\ (exists ps,
         Tokenised (lit "a@b \\@{user}") ps
         /\ (forall ps', Tokenised (lit "a@b \\@{user}") ps' -> ps' = ps)
         /\ @replaceBindingsInString _ numeral_runtime (lit "a@b \\@{user}")
              [user_context]
            = (Ok (VStr (@rendered_text _ numeral_runtime [user_context] ps)),
               @rendered_warnings _ numeral_runtime [user_context] ps))
  /\ Tokenised (lit "a@b \\@{user}")
               [Chunk "a"; Chunk "@"; Chunk "b"; Chunk " ";
                Token 2 (lit "user")]
  /\ @replaceBindingsInString _ numeral_runtime (lit "a@b \\@{user}")
       [user_context]
     = (Ok (VStr (lit "a@b \Ana")), [])
  /\ forallb inert (lit "Hello, ") = true
  /\ BindingBody (lit "user.name")
  /\ (lit "Hello, " <> [] \/ 1 <> 0 \/ lit "!" <> [])
  /\ exists rest w,
      @interpolate _ numeral_runtime [user_context] (lit "!") = (Ok rest, w)
      /\ @replaceBindingsInString _ numeral_runtime
           (lit "Hello, \@{user.name}!") [user_context]
         = (Ok (VStr (lit "Hello, "
                      ++ fst (@emitted _ numeral_runtime [user_context] 1
                                       (lit "user.name"))
                      ++ rest)),
            snd (@emitted _ numeral_runtime [user_context] 1
                          (lit "user.name")) ++ w).
Proof.
  destruct (@replaceBindingsInString_escaping _ numeral_runtime
              [user_context]) as (Hgeneral & _ & _ & _ & _ & _ & _ & Hfirst).
  assert (forall e, BindingBody e ->
                    lit "@{a}@{user}" <> lit "@{" ++ e ++ lit "}") as Htwo.
  { intros e He H.
    assert (match_fullBindingRegex (lit "@{a}@{user}") = Some e) as F
        by (apply match_fullBindingRegex_grammar; split; assumption).
    vm_compute in F. discriminate F. }
  assert (forall e, BindingBody e ->
                    lit "a@b \\@{user}" <> lit "@{" ++ e ++ lit "}")
    as Htext by (intros e _ H; discriminate H).
  assert (BindingBody (lit "user.name")) as Hbody by body_chars.
  assert (lit "Hello, " <> [] \/ 1 <> 0 \/ lit "!" <> []) as Haround
      by (right; left; discriminate).
  split; [exact Htwo|].
  split; [exact (Hgeneral (lit "@{a}@{user}") Htwo)|].
  split.
  { apply (@tk_token 0 (lit "a") (lit "@{user}") [Token 0 (lit "user")]);
      [body_chars|].
    apply (@tk_token 0 (lit "user") [] []); [body_chars | apply tk_nil]. }
  split; [reflexivity|].
  split; [exact Htext|].
  split; [exact (Hgeneral (lit "a@b \\@{user}") Htext)|].
  split.
  { do 4 (apply tk_chunk;
          [apply (proj1 (exec_bindingRegex_no_token 0 _)); reflexivity|]).
    apply (@tk_token 2 (lit "user") [] []); [body_chars | apply tk_nil]. }
  split; [reflexivity|].
  split; [reflexivity|].
  split; [exact Hbody|].
  split; [exact Haround|].
  apply (Hfirst (lit "Hello, ") 1 (lit "user.name") (lit "!"));
    [reflexivity | exact Hbody | exact Haround].
Defined.

(** C4 as it is stated fails on ["a\\@{x}"] with no context: two
    backslashes, and [x] evaluates to [undefined]; the string comes back as
    it is, not as one backslash followed by the value. *)
Lemma replaceBindingsInString_escaping_counterexample :
  ~ (exists v,
        @evaluateExpression _ numeral_runtime (lit "x") [] = Ok v
        /\ fst (@replaceBindingsInString _ numeral_runtime (lit "a\\@{x}") [])
           = Ok (VStr (lit "a" ++ backslashes (2 / 2)
                       ++ @stringified _ numeral_runtime v))).
Proof.
  intros (v & Hv & H). vm_compute in Hv. injection Hv as <-.
  vm_compute in H. discriminate.
Qed.

(** The malformed path [a b] and the unknown context of [user.name]. *)
Lemma getBindingValue_invalid_or_unknown_witness :
  ~ ValidPath (lit "a b")
  /\ @getBindingValue _ numeral_runtime (lit "a b") []
     = Err (BeagleParseError (invalid_path_message (lit "a b")))
  /\ ValidPath (lit "user.name")
  /\ @getBindingValue _ numeral_runtime (lit "user.name") [] = Ok VUndefined.
Proof.
  assert (~ ValidPath (lit "a b")) as Hinvalid.
  { intros H. apply path_regex_complete in H. discriminate. }
  assert (ValidPath (lit "user.name")) as Hvalid.
  { now apply path_regex_sound. }
  split; [exact Hinvalid|].
  split.
  { apply (proj1 (@getBindingValue_invalid_or_unknown
                    _ numeral_runtime (lit "a b") [])).
    exact Hinvalid. }
  split; [exact Hvalid|].
  apply (proj2 (@getBindingValue_invalid_or_unknown
                  _ numeral_runtime (lit "user.name") []));
    [exact Hvalid | intros context []].
Defined.

(** The numeral [12.5] and the string [abc], which is no literal. *)
Lemma getLiteralValue_cases_witness :
  Numeral (lit "12.5")
  /\ @getLiteralValue _ numeral_runtime (lit "12.5") = VNum (lit "12.5")
  /\ ~ Numeral (lit "abc")
  /\ @getLiteralValue _ numeral_runtime (lit "abc") = VUndefined.
Proof.
  destruct (@getLiteralValue_cases _ numeral_runtime)
    as (_ & _ & _ & Hnum & _ & Hundef & _).
  assert (Numeral (lit "12.5")) as H125 by now apply number_regex_sound.
  assert (~ Numeral (lit "abc")) as Habc.
  { intros H. apply number_regex_complete in H. discriminate. }
  split; [exact H125|].
  split; [apply (Hnum (lit "12.5")); exact H125|].
  split; [exact Habc|].
  apply (proj2 (Hundef (lit "abc"))).
  repeat split; try discriminate. exact Habc.
Defined.

(** A node whose [id] and [_beagleComponent_] both hold a binding. *)
Lemma replaceBindings_reserved_keys_witness :
  let entries := [(lit "id", VStr (lit "@{user}"));
                  (lit "_beagleComponent_", VStr (lit "@{user}"))] in
  let out := [(lit "id", VStr (lit "@{user}"));
              (lit "_beagleComponent_", VStr (lit "Ana"))] in
  NoDup (map fst entries)
  /\ @replaceBindings _ numeral_runtime (VObj entries) [user_context]
     = (Ok (VObj out), [])
  /\ Forall2 (fun entry entry' =>
                fst entry' = fst entry
                /\ (fst entry = lit "id" \/ fst entry = lit "context"
                    \/ fst entry = lit " _beagleComponent_" ->
                    snd entry' = snd entry)
                /\ (forall s, fst entry = lit "_beagleComponent_" ->
                              snd entry = VStr s ->
                              exists w',
                                @replaceBindingsInString _ numeral_runtime
                                  s (@getContextHierarchy _ numeral_runtime
                                       (VObj entries) [user_context])
                                = (Ok (snd entry'), w')))
             entries out.
Proof.
  intros entries out.
  assert (NoDup (map fst entries)) as Hdup.
  { repeat constructor; simpl; intuition discriminate. }
  split; [exact Hdup|].
  split; [reflexivity|].
  apply (@replaceBindings_reserved_keys _ numeral_runtime entries out
           [user_context] [] Hdup).
  reflexivity.
Defined.

(** The call [sum()]. *)
Lemma parseParameters_empty_witness :
  is_operation_name (lit "sum") = true
  /\ @operations _ numeral_runtime (lit "sum") = Some (fun args => VArr args)
  /\ @getOperationValue _ numeral_runtime (lit "sum()") [] = Ok (VArr []).
Proof.
  split; [reflexivity|].
  split; [reflexivity|].
  apply (proj2 (@parseParameters_empty _ numeral_runtime) (lit "sum"));
    reflexivity.
Defined.

(** The parameters ['a,b'], [g(1,2)] and ['x'], with blanks after the
    commas. *)
Lemma parseParameters_splits_witness :
  Forall TopLevel [lit "'a,b'"; lit " g(1,2)"]
  /\ TopLevel (lit " 'x'")
  /\ lit " 'x'" <> []
  /\ parseParameters (lit "'a,b', g(1,2), 'x'")
     = Ok [lit "'a,b'"; lit "g(1,2)"; lit "'x'"].
Proof.
  assert (TopLevel (lit "'a,b'")) as H1.
  { apply (@tl_quoted (lit "a,b") []); [reflexivity | apply tl_nil]. }
  assert (TopLevel (lit " g(1,2)")) as H2.
  { apply tl_char; [reflexivity|]. apply tl_char; [reflexivity|].
    apply (@tl_group (lit "1,2") []); [|apply tl_nil].
    repeat (apply ns_char; [reflexivity | reflexivity |]). apply ns_nil. }
  assert (TopLevel (lit " 'x'")) as H3.
  { apply tl_char; [reflexivity|].
    apply (@tl_quoted (lit "x") []); [reflexivity | apply tl_nil]. }
  assert (Forall TopLevel [lit "'a,b'"; lit " g(1,2)"]) as Hps.
  { apply Forall_cons; [exact H1|]. apply Forall_cons; [exact H2|].
    apply Forall_nil. }
  split; [exact Hps|].
  split; [exact H3|].
  split; [discriminate|].
  apply (proj1 parseParameters_splits [lit "'a,b'"; lit " g(1,2)"]
               (lit " 'x'"));
    [exact Hps | exact H3 | discriminate].
Defined.

(** ** The further properties at work *)

Ltac plain_chars :=
  repeat (apply tl_char; [reflexivity|]); apply tl_nil.

(** An address with a brace after it, and a binding that is never closed. *)
Lemma replaceBindingsInString_without_token_witness :
  (includes (lit "ana@home {x}") (lit "@{") = false
   \/ includes (lit "ana@home {x}") (lit "}") = false)
  /\ @replaceBindingsInString _ numeral_runtime (lit "ana@home {x}")
       [user_context]
     = (Ok (VStr (lit "ana@home {x}")), [])
  /\ (includes (lit "Hello, @{user") (lit "@{") = false
      \/ includes (lit "Hello, @{user") (lit "}") = false)
  /\ @replaceBindingsInString _ numeral_runtime (lit "Hello, @{user")
       [user_context]
     = (Ok (VStr (lit "Hello, @{user")), []).
Proof.
  split; [left; reflexivity|].
  split.
  { apply (@replaceBindingsInString_without_token _ numeral_runtime).
    left. reflexivity. }
  split; [right; reflexivity|].
  apply (@replaceBindingsInString_without_token _ numeral_runtime).
  right. reflexivity.
Defined.

(** The whole binding of the numeral [12]. *)
Lemma replaceBindingsInString_typed_witness :
  @replaceBindingsInString _ numeral_runtime (lit "@{12}") []
  = (Ok (VNum (lit "12")), [])
  /\ typeof (@VNum str (lit "12")) <> TString
  /\ exists e, BindingBody e /\ lit "@{12}" = lit "@{" ++ e ++ lit "}"
               /\ @evaluateExpression _ numeral_runtime e []
                  = Ok (VNum (lit "12"))
               /\ @nil error = [].
Proof.
  split; [reflexivity|].
  split; [discriminate|].
  apply (@replaceBindingsInString_typed _ numeral_runtime (lit "@{12}") []
           (VNum (lit "12")) []);
    [reflexivity | discriminate].
Defined.

(** The string [it's], written ['it\'s']. *)
Lemma getLiteralValue_round_trip_witness :
  @getLiteralValue _ numeral_runtime (lit "'it\'s'") = VStr (lit "it's")
  /\ forallb (none_of [chr_backslash]) (lit "it's") = true
  /\ @replaceBindingsInString _ numeral_runtime (lit "@{'it\'s'}") []
     = (Ok (VStr (lit "it's")), []).
Proof.
  destruct (@getLiteralValue_round_trip _ numeral_runtime) as [Hlit Hwhole].
  split; [exact (Hlit (lit "it's"))|].
  split; [reflexivity|].
  apply (Hwhole (lit "it's") []). reflexivity.
Defined.

(** The path [user[0].name] with the context [user]. *)
Lemma getBindingValue_found_witness :
  run_of is_ident_char (lit "user")
  /\ Indexes (lit "[0]")
  /\ Segments (lit ".name")
  /\ @getContextInHierarchy str [user_context] (lit "user")
     = Some user_context
  /\ path_after_id (lit "[0]" ++ lit ".name") = lit "[0].name"
  /\ @getBindingValue _ numeral_runtime (lit "user[0].name") [user_context]
     = Ok (@lodash_get _ numeral_runtime (value user_context)
                       (lit "[0].name")).
Proof.
  assert (run_of is_ident_char (lit "user")) as Hident.
  { split; [discriminate | reflexivity]. }
  assert (Indexes (lit "[0]")) as Hixs.
  { apply (@ix_cons (lit "0") []); [|apply ix_nil].
    split; [discriminate | reflexivity]. }
  assert (Segments (lit ".name")) as Hsegs.
  { apply (@sg_cons (lit "name") [] []); [|apply ix_nil | apply sg_nil].
    split; [discriminate | reflexivity]. }
  split; [exact Hident|].
  split; [exact Hixs|].
  split; [exact Hsegs|].
  split; [reflexivity|].
  split; [reflexivity|].
  apply (@getBindingValue_found _ numeral_runtime (lit "user") (lit "[0]")
           (lit ".name") [user_context] user_context Hident Hixs Hsegs).
  reflexivity.
Defined.

(** The expression [ user ], with blanks around the name. *)
Lemma evaluateExpression_invalid_character_witness :
  includes (lit " user ") (lit "(") = false
  /\ startsWith (lit " user ") (lit "'") = false
  /\ forallb is_path_char (lit " user ") = false
  /\ @evaluateExpression _ numeral_runtime (lit " user ") [user_context]
     = Err (BeagleParseError (invalid_path_message (lit " user "))).
Proof.
  split; [reflexivity|].
  split; [reflexivity|].
  split; [reflexivity|].
  apply (@evaluateExpression_invalid_character _ numeral_runtime
           (lit " user ") [user_context]);
    reflexivity.
Defined.


(** A method call on a path, a call that is not closed, and a call over two
    lines. *)
Lemma getOperationValue_invalid_witness :
  is_operation_name (callee (lit "user.name()")) = false
  /\ @getOperationValue _ numeral_runtime (lit "user.name()") [user_context]
     = Err (BeagleParseError (invalid_operation_message (lit "user.name()")))
  /\ endsWith (lit "sum(1, 2") (lit ")") = false
  /\ @getOperationValue _ numeral_runtime (lit "sum(1, 2") []
     = Err (BeagleParseError (invalid_operation_message (lit "sum(1, 2")))
  /\ forallb any_char (lit "sum(1," ++ ["010"%char] ++ lit "2)") = false
  /\ @getOperationValue _ numeral_runtime
       (lit "sum(1," ++ ["010"%char] ++ lit "2)") []
     = Err (BeagleParseError
              (invalid_operation_message
                 (lit "sum(1," ++ ["010"%char] ++ lit "2)"))).
Proof.
  split; [reflexivity|].
  split.
  { apply (@getOperationValue_invalid _ numeral_runtime). left. reflexivity. }
  split; [reflexivity|].
  split.
  { apply (@getOperationValue_invalid _ numeral_runtime).
    right. left. reflexivity. }
  split; [reflexivity|].
  apply (@getOperationValue_invalid _ numeral_runtime).
  right. right. reflexivity.
Defined.

(** The call [sum(1, user)] with the context [user]. *)
Lemma evaluateExpression_call_witness :
  is_operation_name (lit "sum") = true
  /\ @operations _ numeral_runtime (lit "sum") = Some (fun args => VArr args)
  /\ Forall TopLevel [lit "1"]
  /\ TopLevel (lit " user")
  /\ lit " user" <> []
  /\ forallb any_char (comma_separated [lit "1"] ++ lit " user") = true
  /\ @evaluateExpression _ numeral_runtime (lit "sum(1, user)") [user_context]
     = (resolvedParams <-
          mapR (fun param =>
                  @evaluateExpression _ numeral_runtime param [user_context])
               [lit "1"; lit "user"] ;;
        Ok (VArr resolvedParams))
  /\ @evaluateExpression _ numeral_runtime (lit "sum(1, user)") [user_context]
     = Ok (VArr [VNum (lit "1"); VStr (lit "Ana")]).
Proof.
  assert (Forall TopLevel [lit "1"]) as Hps.
  { apply Forall_cons; [plain_chars | apply Forall_nil]. }
  assert (TopLevel (lit " user")) as Hlast by plain_chars.
  split; [reflexivity|].
  split; [reflexivity|].
  split; [exact Hps|].
  split; [exact Hlast|].
  split; [discriminate|].
  split; [reflexivity|].
  split; [|reflexivity].
  apply (@evaluateExpression_call _ numeral_runtime (lit "sum")
           (fun args => VArr args) [lit "1"] (lit " user") [user_context]);
    [reflexivity | reflexivity | exact Hps | exact Hlast | discriminate
    | reflexivity].
Defined.



(** The list ['a\',b]: the string ['a\'] and the parameter [b]. *)
Lemma parseParameters_first_quote_closes_witness :
  forallb (none_of [chr_quote]) (lit "a\") = true
  /\ Forall TopLevel (@nil str)
  /\ TopLevel (lit "b")
  /\ lit "b" <> []
  /\ parseParameters (lit "'a\',b") = Ok [lit "'a\'"; lit "b"].
Proof.
  assert (TopLevel (lit "b")) as Hb by plain_chars.
  split; [reflexivity|].
  split; [apply Forall_nil|].
  split; [exact Hb|].
  split; [discriminate|].
  apply (@parseParameters_first_quote_closes (lit "a\") [] (lit "b"));
    [reflexivity | apply Forall_nil | exact Hb | discriminate].
Defined.

(** A node whose [id] is [null], and a node with a [null] child. *)
Lemma replaceBindings_throws_on_null_only_witness :
  null_free (@VObj str [(lit "id", VNull); (lit "text", VStr (lit "@{a b}"))])
  = true
  /\ (exists v w,
         @replaceBindings _ numeral_runtime
           (VObj [(lit "id", VNull); (lit "text", VStr (lit "@{a b}"))]) []
         = (Ok v, w))
  /\ null_free (@VObj str [(lit "children", VArr [VBool true; VNull])])
     = false
  /\ (exists message w,
         @replaceBindings _ numeral_runtime
           (VObj [(lit "children", VArr [VBool true; VNull])]) []
         = (Err (TypeError message), w)).
Proof.
  split; [reflexivity|].
  split.
  { apply (proj1 (@replaceBindings_throws_on_null_only _ numeral_runtime
                    (VObj [(lit "id", VNull);
                           (lit "text", VStr (lit "@{a b}"))]) [])).
    reflexivity. }
  split; [reflexivity|].
  apply (proj2 (@replaceBindings_throws_on_null_only _ numeral_runtime
                  (VObj [(lit "children", VArr [VBool true; VNull])]) [])).
  reflexivity.
Defined.

(** A node with a text, a binding under [id] and two children. *)
Lemma replaceBindings_without_bindings_witness :
  let tree : jsval str :=
    VObj [(lit "id", VStr (lit "@{user}"));
          (lit "text", VStr (lit "Hello"));
          (lit "children", VArr [VBool true; VNum (lit "1")])] in
  WellKeyed tree
  /\ binding_free tree = true
  /\ @replaceBindings _ numeral_runtime tree [user_context] = (Ok tree, []).
Proof.
  intros tree.
  assert (WellKeyed tree) as Hkeys.
  { apply wk_obj.
    - repeat constructor; simpl; intuition discriminate.
    - repeat constructor. }
  split; [exact Hkeys|].
  split; [reflexivity|].
  apply (@replaceBindings_without_bindings _ numeral_runtime tree
           [user_context] Hkeys).
  reflexivity.
Defined.

(** ** Runs of the examples of the specification *)

Example escaped_binding_run :
  @replaceBindingsInString _ numeral_runtime
    (lit "Hello, \@{user.name}!") [user_context]
  = (Ok (VStr (lit "Hello, @{user.name}!")), []).
Proof. vm_compute. reflexivity. Qed.

Example two_backslashes_run :
  @replaceBindingsInString _ numeral_runtime
    (lit "Hello, \\@{user}!") [user_context]
  = (Ok (VStr (lit "Hello, \Ana!")), []).
Proof. vm_compute. reflexivity. Qed.

Example innermost_context_wins :
  let outer := {| id := lit "x"; value := @VNum str (lit "1") |} in
  let inner := {| id := lit "x"; value := @VNum str (lit "2") |} in
  @evaluateExpression _ numeral_runtime (lit "x") [outer; inner]
  = Ok (VNum (lit "2")).
Proof. vm_compute. reflexivity. Qed.

Example nested_operations_run :
  @evaluateExpression _ numeral_runtime
    (lit "sum(1, concat('a,b', user), true)") [user_context]
  = Ok (VArr [VNum (lit "1");
              VArr [VStr (lit "a,b"); VStr (lit "Ana")];
              VBool true]).
Proof. vm_compute. reflexivity. Qed.

Example tree_run :
  @replaceBindings _ numeral_runtime
    (VObj [(lit "id", VStr (lit "@{user}"));
           (lit "children", VArr [VStr (lit "@{user}"); VBool true])])
    [user_context]
  = (Ok (VObj [(lit "id", VStr (lit "@{user}"));
               (lit "children", VArr [VStr (lit "Ana"); VBool true])]),
     []).
Proof. vm_compute. reflexivity. Qed.
